(** * The chat service of the RAG agent (backend/chat_service.py)

    A shallow embedding of [ChatService] and of what it uses from
    models.py, of the document processor and of the event stream between
    main.py and the frontend, followed by the properties proved of them.

    - [PyStr]: the [str] methods the service calls ([split], [endswith],
      [join]);
    - [Presenter]: the loop of [send_message] that streams the answer word by
      word, as a coroutine;
    - [ChatMessage] and the JSON form of a history;
    - the world the service works on: [active_chats], [chat_locks], the lock
      objects, the files under ./chat_history and the indexes under
      ./chroma_db;
    - [create_chat], [get_chat_history], [is_processing],
      [_save_chat_history];
    - [send_message], an asynchronous generator, modelled by its suspension
      points and the function [resume] that runs it from one to the next;
    - runs of the generator, interleaved with the rest of the program, and
      the program as a whole: a world and the generators alive in it;
    - [Path] and [DocumentProcessor]: [process_document] of
      backend/document_processor.py with the [os.path] functions it calls;
    - [Stream]: the events [generate_response] of backend/main.py makes of
      the chunks, and the loop of frontend/app.py that reads them.

    The properties come in the same order: strings, the loop, a turn of
    [send_message], interference and the invariant of the whole program, the
    claims C1 to C10 about the service, and last further properties X1 to
    X18 of the service, the document processor and the event stream. *)

From Stdlib Require Import Ascii String.
From stdpp Require Import base decidable option list sorting strings gmap.

Set Warnings "-register-all".

(** ** Python [str] methods

    A Python [str] is modelled by a Rocq [string]; its characters are the code
    points below 256. *)
Module PyStr.

(** [str.isspace] on one character (code points below 256): TAB, LF, VT, FF,
    CR, the separators FS GS RS US, SPACE, NEL and NBSP. *)
Definition isspace (c : ascii) : bool :=
  match c with
  | "009" | "010" | "011" | "012" | "013"
  | "028" | "029" | "030" | "031"
  | " " | "133" | "160" => true
  | _ => false
  end%char.

(** The word collected so far is closed when a separator or the end of the
    string is met; an empty run between two separators yields nothing. *)
Definition flush (word : string) : list string :=
  if decide (word = "") then [] else [word].

(** [str.split()] with no argument: runs of whitespace separate the words,
    leading and trailing whitespace is dropped. [word] is the word being
    scanned. *)
Fixpoint split_go (word : string) (s : string) : list string :=
  match s with
  | "" => flush word
  | String c s' =>
      if isspace c then flush word ++ split_go "" s'
      else split_go (word +:+ String c "") s'
  end.

Definition split (s : string) : list string := split_go "" s.

(** [s.endswith(suffix)] *)
Definition endswith (s suffix : string) : bool :=
  (String.length suffix <=? String.length s)%nat
  && String.eqb
       (String.substring (String.length s - String.length suffix)
                         (String.length suffix) s)
       suffix.

(** [s.endswith((suf1, suf2, ...))]: a tuple of suffixes. *)
Definition endswith_any (s : string) (suffixes : list string) : bool :=
  existsb (endswith s) suffixes.

(** [sep.join(l)] *)
Fixpoint join (sep : string) (l : list string) : string :=
  match l with
  | [] => ""
  | [x] => x
  | x :: rest => x +:+ sep +:+ join sep rest
  end.

(** ["".join(l)] *)
Definition concat (l : list string) : string := foldr String.append "" l.

(** A character of the string is whitespace. *)
Fixpoint has_space (s : string) : bool :=
  match s with
  | "" => false
  | String c s' => isspace c || has_space s'
  end.

(** Every character of the string is whitespace (so also the empty
    string). *)
Fixpoint all_space (s : string) : bool :=
  match s with
  | "" => true
  | String c s' => isspace c && all_space s'
  end.

(** A token: not empty and free of whitespace. *)
Definition token (t : string) : Prop := t ≠ "" ∧ has_space t = false.

(** The last character of a string, if any. *)
Fixpoint last_char (s : string) : option ascii :=
  match s with
  | "" => None
  | String c "" => Some c
  | String _ s' => last_char s'
  end.

End PyStr.

(** ** The streaming loop (send_message, "Stream the response word by word") *)
Module Presenter.
Import PyStr.

Definition newline : string := String "010"%char "".

(** The loop is suspended at [yield word + " "], at [yield "\n"] or at
    [await asyncio.sleep(0.05)]; [n] is [len(words)], [i] and [word] are the
    loop variables and [rest] is what the iterator has not delivered. *)
Inductive cursor :=
| AtWord (n i : nat) (word : string) (rest : list string)
| AtBreak (n i : nat) (word : string) (rest : list string)
| AtSleep (n i : nat) (word : string) (rest : list string).

(** What the loop does next: hand out a chunk, wait, or end. *)
Inductive emit :=
| Chunk (chunk : string) (k : cursor)
| Wait (k : cursor)
| Done.

(** The head of the [for] loop: the next word is yielded with a space, or
    the loop is over. *)
Definition enter (n i : nat) (words : list string) : emit :=
  match words with
  | [] => Done
  | word :: rest => Chunk (word +:+ " ") (AtWord n i word rest)
  end.

(** From one suspension of the loop to the next. *)
Definition advance (k : cursor) : emit :=
  match k with
  | AtWord n i word rest =>
      if (i <? n - 1)%nat && endswith_any word ["."; "!"; "?"]
      then Chunk newline (AtBreak n i word rest)
      else Wait (AtSleep n i word rest)
  | AtBreak n i word rest => Wait (AtSleep n i word rest)
  | AtSleep n i word rest => enter n (S i) rest
  end.

(** [words = assistant_response.split()] and the first step of the loop. *)
Definition present (answer : string) : emit :=
  let words := split answer in
  enter (length words) 0 words.

(** The chunks handed out when the loop is resumed until it ends; [None]
    when [fuel] resumptions do not reach the end. *)
Fixpoint drain (fuel : nat) (s : emit) : option (list string) :=
  match s with
  | Done => Some []
  | Chunk chunk k =>
      match fuel with
      | 0 => None
      | S fuel' => (chunk ::.) <$> drain fuel' (advance k)
      end
  | Wait k =>
      match fuel with
      | 0 => None
      | S fuel' => drain fuel' (advance k)
      end
  end.

(** *** The loop at a glance

    The chunks one iteration of the loop yields, for [enumerate] index [i]
    out of [n = len(words)]. *)
Definition chunks_at (n i : nat) (word : string) : list string :=
  (word +:+ " ")
    :: (if (i <? n - 1)%nat && endswith_any word ["."; "!"; "?"]
        then [newline] else []).

(** All the chunks of [for i, word in enumerate(words)], from index [i] on. *)
Fixpoint stream_from (n i : nat) (words : list string) : list string :=
  match words with
  | [] => []
  | word :: rest => chunks_at n i word ++ stream_from n (S i) rest
  end.

(** *** The presenter as the specification words it *)

(** A token ends in a sentence-terminal punctuation mark. *)
Definition ends_sentence (token : string) : bool :=
  match last_char token with
  | Some c => bool_decide (c ∈ ["."; "!"; "?"]%char)
  | None => false
  end.

(** Each token followed by one space; a line break after a token that ends a
    sentence, unless it is the final token. *)
Fixpoint spec_chunks (tokens : list string) : list string :=
  match tokens with
  | [] => []
  | [token] => [token +:+ " "]
  | token :: rest =>
      (token +:+ " ")
        :: (if ends_sentence token then [newline] else [])
        ++ spec_chunks rest
  end.

(** "Split the answer on whitespace into tokens, preserving order": [tokens]
    are the tokens of [answer] when the answer is made of them, in this
    order, with whitespace between them and, maybe, before the first and
    after the last. A token is not empty and holds no whitespace. The
    whitespace-normalised text is then the tokens joined by single spaces. *)
Inductive tokens_of : string → list string → Prop :=
| tokens_blank (blank : string) :
    all_space blank = true → tokens_of blank []
| tokens_space (c : ascii) (answer : string) (tokens : list string) :
    isspace c = true → tokens_of answer tokens →
    tokens_of (String c answer) tokens
| tokens_last (t : string) :
    token t → tokens_of t [t]
| tokens_more (t : string) (c : ascii) (answer : string) (tokens : list string) :
    token t → isspace c = true → tokens_of answer tokens →
    tokens_of (t +:+ String c answer) (t :: tokens).

(** Whitespace normalisation: runs of whitespace become one space, leading
    and trailing whitespace is dropped. *)
Definition normalize (s : string) : string := join " " (split s).

End Presenter.

(** ** Exceptions and results *)

Inductive exn :=
| ValueError (msg : string)
| KeyError (key : string)
| TypeError
| ValidationError
| JSONDecodeError
| RuntimeError (msg : string)
| GeneratorExit                (* thrown at a [yield] by [aclose()] *)
| CancelledError               (* thrown at an [await] by cancellation *)
| External (name : string).    (* raised by a collaborator: adapter, index,
                                  file system *)

Inductive result (A : Type) :=
| Ok (a : A)
| Raise (e : exn).
Arguments Ok {A} a.
Arguments Raise {A} e.

(** ** models.ChatMessage and its JSON form *)

Record ChatMessage := mkChatMessage {
  role : string;
  content : string;
  timestamp : option string
}.

(** The documents [json.dump] writes and [json.load] reads back, as far as
    the history files need them. A file is modelled by the document it holds:
    on these documents (lists, objects, strings of code points below 256 and
    [None]) decoding the text that the encoder wrote gives the document
    again. *)
Inductive json :=
| JNull
| JStr (s : string)
| JList (items : list json)
| JDict (fields : list (string * json)).

(** [d.get(key)] on a decoded object. *)
Fixpoint dict_get (fields : list (string * json)) (key : string) : option json :=
  match fields with
  | [] => None
  | (k, v) :: rest => if decide (k = key) then Some v else dict_get rest key
  end.

(** [msg.dict()] *)
Definition to_dict (msg : ChatMessage) : json :=
  JDict [("role", JStr (role msg));
         ("content", JStr (content msg));
         ("timestamp", match timestamp msg with
                       | Some t => JStr t
                       | None => JNull
                       end)].

(** A required [str] field. *)
Definition str_field (fields : list (string * json)) (key : string) : result string :=
  match dict_get fields key with
  | Some (JStr s) => Ok s
  | _ => Raise ValidationError
  end.

(** An [Optional[str]] field with default [None]. *)
Definition optional_str_field (fields : list (string * json)) (key : string)
  : result (option string) :=
  match dict_get fields key with
  | None | Some JNull => Ok None
  | Some (JStr s) => Ok (Some s)
  | Some _ => Raise ValidationError
  end.

(** The constructor call [ChatMessage] with the entries of [msg] as keyword
    arguments. *)
Definition of_dict (msg : json) : result ChatMessage :=
  match msg with
  | JDict fields =>
      match str_field fields "role" with
      | Raise e => Raise e
      | Ok r =>
          match str_field fields "content" with
          | Raise e => Raise e
          | Ok c =>
              match optional_str_field fields "timestamp" with
              | Raise e => Raise e
              | Ok t => Ok (mkChatMessage r c t)
              end
          end
      end
  | _ => Raise TypeError
  end.

(** The characters of a string, one string each (iterating over a [str]). *)
Fixpoint chars (s : string) : list string :=
  match s with
  | "" => []
  | String c s' => String c "" :: chars s'
  end.

(** [for msg in history_data]: what iterating over a decoded document gives. *)
Definition iterate (doc : json) : result (list json) :=
  match doc with
  | JList items => Ok items
  | JDict fields => Ok (JStr ∘ fst <$> fields)
  | JStr s => Ok (JStr <$> chars s)
  | JNull => Raise TypeError
  end.

(** [[f(x) for x in l]] for an [f] that may raise. *)
Fixpoint comprehension {A B : Type} (f : A → result B) (l : list A) : result (list B) :=
  match l with
  | [] => Ok []
  | x :: rest =>
      match f x with
      | Raise e => Raise e
      | Ok y =>
          match comprehension f rest with
          | Raise e => Raise e
          | Ok ys => Ok (y :: ys)
          end
      end
  end.

(** ** The state the service works on *)

(** The conversation chain of a thread: the directory of the vector store it
    retrieves from and the conversation memory it accumulates. *)
Record chain := mkChain {
  persist_directory : string;
  memory : list (string * string)
}.

(** One entry of [active_chats]. *)
Record chat := mkChat {
  asset_id : string;
  conversation_chain : chain;
  history : list ChatMessage;
  processing : bool
}.

(** A file under ./chat_history: a JSON document, or bytes that do not parse
    (a write that failed half-way). *)
Inductive file :=
| JsonFile (doc : json)
| Corrupt.

(** A directory under ./chroma_db. *)
Inductive index :=
| Collection (chunks : list string)
| Unreadable.

(** [locks] is the heap of [threading.Lock] objects ([true]: held); a lock is
    named by its position, and [chat_locks] maps a thread id to its lock. *)
Record World := mkWorld {
  active_chats : gmap string chat;
  chat_locks : gmap string nat;
  locks : list bool;
  chat_history : gmap string file;
  chroma_db : gmap string index
}.

Definition set_active_chats (f : gmap string chat → gmap string chat) (w : World) : World :=
  mkWorld (f (active_chats w)) (chat_locks w) (locks w) (chat_history w) (chroma_db w).
Definition set_chat_locks (f : gmap string nat → gmap string nat) (w : World) : World :=
  mkWorld (active_chats w) (f (chat_locks w)) (locks w) (chat_history w) (chroma_db w).
Definition set_locks (f : list bool → list bool) (w : World) : World :=
  mkWorld (active_chats w) (chat_locks w) (f (locks w)) (chat_history w) (chroma_db w).
Definition set_chat_history (f : gmap string file → gmap string file) (w : World) : World :=
  mkWorld (active_chats w) (chat_locks w) (locks w) (f (chat_history w)) (chroma_db w).
Definition set_chroma_db (f : gmap string index → gmap string index) (w : World) : World :=
  mkWorld (active_chats w) (chat_locks w) (locks w) (chat_history w) (f (chroma_db w)).

(** ** A state and exception monad for straight-line code *)

Definition M (A : Type) : Type := World → result A * World.

Definition ret {A} (a : A) : M A := λ w, (Ok a, w).
Definition raise {A} (e : exn) : M A := λ w, (Raise e, w).
Definition bind {A B} (m : M A) (k : A → M B) : M B :=
  λ w, match m w with
       | (Ok a, w') => k a w'
       | (Raise e, w') => (Raise e, w')
       end.
Definition modify (f : World → World) : M unit := λ w, (Ok tt, f w).
Definition lift {A} (r : result A) : M A := λ w, (r, w).

Notation "'do' x <- m ; k" := (bind m (λ x, k))
  (at level 10, x name, m at level 100, k at level 200).

(** [self.active_chats[chat_thread_id]] *)
Definition the_chat (chat_thread_id : string) : M chat :=
  λ w, match active_chats w !! chat_thread_id with
       | Some c => (Ok c, w)
       | None => (Raise (KeyError chat_thread_id), w)
       end.

(** [self.active_chats[chat_thread_id]["processing"] = b] *)
Definition set_processing (chat_thread_id : string) (b : bool) : M unit :=
  do c <- the_chat chat_thread_id;
  modify (set_active_chats
            <[chat_thread_id :=
                mkChat (asset_id c) (conversation_chain c) (history c) b]>).

(** [self.active_chats[chat_thread_id]["history"].append(msg)] *)
Definition history_append (chat_thread_id : string) (msg : ChatMessage) : M unit :=
  do c <- the_chat chat_thread_id;
  modify (set_active_chats
            <[chat_thread_id :=
                mkChat (asset_id c) (conversation_chain c)
                       (history c ++ [msg]) (processing c)]>).

(** ** threading.Lock *)

(** [threading.Lock()] *)
Definition new_lock : M nat :=
  λ w, (Ok (length (locks w)), set_locks (λ l, l ++ [false]) w).

Definition locked (w : World) (lk : nat) : bool := default false (locks w !! lk).

(** [lock.acquire(blocking=False)] *)
Definition try_acquire (lk : nat) : M bool :=
  λ w, if locked w lk then (Ok false, w)
       else (Ok true, set_locks <[lk := true]> w).

(** [lock.release()] *)
Definition release (lk : nat) : M unit :=
  λ w, if locked w lk then (Ok tt, set_locks <[lk := false]> w)
       else (Raise (RuntimeError "release unlocked lock"), w).

(** ** ChatService: the operations that run to completion *)

Definition history_path (chat_thread_id : string) : string :=
  "./chat_history/" +:+ chat_thread_id +:+ ".json".

(** How writing the history file can fail: [open(path, 'w')] raises and the
    file system is untouched, or the file was opened (and truncated) and the
    write raises, which leaves bytes that do not parse. *)
Inductive write_fault :=
| OpenFails (e : exn)
| DumpFails (e : exn).

(** [_save_chat_history]: the whole history replaces the file. *)
Definition _save_chat_history (fault : option write_fault) (chat_thread_id : string)
  : M unit :=
  do c <- the_chat chat_thread_id;
  match fault with
  | Some (OpenFails e) => raise e
  | Some (DumpFails e) =>
      do _ <- modify (set_chat_history <[history_path chat_thread_id := Corrupt]>);
      raise e
  | None =>
      modify (set_chat_history
                <[history_path chat_thread_id :=
                    JsonFile (JList (to_dict <$> history c))]>)
  end.

Definition not_found (chat_thread_id : string) : exn :=
  ValueError ("Chat thread " +:+ chat_thread_id +:+ " not found").

(** [json.load(f)] on an opened history file, then the list comprehension. *)
Definition load_history (f : file) : result (list ChatMessage) :=
  match f with
  | Corrupt => Raise JSONDecodeError
  | JsonFile history_data =>
      match iterate history_data with
      | Raise e => Raise e
      | Ok msgs => comprehension of_dict msgs
      end
  end.

(** [get_chat_history] *)
Definition get_chat_history (chat_thread_id : string) : M (list ChatMessage) :=
  λ w, match active_chats w !! chat_thread_id with
       | None =>
           match chat_history w !! history_path chat_thread_id with
           | Some f => (load_history f, w)
           | None => (Raise (not_found chat_thread_id), w)
           end
       | Some c => (Ok (history c), w)
       end.

(** [is_processing] *)
Definition is_processing (chat_thread_id : string) : M bool :=
  λ w, match active_chats w !! chat_thread_id with
       | None => (Ok false, w)
       | Some c => (Ok (processing c), w)
       end.

(** [Chroma(persist_directory=...)]: the store of the directory is opened, and
    created empty when the directory holds none (the wrapper asks the client
    for [get_or_create_collection]); a directory that cannot be read raises. *)
Definition Chroma (directory : string) : M unit :=
  λ w, match chroma_db w !! directory with
       | None => (Ok tt, set_chroma_db <[directory := Collection []]> w)
       | Some (Collection _) => (Ok tt, w)
       | Some Unreadable => (Raise (External "chromadb"), w)
       end.

(** What arrives at an [await loop.run_in_executor(None, worker)]: the result
    of the worker or the exception it raised, or else an exception delivered
    at the [await] instead, as a cancellation is. In the second case the
    worker has run in its thread, or runs on there ([worker_runs] is true), or
    it was never started; what it writes is counted with the call. *)
Inductive arrival :=
| Delivered
| Interrupted (x : exn) (worker_runs : bool).

Definition run_in_executor {A} (a : arrival) (worker : M A) : M A :=
  match a with
  | Delivered => worker
  | Interrupted x true => λ w, (Raise x, (worker w).2)
  | Interrupted x false => raise x
  end.

(** What the surroundings supply to a call of [create_chat]. *)
Record create_env := mkCreateEnv {
  arrives : arrival;
    (* what arrives at the await of the executor *)
  chain_error : option exn
    (* the exception of ConversationBufferMemory or of
       ConversationalRetrievalChain.from_llm, if any *)
}.

(** The local function [load_vectorstore] of [create_chat], the worker. *)
Definition load_vectorstore (ce : create_env) (asset_id : string) : M chain :=
  let directory := "./chroma_db/" +:+ asset_id in
  do _ <- Chroma directory;
  do _ <- match chain_error ce with
          | Some x => raise x
          | None => ret tt
          end;
  ret (mkChain directory []).

(** [create_chat]; [uuid4] is the identifier [uuid.uuid4()] draws. *)
Definition create_chat (ce : create_env) (uuid4 : string) (asset_id : string)
  : M string :=
  let chat_thread_id := uuid4 in
  do lk <- new_lock;
  do _ <- modify (set_chat_locks <[chat_thread_id := lk]>);
  do conversation_chain <-
    run_in_executor (arrives ce) (load_vectorstore ce asset_id);
  do _ <- modify (set_active_chats
                    <[chat_thread_id := mkChat asset_id conversation_chain [] false]>);
  ret chat_thread_id.

(** ** send_message, an asynchronous generator

    The generator is modelled by the places where it can be suspended (each
    [yield] and each [await]) together with the local variables live there.
    [resume] runs the code from one such place to the next. *)

Inductive gen :=
| Created (chat_thread_id message : string)
| YieldBusy
| AwaitExecutor (chat_thread_id message : string) (chat_lock : nat)
| Streaming (chat_thread_id : string) (chat_lock : nat) (k : Presenter.cursor)
| Closed.

(** What one resumption shows to the outside. *)
Inductive output :=
| Yield (chunk : string)     (* a chunk for the consumer *)
| Suspend                    (* waiting for the executor or the timer *)
| Return                     (* the generator is exhausted *)
| Raised (e : exn).          (* an exception leaves the generator *)

(** What the surroundings supply when the generator is resumed. *)
Record env := mkEnv {
  thrown : option exn;
    (* an exception delivered at the suspension point instead of a value *)
  now : string;
    (* datetime.now().isoformat() *)
  executor : result (gmap string string);
    (* what awaiting the executor gives: the response of
       conversation_chain.invoke, or its exception *)
  session : chain → chain;
    (* what that call made of the conversation chain *)
  fault : option write_fault
    (* the fate of the history write *)
}.

(** How a stretch of the [try] body ends. *)
Inductive pause :=
| Yielded (chunk : string) (g : gen)
| Awaiting (g : gen)
| Completed.

Definition busy_notice : string :=
  "I'm still processing your previous message. Please wait a moment.".

(** [self.chat_locks.get(chat_thread_id)], and a new lock if there is none. *)
Definition get_lock (chat_thread_id : string) : M nat :=
  λ w, match chat_locks w !! chat_thread_id with
       | Some lk => (Ok lk, w)
       | None =>
           (do lk <- new_lock;
            do _ <- modify (set_chat_locks <[chat_thread_id := lk]>);
            ret lk) w
       end.

(** The [finally] block. *)
Definition finally_block (chat_thread_id : string) (chat_lock : nat) : M unit :=
  do _ <- set_processing chat_thread_id false;
  release chat_lock.

(** A stretch of the [try] body: when it ends the generator, normally or by an
    exception, the [finally] block runs first; an exception of the [finally]
    block replaces the one in flight. *)
Definition in_try (chat_thread_id : string) (chat_lock : nat) (body : M pause)
  : World → gen * output * World :=
  λ w, match body w with
       | (Ok (Yielded chunk g), w') => (g, Yield chunk, w')
       | (Ok (Awaiting g), w') => (g, Suspend, w')
       | (Ok Completed, w') =>
           match finally_block chat_thread_id chat_lock w' with
           | (Ok _, w'') => (Closed, Return, w'')
           | (Raise e', w'') => (Closed, Raised e', w'')
           end
       | (Raise e, w') =>
           match finally_block chat_thread_id chat_lock w' with
           | (Ok _, w'') => (Closed, Raised e, w'')
           | (Raise e', w'') => (Closed, Raised e', w'')
           end
       end.

(** The loop inside the generator. *)
Definition streaming (chat_thread_id : string) (chat_lock : nat)
    (s : Presenter.emit) : pause :=
  match s with
  | Presenter.Chunk chunk k => Yielded chunk (Streaming chat_thread_id chat_lock k)
  | Presenter.Wait k => Awaiting (Streaming chat_thread_id chat_lock k)
  | Presenter.Done => Completed
  end.

(** From the call to the first suspension. *)
Definition begin (e : env) (chat_thread_id message : string)
  : World → gen * output * World :=
  λ w, match active_chats w !! chat_thread_id with
       | None => (Closed, Raised (not_found chat_thread_id), w)
       | Some _ =>
           match get_lock chat_thread_id w with
           | (Raise x, w1) => (Closed, Raised x, w1)
           | (Ok chat_lock, w1) =>
               match try_acquire chat_lock w1 with
               | (Ok true, w2) =>
                   in_try chat_thread_id chat_lock
                     (do _ <- set_processing chat_thread_id true;
                      let user_message :=
                        mkChatMessage "user" message (Some (now e)) in
                      do _ <- history_append chat_thread_id user_message;
                      ret (Awaiting (AwaitExecutor chat_thread_id message chat_lock)))
                     w2
               | (Ok false, w2) => (YieldBusy, Yield busy_notice, w2)
               | (Raise x, w2) => (Closed, Raised x, w2)
               end
           end
       end.

(** From the executor's answer to the first chunk. *)
Definition after_invoke (e : env) (chat_thread_id message : string) (chat_lock : nat)
  : M pause :=
  do c <- the_chat chat_thread_id;
  do _ <- modify (set_active_chats
                    <[chat_thread_id :=
                        mkChat (asset_id c) (session e (conversation_chain c))
                               (history c) (processing c)]>);
  do response <- lift (executor e);
  do assistant_response <-
    match response !! "answer" with
    | Some a => ret a
    | None => raise (KeyError "answer")
    end;
  let assistant_message :=
    mkChatMessage "assistant" assistant_response (Some (now e)) in
  do _ <- history_append chat_thread_id assistant_message;
  do _ <- _save_chat_history (fault e) chat_thread_id;
  ret (streaming chat_thread_id chat_lock (Presenter.present assistant_response)).

(** Either the value of the suspended expression arrives, or an exception is
    raised in its place. *)
Definition deliver {A} (e : env) (m : M A) : M A :=
  match thrown e with
  | Some x => raise x
  | None => m
  end.

Definition resume (e : env) (g : gen) : World → gen * output * World :=
  match g with
  | Created chat_thread_id message =>
      match thrown e with
      | Some x => λ w, (Closed, Raised x, w)
      | None => begin e chat_thread_id message
      end
  | YieldBusy =>
      λ w, (Closed, match thrown e with Some x => Raised x | None => Return end, w)
  | AwaitExecutor chat_thread_id message chat_lock =>
      in_try chat_thread_id chat_lock
        (deliver e (after_invoke e chat_thread_id message chat_lock))
  | Streaming chat_thread_id chat_lock k =>
      in_try chat_thread_id chat_lock
        (deliver e (ret (streaming chat_thread_id chat_lock (Presenter.advance k))))
  | Closed => λ w, (Closed, Return, w)
  end.

(** ** Runs of the generator *)

Definition terminal (o : output) : bool :=
  match o with
  | Return | Raised _ => true
  | Yield _ | Suspend => false
  end.

(** The thread and the lock a suspended generator holds. *)
Definition owner (g : gen) : option (string * nat) :=
  match g with
  | AwaitExecutor chat_thread_id _ chat_lock
  | Streaming chat_thread_id chat_lock _ => Some (chat_thread_id, chat_lock)
  | Created _ _ | YieldBusy | Closed => None
  end.

(** What the rest of the program may do to the world while the generator is
    suspended holding the lock [lk] of thread [tid]: anything that keeps the
    thread registered with its history and flag, keeps its lock bound and in
    the same state, and keeps its history file. A generator that holds no lock
    relies on nothing. *)
Definition stable (tid : string) (lk : nat) (w w' : World) : Prop :=
  (∀ c, active_chats w !! tid = Some c →
        ∃ c', active_chats w' !! tid = Some c'
              ∧ asset_id c' = asset_id c
              ∧ history c' = history c
              ∧ processing c' = processing c)
  ∧ chat_locks w' !! tid = chat_locks w !! tid
  ∧ locks w' !! lk = locks w !! lk
  ∧ chat_history w' !! history_path tid = chat_history w !! history_path tid.

Definition rely (g : gen) (w w' : World) : Prop :=
  match owner g with
  | Some (tid, lk) => stable tid lk w w'
  | None => True
  end.

(** A run of the generator from a suspension point to its end; between two
    resumptions the rest of the program changes the world within [rely]. The
    trace records what each resumption was given and what it showed. *)
Inductive run : gen → World → list (env * output) → World → Prop :=
| run_end e g w g' o w' :
    resume e g w = (g', o, w') →
    terminal o = true →
    run g w [(e, o)] w'
| run_step e g w g' o w' w'' tr wf :
    resume e g w = (g', o, w') →
    terminal o = false →
    rely g' w' w'' →
    run g' w'' tr wf →
    run g w ((e, o) :: tr) wf.

(** A run without interference, driven by a script of resumptions. *)
Fixpoint exec (script : list env) (g : gen) (w : World)
  : option (list (env * output) * World) :=
  match script with
  | [] => None
  | e :: script' =>
      let '(g', o, w') := resume e g w in
      if terminal o then Some ([(e, o)], w')
      else
        match exec script' g' w' with
        | Some (tr, wf) => Some ((e, o) :: tr, wf)
        | None => None
        end
  end.

(** The chunks a trace delivered, and how it ended. *)
Definition chunks_of (tr : list (env * output)) : list string :=
  omap (λ eo, match eo.2 with Yield chunk => Some chunk | _ => None end) tr.

Definition outcome (tr : list (env * output)) : option output :=
  snd <$> last tr.

(** Nothing is thrown into the generator: the consumer reads the stream to its
    end and no wait is cancelled. *)
Definition undisturbed (tr : list (env * output)) : Prop :=
  Forall (λ eo, thrown eo.1 = None) tr.

(** The state of the lock of a thread, and its history. *)
Definition lock_state (w : World) (tid : string) : option bool :=
  lk ← chat_locks w !! tid; locks w !! lk.

Definition history_of (w : World) (tid : string) : option (list ChatMessage) :=
  history <$> active_chats w !! tid.

Definition processing_of (w : World) (tid : string) : option bool :=
  processing <$> active_chats w !! tid.

(** ** Predicates on worlds used in the statements *)

(** The lock of the thread can be taken: it is free, or the thread has none
    yet (then [send_message] makes one). *)
Definition acquirable (w : World) (tid : string) : Prop :=
  match chat_locks w !! tid with
  | None => True
  | Some lk => locks w !! lk = Some false
  end.

(** A turn is under way on thread [tid]: its lock [lk] is held, the flag is
    set and the history is [h]. *)
Definition held (tid : string) (lk : nat) (h : list ChatMessage) (w : World) : Prop :=
  (∃ c, active_chats w !! tid = Some c ∧ history c = h ∧ processing c = true)
  ∧ chat_locks w !! tid = Some lk
  ∧ locks w !! lk = Some true.

(** The flag of the thread is cleared and its lock is free. *)
Definition released (tid : string) (w : World) : Prop :=
  processing_of w tid = Some false ∧ lock_state w tid = Some false.

(** How the [finally] block leaves the world [w1] of a turn under way. *)
Definition ended (tid : string) (h : list ChatMessage) (w1 w' : World) : Prop :=
  history_of w' tid = Some h ∧ released tid w' ∧ chat_history w' = chat_history w1.

(** The history file of a thread. *)
Definition history_file (w : World) (tid : string) : option file :=
  chat_history w !! history_path tid.

(** What [_save_chat_history] writes for a history. *)
Definition saved (h : list ChatMessage) : file := JsonFile (JList (to_dict <$> h)).

(** The two messages of a turn. *)
Definition user_message (message stamp : string) : ChatMessage :=
  mkChatMessage "user" message (Some stamp).
Definition assistant_message (answer stamp : string) : ChatMessage :=
  mkChatMessage "assistant" answer (Some stamp).

(** The process is started again: the registries are empty, the files stay. *)
Definition restart (w : World) : World :=
  mkWorld ∅ ∅ [] (chat_history w) (chroma_db w).

(** The order of two messages by their timestamps; ISO 8601 strings of one
    clock compare as the instants they denote. *)
Definition not_after (m1 m2 : ChatMessage) : Prop :=
  match timestamp m1, timestamp m2 with
  | Some t1, Some t2 => (t1 ≤ t2)%string
  | _, _ => False
  end.

Definition chronological (h : list ChatMessage) : Prop :=
  StronglySorted not_after h.

(** The chunks still to come from a place in the loop. *)
Definition pending (k : Presenter.cursor) : list string :=
  match k with
  | Presenter.AtWord n i word rest =>
      (if (i <? n - 1)%nat && PyStr.endswith_any word ["."; "!"; "?"]
       then [Presenter.newline] else [])
        ++ Presenter.stream_from n (S i) rest
  | Presenter.AtBreak n i word rest
  | Presenter.AtSleep n i word rest => Presenter.stream_from n (S i) rest
  end.

Definition emitted (s : Presenter.emit) : list string :=
  match s with
  | Presenter.Chunk chunk k => chunk :: pending k
  | Presenter.Wait k => pending k
  | Presenter.Done => []
  end.

(** ** How long a turn takes

    The resumptions still needed from a place in the loop, and an upper bound
    for a turn whose second resumption is given [e]. *)
Definition steps_left (k : Presenter.cursor) : nat :=
  match k with
  | Presenter.AtWord _ _ _ rest => 3 * length rest + 3
  | Presenter.AtBreak _ _ _ rest => 3 * length rest + 2
  | Presenter.AtSleep _ _ _ rest => 3 * length rest + 1
  end.

Definition answer_of (e : env) : option string :=
  match executor e with
  | Ok response => response !! "answer"
  | Raise _ => None
  end.

Definition turn_steps (e : env) : nat :=
  3 * length (PyStr.split (default "" (answer_of e))) + 2.

(** ** What a stretch of code can touch

    [frame t l w w']: from [w] to [w'] only thread [t] (its entry in
    [active_chats], its binding in [chat_locks], its history file), the lock
    [l] and locks made since were changed (the indexes are not counted);
    nothing registered was dropped, no lock was rebound, and a new binding
    is to a new lock. *)
Record frame (t : string) (l : nat) (w w' : World) : Prop := mkFrame {
  frame_chats : ∀ t', t' ≠ t → active_chats w' !! t' = active_chats w !! t';
  frame_bindings : ∀ t', t' ≠ t → chat_locks w' !! t' = chat_locks w !! t';
  frame_locks :
    ∀ l', l' ≠ l → l' < length (locks w) → locks w' !! l' = locks w !! l';
  frame_files :
    ∀ t', t' ≠ t →
      chat_history w' !! history_path t' = chat_history w !! history_path t';
  frame_more_locks : length (locks w) ≤ length (locks w');
  frame_bound :
    ∀ t' l', chat_locks w !! t' = Some l' → chat_locks w' !! t' = Some l';
  frame_new_bound :
    ∀ t' l', chat_locks w' !! t' = Some l' →
             chat_locks w !! t' = Some l' ∨ length (locks w) ≤ l';
  frame_valid :
    (∀ t' l', chat_locks w !! t' = Some l' → l' < length (locks w)) →
    (∀ t' l', chat_locks w' !! t' = Some l' → l' < length (locks w'));
  frame_registered :
    ∀ t', is_Some (active_chats w !! t') → is_Some (active_chats w' !! t')
}.

Definition frames {A} (t : string) (l : nat) (m : M A) : Prop :=
  ∀ w, frame t l w (m w).2.

(** The thread a generator is called for and the lock in use for it: the lock
    the generator holds, or else the lock bound to the thread, or else the
    lock the call will make. *)
Definition lock_in_use (g : gen) (w : World) : option (string * nat) :=
  match g with
  | Created t _ => Some (t, default (length (locks w)) (chat_locks w !! t))
  | _ => owner g
  end.

(** ** The program as a whole

    The world together with the [send_message] generators that are alive.
    A step calls [send_message] (which only makes a generator), resumes one
    generator, or runs [create_chat] with an identifier not yet in use, as
    [uuid.uuid4()] provides. *)
Record system := mkSystem {
  world : World;
  pool : list gen
}.

Inductive step : system → system → Prop :=
| step_call w gs tid message :
    step (mkSystem w gs) (mkSystem w (gs ++ [Created tid message]))
| step_resume w gs i g e :
    gs !! i = Some g →
    step (mkSystem w gs)
         (mkSystem (resume e g w).2 (<[i := (resume e g w).1.1]> gs))
| step_create_chat w gs ce uuid4 asset :
    chat_locks w !! uuid4 = None →
    step (mkSystem w gs) (mkSystem (create_chat ce uuid4 asset w).2 gs).

(** Every thread has its own lock, and the lock exists. *)
Definition bound_ok (w : World) : Prop :=
  (∀ t1 t2 l, chat_locks w !! t1 = Some l → chat_locks w !! t2 = Some l → t1 = t2)
  ∧ (∀ t l, chat_locks w !! t = Some l → l < length (locks w)).

(** A generator past the acquisition really holds the lock of its thread,
    with the flag set; no two generators are at work on one thread. *)
Definition consistent (s : system) : Prop :=
  bound_ok (world s)
  ∧ (∀ i g t l, pool s !! i = Some g → owner g = Some (t, l) →
                ∃ h, held t l h (world s))
  ∧ (∀ i j gi gj t li lj,
       pool s !! i = Some gi → pool s !! j = Some gj →
       owner gi = Some (t, li) → owner gj = Some (t, lj) → i = j).

(** ** Further notions about the service *)

(** Histories only grow: the history of a thread in [w] is an initial part of
    its history in [w']. *)
Definition grows (w w' : World) : Prop :=
  ∀ t h, history_of w t = Some h → ∃ h', history_of w' t = Some (h ++ h').

Definition growing {A} (m : M A) : Prop := ∀ w, grows w (m w).2.

(** The thread a generator was called for, where its state still tells. *)
Definition called_for (g : gen) : option string :=
  match g with
  | Created t _ | AwaitExecutor t _ _ | Streaming t _ _ => Some t
  | YieldBusy | Closed => None
  end.

(** The answer the executor gave to the second resumption of a trace, and the
    empty string when there was none. *)
Definition answer_in (tr : list (env * output)) : string :=
  default "" (eo ← tr !! 1; answer_of eo.1).

(** A generator of the pool is at work on thread [t]: it is past the
    acquisition of the lock and has not yet run its [finally] block. *)
Definition at_work (s : system) (t : string) : Prop :=
  ∃ i g l, pool s !! i = Some g ∧ owner g = Some (t, l).

(** A flag that is set and a lock that is taken belong to a generator at
    work. *)
Definition orderly (s : system) : Prop :=
  ∀ t, processing_of (world s) t = Some true ∨ lock_state (world s) t = Some true →
       at_work s t.

(** The program as it starts: [ChatService.__init__] has made the two
    dictionaries, no generator is alive; the files are those of [w]. *)
Definition started (w : World) : system := mkSystem (restart w) [].

(** * The document processor (backend/document_processor.py)

    [os.path] is the POSIX one: the separator is "/". *)
Module Path.

(** [s.startswith(prefix)] *)
Definition startswith (s prefix : string) : bool := String.prefix prefix s.

(** [p[i:j]] for [0 <= i <= j]. *)
Definition slice (p : string) (i j : nat) : string := String.substring i (j - i) p.

(** [p.rfind(c)] for a character [c]: the last position of [c], or -1. *)
Fixpoint rfind_from (c : ascii) (p : string) (i : Z) (found : Z) : Z :=
  match p with
  | "" => found
  | String c' p' =>
      rfind_from c p' (i + 1)%Z (if Ascii.eqb c' c then i else found)
  end.

Definition rfind (c : ascii) (p : string) : Z := rfind_from c p 0%Z (-1)%Z.

(** [os.path.isabs] *)
Definition isabs (s : string) : bool := startswith s "/".

(** [os.path.join(a, b)] *)
Definition join (a b : string) : string :=
  if startswith b "/" then b
  else if bool_decide (a = "") || PyStr.endswith a "/" then a +:+ b
  else a +:+ "/" +:+ b.

(** The loop of [splitext] that skips the leading dots of the file name:
    true when a character other than the dot stands at one of the [count]
    positions from [filenameIndex] on. *)
Fixpoint has_stem (p : string) (filenameIndex count : nat) : bool :=
  match count with
  | 0 => false
  | S count' =>
      if bool_decide (String.get filenameIndex p ≠ Some "."%char) then true
      else has_stem p (S filenameIndex) count'
  end.

(** [os.path.splitext]: the extension starts at the last dot of the last
    component, unless only dots come before it there. *)
Definition splitext (p : string) : string * string :=
  let sepIndex := rfind "/" p in
  let dotIndex := rfind "." p in
  if (sepIndex <? dotIndex)%Z
     && has_stem p (Z.to_nat (sepIndex + 1)) (Z.to_nat (dotIndex - (sepIndex + 1)))
  then (slice p 0 (Z.to_nat dotIndex),
        slice p (Z.to_nat dotIndex) (String.length p))
  else (p, "").

End Path.

Module DocumentProcessor.

(** [str.lower] on one character (code points below 256): the letters A to Z
    and the capital letters of Latin-1. *)
Definition lower_char (c : ascii) : ascii :=
  let n := nat_of_ascii c in
  if ((65 <=? n) && (n <=? 90)
      || (192 <=? n) && (n <=? 222) && negb (n =? 215))%nat
  then ascii_of_nat (n + 32) else c.

Fixpoint lower (s : string) : string :=
  match s with
  | "" => ""
  | String c s' => String (lower_char c) (lower s')
  end.

Inductive loader := TextLoader | PyPDFLoader | Docx2txtLoader.

(** [self.supported_extensions] *)
Definition supported_extensions : gmap string loader :=
  {[ ".txt" := TextLoader; ".pdf" := PyPDFLoader;
     ".doc" := Docx2txtLoader; ".docx" := Docx2txtLoader ]}.

(** What the surroundings supply to a call of [process_document]. *)
Record surroundings := mkSurroundings {
  path_exists : string → bool;
    (* os.path.exists *)
  getcwd : string;
    (* os.getcwd() *)
  uuid4 : string;
    (* str(uuid.uuid4()) *)
  load : loader → string → result (list string);
    (* loader_class(file_path).load() and split_documents: the text chunks
       of the file, or the exception of either *)
  store : option (exn * nat);
    (* the exception of Chroma.from_documents or of persist(), if any, and
       how many of the chunks were in the index by then *)
  awaited : arrival
    (* what arrives at the await of the executor *)
}.

(** How a call ends when it does not return. *)
Inductive error :=
| FileNotFoundError (file_path : string) (possible_paths : list string)
| UnboundLocalError (name : string)
| UnsupportedFileType (ext : string)     (* the [ValueError] of line 70 *)
| Failed (x : exn).                      (* raised by a loader, the splitter
                                            or the index, and raised again *)

Inductive answer (A : Type) :=
| Done (a : A)
| Fails (e : error).
Arguments Done {A} a.
Arguments Fails {A} e.

(** The list [possible_paths]. *)
Definition candidates (s : surroundings) (file_path : string) : list string :=
  [file_path;
   Path.join "." file_path;
   Path.join ".." file_path;
   Path.join (getcwd s) file_path].

(** The loop over [possible_paths]: [file_path] becomes the first path that
    exists and stays as it is when none does. *)
Fixpoint first_existing (s : surroundings) (possible_paths : list string)
    (file_path : string) : string :=
  match possible_paths with
  | [] => file_path
  | path :: rest =>
      if path_exists s path then path else first_existing s rest file_path
  end.

(** [os.makedirs(persist_dir, exist_ok=True)]: a directory that holds nothing
    is an index without chunks. *)
Definition makedirs (persist_dir : string) (w : World) : World :=
  match chroma_db w !! persist_dir with
  | None => set_chroma_db <[persist_dir := Collection []]> w
  | Some _ => w
  end.

(** The local function [load_and_process] of [_process_document_async], the
    worker. [Chroma.from_documents] adds the chunks to the collection of the
    directory; when it or [persist()] raises, some of the chunks may be in
    the index already. The exception is printed and raised again. *)
Definition load_and_process (s : surroundings) (loader_class : loader)
    (file_path asset_id : string) (w : World) : answer nat * World :=
  match load s loader_class file_path with
  | Raise x => (Fails (Failed x), w)
  | Ok text_chunks =>
      let persist_dir := "./chroma_db/" +:+ asset_id in
      let w1 := makedirs persist_dir w in
      match chroma_db w1 !! persist_dir with
      | Some (Collection chunks) =>
          match store s with
          | Some (x, added) =>
              (Fails (Failed x),
               set_chroma_db
                 <[persist_dir := Collection (chunks ++ take added text_chunks)]>
                 w1)
          | None =>
              (Done (length text_chunks),
               set_chroma_db
                 <[persist_dir := Collection (chunks ++ text_chunks)]> w1)
          end
      | _ => (Fails (Failed (External "chromadb")), w1)
      end
  end.

(** [_process_document_async]: the worker is run in the executor and
    awaited. *)
Definition _process_document_async (s : surroundings)
    (file_path ext asset_id : string) (w : World) : answer nat * World :=
  match supported_extensions !! ext with
  | None => (Fails (Failed (KeyError ext)), w)
  | Some loader_class =>
      match awaited s with
      | Delivered => load_and_process s loader_class file_path asset_id w
      | Interrupted x true =>
          (Fails (Failed x),
           (load_and_process s loader_class file_path asset_id w).2)
      | Interrupted x false => (Fails (Failed x), w)
      end
  end.

(** [process_document]. The name [possible_paths] is bound only when the
    path is not absolute. *)
Definition process_document (s : surroundings) (file_path : string) (w : World)
  : answer string * World :=
  let possible_paths :=
    if Path.isabs file_path then None else Some (candidates s file_path) in
  let file_path :=
    match possible_paths with
    | None => file_path
    | Some paths => first_existing s paths file_path
    end in
  if negb (path_exists s file_path) then
    match possible_paths with
    | None => (Fails (UnboundLocalError "possible_paths"), w)
    | Some paths => (Fails (FileNotFoundError file_path paths), w)
    end
  else
    let ext := (Path.splitext file_path).2 in
    match supported_extensions !! lower ext with
    | None => (Fails (UnsupportedFileType ext), w)
    | Some _ =>
        let asset_id := uuid4 s in
        match _process_document_async s file_path (lower ext) asset_id w with
        | (Fails e, w') => (Fails e, w')
        | (Done _, w') => (Done asset_id, w')
        end
    end.

(** The chunks the index of a directory holds; none when there is no
    index. *)
Definition indexed (w : World) (persist_dir : string) : list string :=
  match chroma_db w !! persist_dir with
  | Some (Collection chunks) => chunks
  | _ => []
  end.

(** The path [process_document] works on. *)
Definition resolved (s : surroundings) (file_path : string) : string :=
  if Path.isabs file_path then file_path
  else first_existing s (candidates s file_path) file_path.

End DocumentProcessor.

(** * The event stream (backend/main.py) and its reader (frontend/app.py)

    The response of POST /api/chat/message is read as text: UTF-8 keeps the
    line feeds and carriage returns of a text and adds none, so the lines of
    the bytes are the lines of the text. *)
Module Stream.

Definition LF : ascii := "010"%char.
Definition CR : ascii := "013"%char.

(** main.py, [generate_response]: what is yielded for one token of
    [chat_service.send_message], the token after "data: " and two line
    feeds after it. *)
Definition event (token : string) : string :=
  "data: " +:+ token +:+ String LF (String LF "").

(** The loop of [generate_response] over the tokens of a stream. *)
Definition generate_response (tokens : list string) : list string :=
  event <$> tokens.

(** The body of the response: what was yielded, in order. *)
Definition body (events : list string) : string := PyStr.concat events.

(** [bytes.splitlines()]: the lines end at a line feed, at a carriage return
    or at a carriage return with a line feed; [line] is the line being
    scanned. *)
Fixpoint splitlines_go (line : string) (s : string) : list string :=
  match s with
  | "" => if bool_decide (line = "") then [] else [line]
  | String c s' =>
      if Ascii.eqb c LF then line :: splitlines_go "" s'
      else if Ascii.eqb c CR then
        match s' with
        | String c' s'' =>
            if Ascii.eqb c' LF then line :: splitlines_go "" s''
            else line :: splitlines_go "" s'
        | "" => [line]
        end
      else splitlines_go (line +:+ String c "") s'
  end.

Definition splitlines (s : string) : list string := splitlines_go "" s.

(** [response.iter_lines()]: the lines of the body. *)
Definition iter_lines (body : string) : list string := splitlines body.

(** frontend/app.py, the body of the loop over the lines: empty lines and
    lines that do not start with "data: " are skipped; of the others the text
    from position 6 on is added, with a space. *)
Definition read_line (response_text line : string) : string :=
  if bool_decide (line = "") then response_text
  else if Path.startswith line "data: "
       then response_text +:+ Path.slice line 6 (String.length line) +:+ " "
       else response_text.

Definition read (lines : list string) : string := foldl read_line "" lines.

(** [str.lstrip()], [str.rstrip()] and [str.strip()] *)
Fixpoint lstrip (s : string) : string :=
  match s with
  | "" => ""
  | String c s' => if PyStr.isspace c then lstrip s' else s
  end.

Fixpoint rstrip (s : string) : string :=
  match s with
  | "" => ""
  | String c s' =>
      let r := rstrip s' in
      if bool_decide (r = "") && PyStr.isspace c then "" else String c r
  end.

Definition strip (s : string) : string := rstrip (lstrip s).

(** The content of the assistant message the frontend keeps for a stream of
    tokens: [response_text.strip()]. *)
Definition content (tokens : list string) : string :=
  strip (read (iter_lines (body (generate_response tokens)))).

(** The string holds a line feed or a carriage return. *)
Fixpoint has_break (s : string) : bool :=
  match s with
  | "" => false
  | String c s' => Ascii.eqb c LF || Ascii.eqb c CR || has_break s'
  end.

(** What the reader adds for a token: the token and a space, but only the
    space for a token that holds a line break. *)
Definition gap (token : string) : string :=
  (if has_break token then "" else token) +:+ " ".

End Stream.

(** ** A small scenario for the examples *)
Module Scenario.

(** Nothing is registered; asset [a1] has been indexed. *)
Definition fresh : World :=
  mkWorld ∅ ∅ [] ∅ {[ "./chroma_db/a1" := Collection ["chunk"] ]}.

(** The surroundings of a call of [create_chat] in which nothing fails. *)
Definition quiet : create_env := mkCreateEnv Delivered None.

(** One thread, [t1], talks about asset [a1]. *)
Definition idle : World := (create_chat quiet "t1" "a1" fresh).2.

(** The surroundings of a resumption at time [stamp]: nothing is thrown,
    the executor returns [answer], the write works. *)
Definition calm (stamp answer : string) : env :=
  mkEnv None stamp (Ok {[ "answer" := answer ]}) id None.

(** The same, but the executor raises. *)
Definition adapter_down (stamp : string) : env :=
  mkEnv None stamp (Raise (External "openai")) id None.

(** The same as [calm], but the history file cannot be opened. *)
Definition disk_full (stamp answer : string) : env :=
  mkEnv None stamp (Ok {[ "answer" := answer ]}) id
        (Some (OpenFails (External "OSError"))).

(** The world, the trace and the final world of a scripted run of
    [send_message "t1" message] from [idle]. *)
Definition turn (script : list env) (message : string)
  : option (list (env * output) * World) :=
  exec script (Created "t1" message) idle.

Definition trace (script : list env) (message : string) : list (env * output) :=
  match turn script message with Some (tr, _) => tr | None => [] end.

Definition final (script : list env) (message : string) : World :=
  match turn script message with Some (_, wf) => wf | None => idle end.

(** A turn has started on [t1] and waits for the executor. *)
Definition running : World :=
  (resume (calm "2024-05-01T10:00:00" "") (Created "t1" "first") idle).2.

(** The program after [create_chat] for asset [a1] has made [t1],
    [send_message] has been called for [t1] and the generator has been
    resumed once: it waits for the executor. *)
Definition first_await : system :=
  mkSystem running
    (<[0 := (resume (calm "2024-05-01T10:00:00" "") (Created "t1" "first")
                    idle).1.1]> ([] ++ [Created "t1" "first"])).

(** The surroundings of a call of [process_document]: one file is on the
    disk, under ./uploads; its loader gives two chunks and the index takes
    them. *)
Definition disk : DocumentProcessor.surroundings :=
  DocumentProcessor.mkSurroundings
    (λ path, bool_decide (path = "./uploads/Report.PDF"))
    "/srv/app" "a2" (λ _ _, Ok ["one"; "two"]) None Delivered.

(** The same, but [persist()] fails when both chunks are in the index. *)
Definition index_down : DocumentProcessor.surroundings :=
  DocumentProcessor.mkSurroundings
    (λ path, bool_decide (path = "./uploads/Report.PDF"))
    "/srv/app" "a2" (λ _ _, Ok ["one"; "two"])
    (Some (External "chromadb", 2)) Delivered.

End Scenario.

(** * Properties *)

(** ** Strings *)
Section PyStrFacts.
Import PyStr.

Lemma string_app_cons (c : ascii) (s1 s2 : string) :
  String c s1 +:+ s2 = String c (s1 +:+ s2).
Proof. reflexivity. Qed.

Lemma string_app_nil (s : string) : "" +:+ s = s.
Proof. reflexivity. Qed.

Lemma string_app_empty_r (s : string) : s +:+ "" = s.
Proof.
  induction s as [|c s IH]; [done|]. by rewrite string_app_cons, IH.
Qed.

Lemma string_app_assoc (s1 s2 s3 : string) : (s1 +:+ s2) +:+ s3 = s1 +:+ s2 +:+ s3.
Proof.
  induction s1 as [|c s1 IH]; [done|]. by rewrite !string_app_cons, IH.
Qed.

Lemma string_app_snoc (s1 s2 : string) (c : ascii) :
  (s1 +:+ String c "") +:+ s2 = s1 +:+ String c s2.
Proof. by rewrite string_app_assoc. Qed.

Lemma string_length_app (s1 s2 : string) :
  String.length (s1 +:+ s2) = String.length s1 + String.length s2.
Proof.
  induction s1 as [|c s1 IH]; [done|]. rewrite string_app_cons. simpl. by rewrite IH.
Qed.

Lemma string_app_inj_r (s1 s2 t : string) : s1 +:+ t = s2 +:+ t → s1 = s2.
Proof.
  revert s2. induction s1 as [|c s1 IH]; intros [|c2 s2] H.
  - done.
  - apply (f_equal String.length) in H. rewrite !string_length_app in H. simpl in H. lia.
  - apply (f_equal String.length) in H. rewrite !string_length_app in H. simpl in H. lia.
  - rewrite !string_app_cons in H. injection H as -> H. f_equal. by apply IH.
Qed.

Lemma has_space_app (s1 s2 : string) :
  has_space (s1 +:+ s2) = has_space s1 || has_space s2.
Proof.
  induction s1 as [|c s1 IH]; [done|].
  rewrite string_app_cons. simpl. by rewrite IH, orb_assoc.
Qed.

Lemma flush_token (word : string) :
  has_space word = false → Forall token (flush word).
Proof.
  intros H. unfold flush. case_decide; [constructor|].
  by repeat constructor.
Qed.

(** What [split] returns are tokens. *)
Lemma split_go_tokens (s word : string) :
  has_space word = false → Forall token (split_go word s).
Proof.
  revert word. induction s as [|c s IH]; intros word Hw; simpl.
  - by apply flush_token.
  - destruct (isspace c) eqn:Hc.
    + apply Forall_app. split; [by apply flush_token|by apply IH].
    + apply IH. rewrite has_space_app. simpl. by rewrite Hw, Hc.
Qed.

Lemma split_tokens (s : string) : Forall token (split s).
Proof. by apply split_go_tokens. Qed.

(** Scanning a run free of whitespace that a separator follows. *)
Lemma split_go_word (t rest word : string) (c : ascii) :
  has_space t = false → isspace c = true →
  split_go word (t +:+ String c rest) = flush (word +:+ t) ++ split_go "" rest.
Proof.
  revert word. induction t as [|a t IH]; intros word Ht Hc.
  - rewrite string_app_nil, string_app_empty_r. simpl. by rewrite Hc.
  - simpl in Ht. apply orb_false_elim in Ht as [Ha Ht].
    rewrite string_app_cons. simpl. rewrite Ha.
    rewrite IH by done. by rewrite string_app_snoc.
Qed.

Lemma split_space (c : ascii) (rest : string) :
  isspace c = true → split (String c rest) = split rest.
Proof. intros Hc. unfold split. simpl. by rewrite Hc. Qed.

Lemma split_token_space (t rest : string) :
  token t → split (t +:+ " " +:+ rest) = t :: split rest.
Proof.
  intros [Hne Ht]. unfold split.
  change (" " +:+ rest) with (String " "%char rest).
  rewrite (split_go_word t rest "" " "%char) by done.
  simpl. unfold flush. by case_decide.
Qed.

(** [endswith] with a suffix of one character looks at the last character. *)
Lemma substring_last (s : string) :
  String.substring (String.length s - 1) 1 s
  = match last_char s with Some c => String c "" | None => "" end.
Proof.
  induction s as [|a s IH]; [done|].
  destruct s as [|b s]; [done|].
  replace (String.length (String a (String b s)) - 1)
    with (S (String.length (String b s) - 1)) by (simpl; lia).
  change (String.substring (S ?n) 1 (String a ?t)) with (String.substring n 1 t).
  by rewrite IH.
Qed.

Lemma endswith_char (s : string) (c : ascii) :
  endswith s (String c "") = bool_decide (last_char s = Some c).
Proof.
  unfold endswith. change (String.length (String c "")) with 1.
  rewrite substring_last.
  destruct s as [|a s]; [done|].
  assert (∃ d, last_char (String a s) = Some d) as [d Hd].
  { clear. revert a. induction s as [|b s IH]; intros a; [by eexists|].
    destruct (IH b) as [d Hd]. exists d. by rewrite <- Hd. }
  rewrite Hd. simpl.
  destruct (Ascii.eqb_spec d c) as [->|Hne].
  - by rewrite bool_decide_eq_true_2.
  - rewrite bool_decide_eq_false_2; [done|]. by intros [= ->].
Qed.

End PyStrFacts.

(** ** The streaming loop *)
Section PresenterFacts.
Import PyStr Presenter.

Lemma ends_sentence_endswith (word : string) :
  endswith_any word ["."; "!"; "?"] = ends_sentence word.
Proof.
  unfold endswith_any, ends_sentence. simpl.
  rewrite !endswith_char, orb_false_r.
  destruct (last_char word) as [c|]; [|done].
  destruct (bool_decide (c ∈ ["."; "!"; "?"]%char)) eqn:Hin.
  - apply bool_decide_eq_true in Hin.
    rewrite !elem_of_cons in Hin.
    destruct Hin as [->|[->|[->|Hin]]]; [done..|by apply elem_of_nil in Hin].
  - apply bool_decide_eq_false in Hin.
    rewrite !elem_of_cons in Hin.
    rewrite !bool_decide_eq_false_2; [done|intros [= ->]; naive_solver..].
Qed.

(** The loop, which tells the final word by its index, hands out what the
    specification describes. *)
Lemma stream_from_spec (words : list string) (n i : nat) :
  n = i + length words → stream_from n i words = spec_chunks words.
Proof.
  revert i. induction words as [|word rest IH]; intros i Hn; [done|].
  cbn [stream_from]. unfold chunks_at.
  rewrite (IH (S i)) by (simpl in Hn; lia).
  destruct rest as [|word' rest].
  - simpl in Hn.
    replace (i <? n - 1)%nat with false
      by (symmetry; apply Nat.ltb_ge; lia).
    done.
  - simpl in Hn.
    replace (i <? n - 1)%nat with true
      by (symmetry; apply Nat.ltb_lt; lia).
    rewrite ends_sentence_endswith. simpl.
    by destruct (ends_sentence word).
Qed.

Lemma drain_Chunk (fuel : nat) (chunk : string) (k : cursor) :
  drain (S fuel) (Chunk chunk k) = (chunk ::.) <$> drain fuel (advance k).
Proof. reflexivity. Qed.

Lemma drain_Wait (fuel : nat) (k : cursor) :
  drain (S fuel) (Wait k) = drain fuel (advance k).
Proof. reflexivity. Qed.

(** Three resumptions for each word are enough to reach the end of the
    loop. *)
Lemma drain_enter (words : list string) (n i fuel : nat) :
  3 * length words ≤ fuel →
  drain fuel (enter n i words) = Some (stream_from n i words).
Proof.
  revert i fuel. induction words as [|word rest IH]; intros i fuel Hfuel.
  - by destruct fuel.
  - simpl in Hfuel.
    destruct fuel as [|[|[|fuel]]]; [lia..|].
    cbn [stream_from enter]. unfold chunks_at.
    rewrite drain_Chunk. cbn [advance].
    destruct ((i <? n - 1)%nat && endswith_any word ["."; "!"; "?"]).
    + rewrite drain_Chunk. cbn [advance]. rewrite drain_Wait. cbn [advance].
      by rewrite (IH (S i) fuel) by lia.
    + rewrite drain_Wait. cbn [advance].
      by rewrite (IH (S i) (S fuel)) by lia.
Qed.

Lemma concat_cons (chunk : string) (chunks : list string) :
  concat (chunk :: chunks) = chunk +:+ concat chunks.
Proof. reflexivity. Qed.

(** Splitting the concatenated chunks gives the words back. *)
Lemma split_concat_spec_chunks (words : list string) :
  Forall token words → split (concat (spec_chunks words)) = words.
Proof.
  induction 1 as [|word rest Hword _ IH]; [done|].
  assert (split (concat ((word +:+ " ") :: spec_chunks rest)) = word :: rest)
    as Hplain.
  { rewrite concat_cons, string_app_assoc, split_token_space by done.
    by rewrite IH. }
  destruct rest as [|word' rest].
  - simpl spec_chunks. rewrite concat_cons, string_app_assoc.
    by rewrite split_token_space.
  - change (spec_chunks (word :: word' :: rest))
      with ((word +:+ " ")
              :: (if ends_sentence word then [newline] else [])
              ++ spec_chunks (word' :: rest)).
    destruct (ends_sentence word); [|exact Hplain].
    rewrite concat_cons, string_app_assoc, split_token_space by done.
    f_equal. simpl app. rewrite concat_cons.
    change (newline +:+ ?s) with (String "010"%char s).
    by rewrite split_space.
Qed.

(** *** Tokens, as the specification words them *)

Lemma split_go_plain (word t : string) :
  has_space t = false → split_go word t = flush (word +:+ t).
Proof.
  revert word. induction t as [|a t IH]; intros word Ht.
  - by rewrite string_app_empty_r.
  - simpl in Ht. apply orb_false_elim in Ht as [Ha Ht].
    simpl. rewrite Ha, IH by done. by rewrite string_app_snoc.
Qed.

Lemma split_go_blank (word blank : string) :
  all_space blank = true → split_go word blank = flush word.
Proof.
  revert word. induction blank as [|c blank IH]; intros word; [done|].
  simpl. intros [Hc Hs]%andb_true_iff. rewrite Hc, (IH "" Hs).
  apply app_nil_r.
Qed.

(** The tokens of an answer are what [split] finds. *)
Lemma tokens_of_split (answer : string) (tokens : list string) :
  tokens_of answer tokens → split answer = tokens.
Proof.
  induction 1 as [blank Hblank|c answer tokens Hc _ IH|t [Hne Ht]
                 |t c answer tokens [Hne Ht] Hc _ IH].
  - unfold split. by rewrite split_go_blank.
  - by rewrite split_space.
  - unfold split. rewrite split_go_plain, string_app_nil by done.
    unfold flush. by case_decide.
  - unfold split. rewrite split_go_word, string_app_nil by done.
    unfold flush. case_decide; [done|]. simpl. f_equal. exact IH.
Qed.

Lemma tokens_of_tokens (answer : string) (tokens : list string) :
  tokens_of answer tokens → Forall token tokens.
Proof.
  induction 1 as [blank _|c answer tokens _ _ IH|t Ht|t c answer tokens Ht _ _ IH].
  - constructor.
  - exact IH.
  - constructor; [done|constructor].
  - by constructor.
Qed.

(** Every answer has tokens. *)
Lemma tokens_of_go (word answer : string) :
  has_space word = false → tokens_of (word +:+ answer) (split_go word answer).
Proof.
  revert word. induction answer as [|c answer IH]; intros word Hword.
  - rewrite string_app_empty_r. simpl. unfold flush. case_decide as Hw.
    + subst word. by apply tokens_blank.
    + by apply tokens_last.
  - simpl. destruct (isspace c) eqn:Hc.
    + unfold flush. case_decide as Hw.
      * subst word. rewrite string_app_nil. simpl.
        apply tokens_space; [done|]. apply (IH ""). done.
      * simpl. apply tokens_more; [done..|]. apply (IH ""). done.
    + rewrite <- string_app_snoc. apply IH.
      rewrite has_space_app, Hword. simpl. by rewrite Hc.
Qed.

Lemma tokens_of_total (answer : string) : tokens_of answer (split answer).
Proof. apply (tokens_of_go "" answer). done. Qed.

(** The concatenated chunks have the tokens they were made of. *)
Lemma tokens_of_spec_chunks (tokens : list string) :
  Forall token tokens → tokens_of (concat (spec_chunks tokens)) tokens.
Proof.
  induction 1 as [|t rest Ht _ IH]; [by apply tokens_blank|].
  destruct rest as [|t' rest].
  - simpl spec_chunks. rewrite concat_cons, string_app_assoc.
    change (" " +:+ concat []) with (String " "%char "").
    apply tokens_more; [done..|]. by apply tokens_blank.
  - change (spec_chunks (t :: t' :: rest))
      with ((t +:+ " ")
              :: (if ends_sentence t then [newline] else [])
              ++ spec_chunks (t' :: rest)).
    rewrite concat_cons, string_app_assoc.
    change (" " +:+ ?s) with (String " "%char s).
    apply tokens_more; [done..|].
    destruct (ends_sentence t); [|exact IH].
    simpl app. rewrite concat_cons.
    change (newline +:+ ?s) with (String "010"%char s).
    by apply tokens_space.
Qed.

End PresenterFacts.

(** ** The turn *)
Section TurnFacts.
Import PyStr Presenter.

Implicit Types (w : World) (tid message : string) (lk : nat)
  (h : list ChatMessage) (e : env) (g : gen) (tr : list (env * output)).

Ltac unfold_M :=
  unfold finally_block, set_processing, history_append, _save_chat_history,
    the_chat, release, try_acquire, new_lock, get_lock, locked,
    bind, ret, raise, modify, lift, deliver in *.

Lemma history_path_inj tid1 tid2 :
  history_path tid1 = history_path tid2 → tid1 = tid2.
Proof.
  unfold history_path. intros H.
  apply (inj (String.app "./chat_history/")) in H.
  by apply string_app_inj_r in H.
Qed.

Lemma held_stable tid lk h w w' :
  held tid lk h w → stable tid lk w w' → held tid lk h w'.
Proof.
  intros [(c & Hc & Hh & Hp) [Hlk Hl]] (Hchat & Hlocks & Hlock & _).
  destruct (Hchat c Hc) as (c' & Hc' & _ & Hh' & Hp').
  split; [|split]; [|congruence..].
  exists c'. repeat split; congruence.
Qed.

(** The [finally] block of a turn under way clears the flag and frees the
    lock, and touches nothing else of the thread. *)
Lemma finally_held tid lk h w :
  held tid lk h w →
  ∃ w', finally_block tid lk w = (Ok tt, w')
        ∧ history_of w' tid = Some h
        ∧ released tid w'
        ∧ chat_history w' = chat_history w.
Proof.
  intros [(c & Hc & Hh & Hp) [Hlk Hl]].
  unfold_M. rewrite Hc. simpl. rewrite Hl. simpl.
  eexists. split; [done|].
  unfold history_of, released, processing_of, lock_state. simpl.
  rewrite lookup_insert_eq, Hlk. simpl.
  rewrite list_lookup_insert_eq by (by eapply lookup_lt_Some).
  by rewrite Hh.
Qed.

(** From the call to the wait for the executor. *)
Lemma begin_acquires e tid message w c :
  active_chats w !! tid = Some c →
  acquirable w tid →
  ∃ lk w1,
    begin e tid message w = (AwaitExecutor tid message lk, Suspend, w1)
    ∧ held tid lk (history c ++ [user_message message (now e)]) w1
    ∧ chat_history w1 = chat_history w.
Proof.
  intros Hc Hfree. unfold begin, acquirable in *. rewrite Hc.
  unfold in_try. unfold_M.
  destruct (chat_locks w !! tid) as [lk|] eqn:Hlk.
  - rewrite Hfree. simpl. rewrite Hc. simpl. rewrite lookup_insert_eq. simpl.
    eexists _, _. split; [done|]. split; [|done].
    split; [|split]; simpl.
    + eexists. rewrite lookup_insert_eq. done.
    + done.
    + apply list_lookup_insert_eq. by eapply lookup_lt_Some.
  - simpl. rewrite lookup_app_r, Nat.sub_diag by done. simpl.
    rewrite Hc. simpl. rewrite lookup_insert_eq. simpl.
    eexists _, _. split; [done|]. split; [|done].
    split; [|split]; simpl.
    + eexists. rewrite lookup_insert_eq. done.
    + by rewrite lookup_insert_eq.
    + rewrite list_lookup_insert_eq by (rewrite length_app; simpl; lia).
      done.
Qed.

Lemma in_try_ok tid lk h (body : M pause) w w1 p :
  body w = (Ok p, w1) → held tid lk h w1 →
  match p with
  | Yielded chunk g => in_try tid lk body w = (g, Yield chunk, w1)
  | Awaiting g => in_try tid lk body w = (g, Suspend, w1)
  | Completed => ∃ w', in_try tid lk body w = (Closed, Return, w') ∧ ended tid h w1 w'
  end.
Proof.
  intros Hbody Hheld. unfold in_try. rewrite Hbody.
  destruct p; [done..|].
  destruct (finally_held _ _ _ _ Hheld) as (w' & -> & ?). by exists w'.
Qed.

Lemma in_try_raise tid lk h (body : M pause) w w1 x :
  body w = (Raise x, w1) → held tid lk h w1 →
  ∃ w', in_try tid lk body w = (Closed, Raised x, w') ∧ ended tid h w1 w'.
Proof.
  intros Hbody Hheld. unfold in_try. rewrite Hbody.
  destruct (finally_held _ _ _ _ Hheld) as (w' & -> & ?). by exists w'.
Qed.

(** *** The loop *)

Lemma emitted_enter n i (words : list string) :
  emitted (enter n i words) = stream_from n i words.
Proof. destruct words; [done|]. reflexivity. Qed.

Lemma pending_advance (k : cursor) : pending k = emitted (advance k).
Proof.
  destruct k as [n i word rest|n i word rest|n i word rest]; simpl.
  - by destruct ((i <? n - 1)%nat && _).
  - done.
  - by rewrite emitted_enter.
Qed.

Lemma outcome_cons (x : env * output) tr o :
  outcome tr = Some o → outcome (x :: tr) = Some o.
Proof.
  unfold outcome. destruct tr as [|y tr]; [done|].
  by rewrite last_cons_cons.
Qed.

Lemma chunks_of_cons e o tr :
  chunks_of ((e, o) :: tr)
  = match o with Yield chunk => chunk :: chunks_of tr | _ => chunks_of tr end.
Proof. by destruct o. Qed.

Lemma undisturbed_cons e o tr :
  undisturbed ((e, o) :: tr) ↔ thrown e = None ∧ undisturbed tr.
Proof. unfold undisturbed. by rewrite Forall_cons. Qed.

(** A run that starts inside the loop: the generator ends with the flag
    cleared and the lock free, history and history file as they were; read
    to its end, the stream hands out what was pending. *)
Lemma run_streaming tid lk h g w tr wf :
  run g w tr wf →
  ∀ k, g = Streaming tid lk k → held tid lk h w →
  history_of wf tid = Some h
  ∧ released tid wf
  ∧ history_file wf tid = history_file w tid
  ∧ (undisturbed tr → chunks_of tr = pending k ∧ outcome tr = Some Return).
Proof.
  induction 1 as [e g w g' o w' Hres Hterm
                 |e g w g' o w' w'' tr wf Hres Hterm Hrely Hrun IH];
    intros k -> Hheld; simpl in Hres; unfold deliver in Hres.
  - destruct (thrown e) as [x|] eqn:Hx.
    + destruct (in_try_raise tid lk h (raise x) w w x eq_refl Hheld)
        as (w1 & Heq & Hh & Hrel & Hfiles).
      rewrite Heq in Hres. simplify_eq.
      refine (conj Hh (conj Hrel (conj _ _))).
      * unfold history_file. by rewrite Hfiles.
      * intros [? _]%undisturbed_cons. congruence.
    + pose proof (in_try_ok tid lk h (ret (streaming tid lk (advance k)))
                    w w _ eq_refl Hheld) as Hstep.
      rewrite pending_advance.
      destruct (advance k) as [chunk k'|k'|]; simpl in Hstep, Hres.
      * rewrite Hstep in Hres. by simplify_eq.
      * rewrite Hstep in Hres. by simplify_eq.
      * destruct Hstep as (w1 & Heq & Hh & Hrel & Hfiles).
        rewrite Heq in Hres. simplify_eq.
        refine (conj Hh (conj Hrel (conj _ _))); [|done].
        unfold history_file. by rewrite Hfiles.
  - destruct (thrown e) as [x|] eqn:Hx.
    + destruct (in_try_raise tid lk h (raise x) w w x eq_refl Hheld)
        as (w1 & Heq & _).
      rewrite Heq in Hres. by simplify_eq.
    + pose proof (in_try_ok tid lk h (ret (streaming tid lk (advance k)))
                    w w _ eq_refl Hheld) as Hstep.
      rewrite pending_advance.
      destruct (advance k) as [chunk k'|k'|]; simpl in Hstep, Hres.
      * rewrite Hstep in Hres. simplify_eq. simpl in Hrely.
        destruct (IH k' eq_refl (held_stable _ _ _ _ _ Hheld Hrely))
          as (Hh & Hrel & Hfile & Hchunks).
        refine (conj Hh (conj Hrel (conj _ _))).
        -- rewrite Hfile. unfold history_file. by destruct Hrely as (_ & _ & _ & ->).
        -- intros [_ Hq]%undisturbed_cons.
           destruct (Hchunks Hq) as [Hc Ho]. split; [|by apply outcome_cons].
           by rewrite chunks_of_cons, Hc.
      * rewrite Hstep in Hres. simplify_eq. simpl in Hrely.
        destruct (IH k' eq_refl (held_stable _ _ _ _ _ Hheld Hrely))
          as (Hh & Hrel & Hfile & Hchunks).
        refine (conj Hh (conj Hrel (conj _ _))).
        -- rewrite Hfile. unfold history_file. by destruct Hrely as (_ & _ & _ & ->).
        -- intros [_ Hq]%undisturbed_cons.
           destruct (Hchunks Hq) as [Hc Ho]. split; [|by apply outcome_cons].
           by rewrite chunks_of_cons, Hc.
      * destruct Hstep as (w1 & Heq & _).
        rewrite Heq in Hres. by simplify_eq.
Qed.

(** *** From the executor's answer on *)

Lemma after_invoke_cases e tid message lk h w :
  held tid lk h w →
  ∃ w0, held tid lk h w0 ∧ chat_history w0 = chat_history w ∧
    match executor e with
    | Raise x => after_invoke e tid message lk w = (Raise x, w0)
    | Ok response =>
        match response !! "answer" with
        | None => after_invoke e tid message lk w = (Raise (KeyError "answer"), w0)
        | Some a =>
            let h1 := h ++ [assistant_message a (now e)] in
            ∃ w1, held tid lk h1 w1 ∧
              match fault e with
              | Some (OpenFails x) =>
                  after_invoke e tid message lk w = (Raise x, w1)
                  ∧ chat_history w1 = chat_history w
              | Some (DumpFails x) =>
                  after_invoke e tid message lk w = (Raise x, w1)
                  ∧ chat_history w1
                    = <[history_path tid := Corrupt]> (chat_history w)
              | None =>
                  after_invoke e tid message lk w
                  = (Ok (streaming tid lk (present a)), w1)
                  ∧ chat_history w1
                    = <[history_path tid := saved h1]> (chat_history w)
              end
        end
    end.
Proof.
  intros [(c & Hc & Hh & Hp) [Hlk Hl]].
  unfold after_invoke. unfold_M. rewrite Hc. simpl.
  exists (set_active_chats
            <[tid := mkChat (asset_id c) (session e (conversation_chain c))
                            (history c) (processing c)]> w).
  split; [|split; [done|]].
  { split; [|done]. eexists. simpl. rewrite lookup_insert_eq. done. }
  destruct (executor e) as [response|x]; [|done].
  destruct (response !! "answer") as [a|]; [|done].
  simpl. rewrite lookup_insert_eq. simpl. rewrite lookup_insert_eq. simpl.
  assert (∀ files,
    held tid lk (h ++ [assistant_message a (now e)])
      (set_chat_history files
         (set_active_chats
            <[tid := mkChat (asset_id c) (session e (conversation_chain c))
                            (history c ++ [assistant_message a (now e)])
                            (processing c)]>
            (set_active_chats
               <[tid := mkChat (asset_id c) (session e (conversation_chain c))
                               (history c) (processing c)]> w)))) as Hheld.
  { intros files. split; [|done]. eexists. simpl. rewrite lookup_insert_eq.
    split; [done|]. simpl. by rewrite Hh. }
  destruct (fault e) as [[x|x]|]; simpl.
  - eexists. split; [apply (Hheld id)|]. done.
  - eexists. split; [apply Hheld|]. split; [reflexivity|]. done.
  - eexists. split; [apply Hheld|]. split; [reflexivity|].
    simpl. unfold saved. by rewrite Hh.
Qed.

(** The stretch after the wait for the executor ends the generator with an
    exception. *)
Lemma run_executor_raise e o tr tid message lk h1 w w1 wf x :
  run (AwaitExecutor tid message lk) w ((e, o) :: tr) wf →
  deliver e (after_invoke e tid message lk) w = (Raise x, w1) →
  held tid lk h1 w1 →
  o = Raised x ∧ tr = [] ∧ ended tid h1 w1 wf.
Proof.
  intros Hrun Hbody Hheld.
  destruct (in_try_raise _ _ _ _ _ _ _ Hbody Hheld) as (w' & Heq & Hend).
  inversion Hrun as [? ? ? g' ? ? Hres Hterm|? ? ? g' ? w2 w3 ? ? Hres Hterm Hrely Hrun'];
    simplify_eq/=; rewrite Heq in Hres; by simplify_eq/=.
Qed.

(** The stretch after the wait for the executor reaches the loop. *)
Lemma run_executor_ok e o tr tid message lk h1 w w1 wf s :
  run (AwaitExecutor tid message lk) w ((e, o) :: tr) wf →
  deliver e (after_invoke e tid message lk) w = (Ok (streaming tid lk s), w1) →
  held tid lk h1 w1 →
  history_of wf tid = Some h1
  ∧ released tid wf
  ∧ history_file wf tid = history_file w1 tid
  ∧ (undisturbed tr →
     chunks_of ((e, o) :: tr) = emitted s ∧ outcome ((e, o) :: tr) = Some Return)
  ∧ (s = Done → o = Return ∧ tr = []).
Proof.
  intros Hrun Hbody Hheld.
  pose proof (in_try_ok _ _ _ _ _ _ _ Hbody Hheld) as Hstep.
  inversion Hrun as [? ? ? g' ? ? Hres Hterm|? ? ? g' ? w' w'' ? ? Hres Hterm Hrely Hrun'];
    simplify_eq; simpl in Hres.
  - destruct s as [chunk k|k|]; simpl in Hstep.
    + rewrite Hstep in Hres. by simplify_eq.
    + rewrite Hstep in Hres. by simplify_eq.
    + destruct Hstep as (w2 & Heq & Hh & Hrel & Hfiles).
      rewrite Heq in Hres. simplify_eq.
      refine (conj Hh (conj Hrel (conj _ (conj _ _)))); [|done..].
      unfold history_file. by rewrite Hfiles.
  - destruct s as [chunk k|k|]; simpl in Hstep.
    + rewrite Hstep in Hres. simplify_eq. simpl in Hrely.
      destruct (run_streaming tid lk h1 _ _ _ _ Hrun' k eq_refl
                  (held_stable _ _ _ _ _ Hheld Hrely))
        as (Hh & Hrel & Hfile & Hchunks).
      refine (conj Hh (conj Hrel (conj _ (conj _ _)))); [| |done].
      * rewrite Hfile. unfold history_file. by destruct Hrely as (_ & _ & _ & ->).
      * intros Hq. destruct (Hchunks Hq) as [Hc Ho].
        split; [|by apply outcome_cons]. by rewrite chunks_of_cons, Hc.
    + rewrite Hstep in Hres. simplify_eq. simpl in Hrely.
      destruct (run_streaming tid lk h1 _ _ _ _ Hrun' k eq_refl
                  (held_stable _ _ _ _ _ Hheld Hrely))
        as (Hh & Hrel & Hfile & Hchunks).
      refine (conj Hh (conj Hrel (conj _ (conj _ _)))); [| |done].
      * rewrite Hfile. unfold history_file. by destruct Hrely as (_ & _ & _ & ->).
      * intros Hq. destruct (Hchunks Hq) as [Hc Ho].
        split; [|by apply outcome_cons]. by rewrite chunks_of_cons, Hc.
    + destruct Hstep as (w2 & Heq & _).
      rewrite Heq in Hres. by simplify_eq.
Qed.

(** The first stretch of a turn on an idle thread: the lock is taken, the
    flag set and the user message appended; the rest of the run starts at
    the wait for the executor. *)
Lemma run_created e o tr tid message w c wf :
  active_chats w !! tid = Some c →
  acquirable w tid →
  thrown e = None →
  run (Created tid message) w ((e, o) :: tr) wf →
  o = Suspend
  ∧ ∃ lk w1,
      held tid lk (history c ++ [user_message message (now e)]) w1
      ∧ history_file w1 tid = history_file w tid
      ∧ run (AwaitExecutor tid message lk) w1 tr wf.
Proof.
  intros Hc Hfree Hx Hrun.
  destruct (begin_acquires e tid message w c Hc Hfree)
    as (lk & w1 & Hbegin & Hheld & Hfiles).
  inversion Hrun as [? ? ? g' ? ? Hres Hterm|? ? ? g' ? w' w'' ? ? Hres Hterm Hrely Hrun'];
    simplify_eq/=; rewrite Hx, Hbegin in Hres; simplify_eq/=.
  split; [done|]. exists lk, w''. split; [|split; [|done]].
  - by eapply held_stable.
  - unfold history_file. destruct Hrely as (_ & _ & _ & ->). by rewrite Hfiles.
Qed.

Lemma run_nonempty g w tr wf : run g w tr wf → ∃ e o tr', tr = (e, o) :: tr'.
Proof. destruct 1; eauto. Qed.

(** Every way the run can go on from the wait for the executor. *)
Lemma run_executor_cases e o tr tid message lk h w wf :
  held tid lk h w →
  run (AwaitExecutor tid message lk) w ((e, o) :: tr) wf →
  released tid wf ∧
  let failed x h' :=
    o = Raised x ∧ tr = [] ∧ history_of wf tid = Some h'
    ∧ history_file wf tid = history_file w tid in
  match thrown e with
  | Some x => failed x h
  | None =>
      match executor e with
      | Raise x => failed x h
      | Ok response =>
          match response !! "answer" with
          | None => failed (KeyError "answer") h
          | Some a =>
              let h1 := h ++ [assistant_message a (now e)] in
              match fault e with
              | Some (OpenFails x) => failed x h1
              | Some (DumpFails x) =>
                  o = Raised x ∧ tr = [] ∧ history_of wf tid = Some h1
                  ∧ history_file wf tid = Some Corrupt
              | None =>
                  history_of wf tid = Some h1
                  ∧ history_file wf tid = Some (saved h1)
                  ∧ (undisturbed tr →
                     chunks_of ((e, o) :: tr) = spec_chunks (split a)
                     ∧ outcome ((e, o) :: tr) = Some Return)
                  ∧ (split a = [] → o = Return ∧ tr = [])
              end
          end
      end
  end.
Proof.
  intros Hheld Hrun. cbv zeta.
  destruct (thrown e) as [x|] eqn:Hx.
  { assert (deliver e (after_invoke e tid message lk) w = (Raise x, w)) as Hbody
      by (unfold deliver; by rewrite Hx).
    destruct (run_executor_raise _ _ _ _ _ _ _ _ _ _ _ Hrun Hbody Hheld)
      as (-> & -> & Hh & Hrel & Hfiles).
    unfold history_file. by rewrite Hfiles. }
  assert (deliver e (after_invoke e tid message lk) w
          = after_invoke e tid message lk w) as Hdel
    by (unfold deliver; by rewrite Hx).
  destruct (after_invoke_cases e tid message lk h w Hheld)
    as (w0 & Hheld0 & Hfiles0 & Hcases).
  destruct (executor e) as [response|x].
  2:{ rewrite <- Hdel in Hcases.
      destruct (run_executor_raise _ _ _ _ _ _ _ _ _ _ _ Hrun Hcases Hheld0)
        as (-> & -> & Hh & Hrel & Hfiles).
      unfold history_file. by rewrite Hfiles, Hfiles0. }
  destruct (response !! "answer") as [a|].
  2:{ rewrite <- Hdel in Hcases.
      destruct (run_executor_raise _ _ _ _ _ _ _ _ _ _ _ Hrun Hcases Hheld0)
        as (-> & -> & Hh & Hrel & Hfiles).
      unfold history_file. by rewrite Hfiles, Hfiles0. }
  destruct Hcases as (w1 & Hheld1 & Hcases).
  destruct (fault e) as [[x|x]|]; destruct Hcases as [Hbody Hfiles1];
    rewrite <- Hdel in Hbody.
  - destruct (run_executor_raise _ _ _ _ _ _ _ _ _ _ _ Hrun Hbody Hheld1)
      as (-> & -> & Hh & Hrel & Hfiles).
    unfold history_file. by rewrite Hfiles, Hfiles1.
  - destruct (run_executor_raise _ _ _ _ _ _ _ _ _ _ _ Hrun Hbody Hheld1)
      as (-> & -> & Hh & Hrel & Hfiles).
    unfold history_file. rewrite Hfiles, Hfiles1, lookup_insert_eq. done.
  - destruct (run_executor_ok _ _ _ _ _ _ _ _ _ _ _ Hrun Hbody Hheld1)
      as (Hh & Hrel & Hfile & Hchunks & Hdone).
    split; [done|]. split; [done|]. split; [|split].
    + rewrite Hfile. unfold history_file. by rewrite Hfiles1, lookup_insert_eq.
    + intros Hq. destruct (Hchunks Hq) as [Hc Ho]. split; [|done].
      rewrite Hc. unfold present. rewrite emitted_enter.
      by apply stream_from_spec.
    + intros Hempty. apply Hdone. unfold present. by rewrite Hempty.
Qed.

End TurnFacts.

(** ** Scripted runs are runs *)
Section ExecFacts.

Lemma stable_refl (tid : string) (lk : nat) (w : World) : stable tid lk w w.
Proof. split; [|done]. intros c Hc. by exists c. Qed.

Lemma rely_refl (g : gen) (w : World) : rely g w w.
Proof. unfold rely. destruct (owner g) as [[tid lk]|]; [apply stable_refl|done]. Qed.

Lemma exec_run (script : list env) (g : gen) (w : World) tr wf :
  exec script g w = Some (tr, wf) → run g w tr wf.
Proof.
  revert g w tr wf. induction script as [|e script IH]; intros g w tr wf H; [done|].
  simpl in H. destruct (resume e g w) as [[g' o] w'] eqn:Hres.
  destruct (terminal o) eqn:Hterm.
  - simplify_eq. by eapply run_end.
  - destruct (exec script g' w') as [[tr' wf']|] eqn:Hexec; [|done].
    simplify_eq. eapply run_step; [done..|apply rely_refl|by apply IH].
Qed.

Lemma bind_Ok_inv {A B} (m : M A) (k : A → M B) (w w' : World) (b : B) :
  bind m k w = (Ok b, w') → ∃ a w1, m w = (Ok a, w1) ∧ k a w1 = (Ok b, w').
Proof.
  unfold bind. destruct (m w) as [[a|x] w1]; [|done]. intros Hk. by exists a, w1.
Qed.

(** When the stretch after the executor's answer reaches the loop, it is with
    the answer the executor gave. *)
Lemma after_invoke_Ok (e : env) (t message : string) (l : nat) (w w' : World)
    (p : pause) :
  after_invoke e t message l w = (Ok p, w') →
  ∃ a, answer_of e = Some a ∧ p = streaming t l (Presenter.present a).
Proof.
  unfold after_invoke, answer_of. intros H.
  apply bind_Ok_inv in H as (c & w1 & _ & H).
  apply bind_Ok_inv in H as (? & w2 & _ & H).
  apply bind_Ok_inv in H as (response & w3 & Hresp & H).
  apply bind_Ok_inv in H as (a & w4 & Ha & H).
  apply bind_Ok_inv in H as (? & w5 & _ & H).
  apply bind_Ok_inv in H as (? & w6 & _ & H).
  unfold lift in Hresp. injection Hresp as Hexec _. rewrite Hexec.
  unfold ret in H. injection H as <- _.
  exists a. split; [|done].
  destruct (response !! "answer"); unfold ret, raise in Ha; by simplify_eq.
Qed.

(** A resumption inside the loop ends the generator or moves on in the
    loop. *)
Lemma resume_streaming_shape (e : env) (t : string) (l : nat)
    (k : Presenter.cursor) (w : World) :
  terminal (resume e (Streaming t l k) w).1.2 = true
  ∨ ∃ k', (resume e (Streaming t l k) w).1.1 = Streaming t l k'
          ∧ steps_left k' < steps_left k.
Proof.
  simpl. unfold in_try, deliver, raise, ret.
  destruct (thrown e) as [x|].
  { left. by destruct (finally_block t l w) as [[[]|x'] w']. }
  destruct (Presenter.advance k) as [chunk k'|k'|] eqn:Hadv; simpl.
  - right. exists k'. split; [done|].
    destruct k as [n i word rest|n i word rest|n i word [|word' rest]];
      simpl in Hadv.
    + destruct (_ && _); simplify_eq. simpl. lia.
    + discriminate Hadv.
    + discriminate Hadv.
    + simplify_eq. simpl. lia.
  - right. exists k'. split; [done|].
    destruct k as [n i word rest|n i word rest|n i word [|word' rest]];
      simpl in Hadv.
    + destruct (_ && _); simplify_eq. simpl. lia.
    + simplify_eq. simpl. lia.
    + discriminate Hadv.
    + discriminate Hadv.
  - left. by destruct (finally_block t l w) as [[[]|x'] w'].
Qed.

Lemma exec_streaming_total (script : list env) (t : string) (l : nat)
    (k : Presenter.cursor) (w : World) :
  steps_left k ≤ length script → is_Some (exec script (Streaming t l k) w).
Proof.
  revert k w. induction script as [|e script IH]; intros k w Hlen.
  { destruct k; simpl in Hlen; lia. }
  cbn [exec].
  destruct (resume_streaming_shape e t l k w) as [Hend|(k' & Hk' & Hless)];
    destruct (resume e (Streaming t l k) w) as [[g' o] w'] eqn:Hres;
    simpl in *.
  - by rewrite Hend.
  - destruct (terminal o); [done|]. subst g'.
    destruct (IH k' w') as [[tr wf] ->]; [lia|done].
Qed.

(** The first chunk, if any, leaves the loop with as many resumptions still
    to come as the answer has words, three for each. *)
Lemma steps_left_present (answer : string) (chunk : string) (k : Presenter.cursor) :
  Presenter.present answer = Presenter.Chunk chunk k →
  steps_left k ≤ 3 * length (PyStr.split answer).
Proof.
  unfold Presenter.present.
  destruct (PyStr.split answer) as [|word rest]; [done|].
  simpl. intros [= <- <-]. simpl. lia.
Qed.

(** X12. Every turn ends: whatever the surroundings supply and whatever the
    world, a call of [send_message] resumed without interference reaches its
    end within [turn_steps] resumptions, three for every word of the answer
    and two more. *)
Theorem exec_total (e1 e2 : env) (script : list env) (tid message : string)
    (w : World) :
  turn_steps e2 ≤ 2 + length script →
  is_Some (exec (e1 :: e2 :: script) (Created tid message) w).
Proof.
  intros Hlen. cbn [exec].
  destruct (resume e1 (Created tid message) w) as [[g1 o1] w1] eqn:Hres1.
  destruct (terminal o1) eqn:Hterm1; [done|].
  assert (g1 = YieldBusy ∨ ∃ lk, g1 = AwaitExecutor tid message lk) as Hg1.
  { simpl in Hres1. destruct (thrown e1); [by simplify_eq|].
    unfold begin in Hres1.
    destruct (active_chats w !! tid); [|by simplify_eq].
    destruct (get_lock tid w) as [[lk|x] w0]; [|by simplify_eq].
    destruct (try_acquire lk w0) as [[[]|x] w2] eqn:Hacq; [| |by simplify_eq].
    - right. exists lk. unfold in_try in Hres1.
      destruct (bind _ _ w2) as [[p|x] w3] eqn:Hbody.
      + apply bind_Ok_inv in Hbody as (? & ? & _ & Hbody).
        apply bind_Ok_inv in Hbody as (? & ? & _ & Hbody).
        unfold ret in Hbody. by simplify_eq.
      + destruct (finally_block tid lk w3) as [[[]|x'] w4]; by simplify_eq.
    - left. by simplify_eq. }
  destruct Hg1 as [->|[lk ->]].
  { cbn [exec]. simpl. by destruct (thrown e2). }
  cbn [exec].
  destruct (resume e2 (AwaitExecutor tid message lk) w1) as [[g2 o2] w2] eqn:Hres2.
  destruct (terminal o2) eqn:Hterm2; [done|].
  assert (∃ k, g2 = Streaming tid lk k
               ∧ steps_left k ≤ 3 * length (PyStr.split (default "" (answer_of e2))))
    as (k & -> & Hk).
  { simpl in Hres2. unfold in_try in Hres2.
    destruct (deliver e2 _ w1) as [[p|x] w3] eqn:Hbody.
    2:{ destruct (finally_block tid lk w3) as [[[]|x'] w4]; by simplify_eq. }
    unfold deliver in Hbody. destruct (thrown e2); [done|].
    apply after_invoke_Ok in Hbody as (a & Ha & ->). rewrite Ha. simpl.
    destruct (Presenter.present a) as [chunk k|k|] eqn:Hpresent; simpl in Hres2.
    - simplify_eq. exists k. split; [done|]. by eapply steps_left_present.
    - unfold Presenter.present in Hpresent. by destruct (PyStr.split a).
    - destruct (finally_block tid lk w3) as [[[]|x'] w4]; by simplify_eq. }
  destruct (exec_streaming_total script tid lk k w2) as [[tr wf] ->]; [|done].
  unfold turn_steps in Hlen. lia.
Qed.

End ExecFacts.

(** ** Interference: what other generators and [create_chat] do *)
Section Guarantee.

Implicit Types (w : World) (t tid : string) (l lk : nat).

Lemma frame_refl t l w : frame t l w w.
Proof. split; auto. Qed.

Lemma frame_trans t l w1 w2 w3 :
  frame t l w1 w2 → frame t l w2 w3 → frame t l w1 w3.
Proof.
  intros [Hchats Hbind Hlocks Hfiles Hmore Hbound Hnew Hvalid Hreg]
         [Hchats' Hbind' Hlocks' Hfiles' Hmore' Hbound' Hnew' Hvalid' Hreg'].
  split.
  - intros t' Ht. by rewrite Hchats', Hchats.
  - intros t' Ht. by rewrite Hbind', Hbind.
  - intros l' Hl Hlt. rewrite Hlocks' by (done || lia). by apply Hlocks.
  - intros t' Ht. by rewrite Hfiles', Hfiles.
  - lia.
  - eauto.
  - intros t' l' Hb. destruct (Hnew' _ _ Hb) as [Hb'|?]; [|right; lia].
    destruct (Hnew _ _ Hb'); [by left|by right].
  - eauto.
  - eauto.
Qed.

Lemma frames_ret {A} t l (a : A) : frames t l (ret a).
Proof. intros w. apply frame_refl. Qed.

Lemma frames_raise {A} t l (x : exn) : frames t l (raise (A:=A) x).
Proof. intros w. apply frame_refl. Qed.

Lemma frames_lift {A} t l (r : result A) : frames t l (lift r).
Proof. intros w. apply frame_refl. Qed.

Lemma frames_bind {A B} t l (m : M A) (k : A → M B) :
  frames t l m → (∀ a, frames t l (k a)) → frames t l (bind m k).
Proof.
  intros Hm Hk w. unfold bind. specialize (Hm w).
  destruct (m w) as [[a|x] w']; [|done].
  eapply frame_trans; [done|apply Hk].
Qed.

Lemma frames_deliver {A} t l (e : env) (m : M A) :
  frames t l m → frames t l (deliver e m).
Proof. intros Hm. unfold deliver. destruct (thrown e); [apply frames_raise|done]. Qed.

Lemma frames_the_chat t l : frames t l (the_chat t).
Proof.
  intros w. unfold the_chat. destruct (active_chats w !! t); apply frame_refl.
Qed.

Lemma frames_set_chat t l (c : chat) :
  frames t l (modify (set_active_chats <[t := c]>)).
Proof.
  intros w. split; simpl; auto.
  - intros t' Ht. by rewrite lookup_insert_ne.
  - intros t' Hreg. destruct (decide (t = t')) as [->|Ht].
    + by rewrite lookup_insert_eq.
    + by rewrite lookup_insert_ne.
Qed.

Lemma frames_set_processing t l (b : bool) : frames t l (set_processing t b).
Proof.
  apply frames_bind; [apply frames_the_chat|]. intros c. apply frames_set_chat.
Qed.

Lemma frames_history_append t l (msg : ChatMessage) :
  frames t l (history_append t msg).
Proof.
  apply frames_bind; [apply frames_the_chat|]. intros c. apply frames_set_chat.
Qed.

Lemma frames_set_file t l (f : file) :
  frames t l (modify (set_chat_history <[history_path t := f]>)).
Proof.
  intros w. split; simpl; auto.
  intros t' Ht. rewrite lookup_insert_ne; [done|].
  intros Heq. by apply history_path_inj in Heq.
Qed.

Lemma frames_save t l (flt : option write_fault) :
  frames t l (_save_chat_history flt t).
Proof.
  apply frames_bind; [apply frames_the_chat|]. intros c.
  destruct flt as [[x|x]|].
  - apply frames_raise.
  - apply frames_bind; [apply frames_set_file|]. intros _. apply frames_raise.
  - apply frames_set_file.
Qed.

Lemma frame_set_lock t l (b : bool) w : frame t l w (set_locks <[l := b]> w).
Proof.
  split; simpl; auto.
  - intros l' Hl _. by rewrite list_lookup_insert_ne.
  - by rewrite length_insert.
  - by rewrite length_insert.
Qed.

Lemma frames_release t l : frames t l (release l).
Proof.
  intros w. unfold release. destruct (locked w l); [|apply frame_refl].
  apply frame_set_lock.
Qed.

Lemma frames_try_acquire t l : frames t l (try_acquire l).
Proof.
  intros w. unfold try_acquire. destruct (locked w l); [apply frame_refl|].
  apply frame_set_lock.
Qed.

Lemma frames_finally t l : frames t l (finally_block t l).
Proof.
  apply frames_bind; [apply frames_set_processing|]. intros _. apply frames_release.
Qed.

Lemma frames_after_invoke t l (e : env) (message : string) :
  frames t l (after_invoke e t message l).
Proof.
  unfold after_invoke.
  apply frames_bind; [apply frames_the_chat|]. intros c.
  apply frames_bind; [apply frames_set_chat|]. intros _.
  apply frames_bind; [apply frames_lift|]. intros response.
  apply frames_bind.
  { destruct (response !! "answer"); [apply frames_ret|apply frames_raise]. }
  intros a.
  apply frames_bind; [apply frames_history_append|]. intros _.
  apply frames_bind; [apply frames_save|]. intros _. apply frames_ret.
Qed.

(** A stretch of the [try] body, with the [finally] block when it runs. *)
Lemma in_try_frame t l (body : M pause) w :
  frames t l body → frame t l w (in_try t l body w).2.
Proof.
  intros Hbody. unfold in_try. specialize (Hbody w).
  pose proof (frames_finally t l (body w).2) as Hfin.
  destruct (body w) as [[[chunk g|g|]|x] w1]; simpl in *; try done.
  - destruct (finally_block t l w1) as [[[]|x] w2]; simpl in *;
      by eapply frame_trans.
  - destruct (finally_block t l w1) as [[[]|x'] w2]; simpl in *;
      by eapply frame_trans.
Qed.

(** One resumption of a generator touches the thread it is called for and the
    lock in use for it only. *)
Lemma resume_frame (e : env) (g : gen) w :
  match lock_in_use g w with
  | Some (t, l) => frame t l w (resume e g w).2
  | None => (resume e g w).2 = w
  end.
Proof.
  destruct g as [t message| |t message l|t l k|]; simpl; try done.
  - destruct (thrown e); [apply frame_refl|].
    unfold begin. destruct (active_chats w !! t); [|apply frame_refl].
    unfold get_lock. destruct (chat_locks w !! t) as [l|] eqn:Hl; simpl.
    + pose proof (frames_try_acquire t l w) as Hacq.
      destruct (try_acquire l w) as [[[]|x] w2]; simpl in *; try done.
      eapply frame_trans; [done|]. apply in_try_frame.
      apply frames_bind; [apply frames_set_processing|]. intros _.
      apply frames_bind; [apply frames_history_append|]. intros _.
      apply frames_ret.
    + set (l := length (locks w)).
      set (w1 := set_chat_locks <[t := l]> (set_locks (λ ls, ls ++ [false]) w)).
      assert (frame t l w w1) as Hnew.
      { split; simpl; auto.
        - intros t' Ht. by rewrite lookup_insert_ne.
        - intros l' _ Hlt. by rewrite lookup_app_l.
        - rewrite length_app. lia.
        - intros t' l' Hb. rewrite lookup_insert_ne; [done|]. congruence.
        - intros t' l' Hb. destruct (decide (t = t')) as [->|Ht].
          + rewrite lookup_insert_eq in Hb. injection Hb as <-. by right.
          + rewrite lookup_insert_ne in Hb by done. by left.
        - intros Hvalid t' l' Hb. rewrite length_app. simpl.
          destruct (decide (t = t')) as [->|Ht].
          + rewrite lookup_insert_eq in Hb. injection Hb as <-. unfold l. lia.
          + rewrite lookup_insert_ne in Hb by done.
            specialize (Hvalid _ _ Hb). lia. }
      assert (∀ w2, frame t l w1 w2 → frame t l w w2) as Hvia.
      { intros w2. by apply frame_trans. }
      pose proof (frames_try_acquire t l w1) as Hacq.
      destruct (try_acquire l w1) as [[[]|x] w2]; simpl in *;
        try (by apply Hvia).
      apply Hvia. eapply frame_trans; [done|]. apply in_try_frame.
      apply frames_bind; [apply frames_set_processing|]. intros _.
      apply frames_bind; [apply frames_history_append|]. intros _.
      apply frames_ret.
  - apply in_try_frame, frames_deliver, frames_after_invoke.
  - apply in_try_frame, frames_deliver, frames_ret.
Qed.

(** What touches another thread and another lock leaves a held thread
    alone. *)
Lemma frame_stable t l tid lk w w' :
  frame t l w w' → t ≠ tid → l ≠ lk → lk < length (locks w) →
  stable tid lk w w'.
Proof.
  intros [Hchats Hbind Hlocks Hfiles _ _ _ _ _] Ht Hl Hlt.
  split; [|split; [|split]]; auto.
  intros c Hc. exists c. by rewrite Hchats.
Qed.

(** While the lock [lk] of thread [tid] is held, a resumption of any other
    generator keeps to what the holder relies on: a new call for [tid] finds
    the lock taken, and a generator at work on another thread works with
    another lock. *)
Theorem resume_guarantee (e : env) (g : gen) (tid : string) (lk : nat) w :
  chat_locks w !! tid = Some lk →
  locks w !! lk = Some true →
  (∀ t, chat_locks w !! t = Some lk → t = tid) →
  (∀ t l, owner g = Some (t, l) → t ≠ tid ∧ chat_locks w !! t = Some l) →
  stable tid lk w (resume e g w).2.
Proof.
  intros Hlk Hheld Hinj Hother.
  assert (lk < length (locks w)) as Hlt by (by eapply lookup_lt_Some).
  pose proof (resume_frame e g w) as Hframe.
  destruct g as [t message| |t message l|t l k|]; simpl in Hframe;
    try (simpl; apply stable_refl).
  - destruct (decide (t = tid)) as [->|Ht].
    + simpl. destruct (thrown e); [apply stable_refl|].
      unfold begin, get_lock, try_acquire, locked.
      destruct (active_chats w !! tid); [|apply stable_refl].
      rewrite Hlk, Hheld. apply stable_refl.
    + eapply frame_stable; [done..| |done].
      destruct (chat_locks w !! t) as [l|] eqn:Hl; simpl; [|lia].
      intros ->. by apply Ht, Hinj.
  - destruct (Hother t l eq_refl) as [Ht Hl].
    eapply frame_stable; [done..| |done]. intros ->. by apply Ht, Hinj.
  - destruct (Hother t l eq_refl) as [Ht Hl].
    eapply frame_stable; [done..| |done]. intros ->. by apply Ht, Hinj.
Qed.

(** The ways a call of [create_chat] can go: it returns the new id, with the
    lock made and bound, the store opened and the thread registered; or it
    raises, with the lock made and bound and the store opened or not. *)
Lemma create_chat_cases (ce : create_env) (uuid4 asset : string) w :
  let directory := "./chroma_db/" +:+ asset in
  let bindings := <[uuid4 := length (locks w)]> (chat_locks w) in
  let opened :=
    match chroma_db w !! directory with
    | None => <[directory := Collection []]> (chroma_db w)
    | Some _ => chroma_db w
    end in
  (create_chat ce uuid4 asset w
   = (Ok uuid4,
      mkWorld (<[uuid4 := mkChat asset (mkChain directory []) [] false]>
                 (active_chats w))
              bindings (locks w ++ [false]) (chat_history w) opened)
   ∧ arrives ce = Delivered ∧ chain_error ce = None
   ∧ chroma_db w !! directory ≠ Some Unreadable)
  ∨ (∃ x db,
       create_chat ce uuid4 asset w
       = (Raise x,
          mkWorld (active_chats w) bindings (locks w ++ [false])
                  (chat_history w) db)
       ∧ (db = chroma_db w ∨ db = opened)
       ∧ ((∃ worker_runs, arrives ce = Interrupted x worker_runs)
          ∨ (arrives ce = Delivered
             ∧ (chroma_db w !! directory = Some Unreadable
                ∨ chain_error ce = Some x)))).
Proof.
  intros directory bindings opened. subst directory bindings opened.
  unfold create_chat, run_in_executor, load_vectorstore, Chroma, new_lock,
    bind, ret, raise, modify.
  destruct ce as [[|x [|]] [y|]]; simpl;
    destruct (chroma_db w !! ("./chroma_db/" +:+ asset)) as [[chunks|]|];
    simpl;
    first [ left; by repeat split
          | right; eexists _, _; split; [reflexivity|]; split;
            [first [by left|by right]|];
            first [ left; by eexists
                  | right; split; [done|]; first [by left|by right] ] ].
Qed.

(** [create_chat] with a new thread id keeps to it as well. *)
Theorem create_chat_guarantee (ce : create_env) (uuid4 asset tid : string)
    (lk : nat) w :
  uuid4 ≠ tid →
  locks w !! lk = Some true →
  stable tid lk w (create_chat ce uuid4 asset w).2.
Proof.
  intros Hnew Hheld.
  assert (lk < length (locks w)) as Hlt by (by eapply lookup_lt_Some).
  destruct (create_chat_cases ce uuid4 asset w)
    as [(-> & _)|(x & db & -> & _)]; simpl;
    (split; [|split; [|split]]); simpl;
    rewrite ?lookup_insert_ne by done; try done;
    try (by rewrite lookup_app_l);
    intros c Hc; exists c; by rewrite ?lookup_insert_ne.
Qed.

(** The two reading operations change nothing. *)
Lemma get_chat_history_pure (tid : string) w : (get_chat_history tid w).2 = w.
Proof.
  unfold get_chat_history.
  destruct (active_chats w !! tid); [done|].
  by destruct (chat_history w !! history_path tid).
Qed.

Lemma is_processing_pure (tid : string) w : (is_processing tid w).2 = w.
Proof. unfold is_processing. by destruct (active_chats w !! tid). Qed.

End Guarantee.


(** ** The program as a whole: what every reachable state satisfies *)
Section System.

Implicit Types (w : World) (t tid : string) (l lk : nat) (gs : list gen).

Lemma frame_bound_ok t l w w' : bound_ok w → frame t l w w' → bound_ok w'.
Proof.
  intros [Hinj Hvalid] [_ Hbind _ _ _ _ Hnew Hvalid' _]. split; [|by apply Hvalid'].
  assert (∀ t' l', chat_locks w' !! t' = Some l' → t' ≠ t →
                   chat_locks w !! t' = Some l') as Hold.
  { intros t' l' Hb Ht. by rewrite <- Hbind. }
  intros t1 t2 l0 H1 H2.
  destruct (decide (t1 = t)) as [->|Ht1], (decide (t2 = t)) as [->|Ht2];
    [done| | |by eapply Hinj; eapply Hold].
  - pose proof (Hold _ _ H2 Ht2) as H2'.
    destruct (Hnew _ _ H1) as [H1'|Hge]; [by eapply Hinj|].
    specialize (Hvalid _ _ H2'). lia.
  - pose proof (Hold _ _ H1 Ht1) as H1'.
    destruct (Hnew _ _ H2) as [H2'|Hge]; [by eapply Hinj|].
    specialize (Hvalid _ _ H1'). lia.
Qed.

Lemma frame_keeps_held t l w w' t' l' h :
  frame t l w w' → t' ≠ t → l' ≠ l → held t' l' h w → held t' l' h w'.
Proof.
  intros Hframe Ht Hl Hheld. eapply held_stable; [done|].
  eapply frame_stable; [done..|].
  destruct Hheld as (_ & _ & Hlock). by eapply lookup_lt_Some.
Qed.

Lemma frame_new_thread (uuid4 : string) w chats db :
  chat_locks w !! uuid4 = None →
  chats = active_chats w ∨ (∃ c, chats = <[uuid4 := c]> (active_chats w)) →
  frame uuid4 (length (locks w)) w
    (mkWorld chats (<[uuid4 := length (locks w)]> (chat_locks w))
             (locks w ++ [false]) (chat_history w) db).
Proof.
  intros Hnew Hchats. split; simpl; auto.
  - intros t' Ht. destruct Hchats as [->|[c ->]]; [done|].
    by rewrite lookup_insert_ne.
  - intros t' Ht. by rewrite lookup_insert_ne.
  - intros l' _ Hlt. by rewrite lookup_app_l.
  - rewrite length_app. lia.
  - intros t' l' Hb. rewrite lookup_insert_ne; [done|]. congruence.
  - intros t' l' Hb. destruct (decide (uuid4 = t')) as [->|Ht].
    + rewrite lookup_insert_eq in Hb. injection Hb as <-. by right.
    + rewrite lookup_insert_ne in Hb by done. by left.
  - intros Hvalid t' l' Hb. rewrite length_app. simpl.
    destruct (decide (uuid4 = t')) as [->|Ht].
    + rewrite lookup_insert_eq in Hb. injection Hb as <-. lia.
    + rewrite lookup_insert_ne in Hb by done.
      specialize (Hvalid _ _ Hb). lia.
  - intros t' Hreg. destruct Hchats as [->|[c ->]]; [done|].
    destruct (decide (uuid4 = t')) as [->|Ht].
    + by rewrite lookup_insert_eq.
    + by rewrite lookup_insert_ne.
Qed.

Lemma create_chat_frame (ce : create_env) (uuid4 asset : string) w :
  chat_locks w !! uuid4 = None →
  frame uuid4 (length (locks w)) w (create_chat ce uuid4 asset w).2.
Proof.
  intros Hnew.
  destruct (create_chat_cases ce uuid4 asset w)
    as [(-> & _)|(x & db & -> & _)]; simpl;
    apply frame_new_thread; eauto.
Qed.

(** The first resumption of a call either leaves the world alone and holds
    nothing, or finds the lock free and takes it. *)
Lemma resume_created_owner (e : env) t message w :
  bound_ok w →
  (owner (resume e (Created t message) w).1.1 = None
   ∧ (resume e (Created t message) w).2 = w)
  ∨ (acquirable w t
     ∧ ∃ l h, owner (resume e (Created t message) w).1.1 = Some (t, l)
              ∧ held t l h (resume e (Created t message) w).2).
Proof.
  intros [_ Hvalid]. simpl.
  destruct (thrown e) eqn:Hx; [by left|].
  destruct (active_chats w !! t) as [c|] eqn:Hc.
  2:{ left. unfold begin. by rewrite Hc. }
  assert (acquirable w t →
          ∃ l h, owner (begin e t message w).1.1 = Some (t, l)
                 ∧ held t l h (begin e t message w).2) as Htake.
  { intros Hfree.
    destruct (begin_acquires e t message w c Hc Hfree) as (l & w1 & -> & Hheld & _).
    eexists l, _. split; [done|exact Hheld]. }
  destruct (chat_locks w !! t) as [l|] eqn:Hl.
  - destruct (lookup_lt_is_Some_2 _ _ (Hvalid _ _ Hl)) as [[] Hb].
    + left. unfold begin, get_lock, try_acquire, locked. by rewrite Hc, Hl, Hb.
    + assert (acquirable w t) as Hfree by (unfold acquirable; by rewrite Hl).
      right. split; [done|]. by apply Htake.
  - assert (acquirable w t) as Hfree by (unfold acquirable; by rewrite Hl).
    right. split; [done|]. by apply Htake.
Qed.

(** A later resumption keeps the lock or ends the generator. *)
Lemma resume_owner_owner (e : env) (g : gen) t l h w :
  owner g = Some (t, l) → held t l h w →
  owner (resume e g w).1.1 = None
  ∨ (owner (resume e g w).1.1 = Some (t, l) ∧ ∃ h', held t l h' (resume e g w).2).
Proof.
  intros Howner Hheld.
  assert (∀ (body : M pause) s w1 h1,
            body w = (Ok (streaming t l s), w1) → held t l h1 w1 →
            owner (in_try t l body w).1.1 = None
            ∨ (owner (in_try t l body w).1.1 = Some (t, l)
               ∧ ∃ h', held t l h' (in_try t l body w).2)) as Hok.
  { intros body s w1 h1 Hbody Hheld1.
    pose proof (in_try_ok _ _ _ _ _ _ _ Hbody Hheld1) as Hstep.
    destruct s as [chunk k|k|]; simpl in Hstep.
    - rewrite Hstep. right. split; [done|]. by exists h1.
    - rewrite Hstep. right. split; [done|]. by exists h1.
    - destruct Hstep as (w' & -> & _). by left. }
  assert (∀ (body : M pause) x w1 h1,
            body w = (Raise x, w1) → held t l h1 w1 →
            owner (in_try t l body w).1.1 = None) as Hraise.
  { intros body x w1 h1 Hbody Hheld1.
    by destruct (in_try_raise _ _ _ _ _ _ _ Hbody Hheld1) as (w' & -> & _). }
  destruct g as [| |t' message l'|t' l' k|]; simplify_eq/=.
  - unfold deliver. destruct (thrown e) as [x|]; [left; by eapply Hraise|].
    destruct (after_invoke_cases e t message l h w Hheld)
      as (w0 & Hheld0 & _ & Hcases).
    destruct (executor e) as [response|x]; [|left; by eapply Hraise].
    destruct (response !! "answer") as [a|]; [|left; by eapply Hraise].
    destruct Hcases as (w1 & Hheld1 & Hcases).
    destruct (fault e) as [[x|x]|]; destruct Hcases as [Hbody _];
      [left; by eapply Hraise..|by eapply Hok].
  - unfold deliver. destruct (thrown e) as [x|]; [left; by eapply Hraise|].
    by eapply Hok.
Qed.

Lemma acquirable_not_held t l h w : acquirable w t → ¬ held t l h w.
Proof.
  unfold acquirable. intros Hfree (_ & Hl & Hlocked).
  rewrite Hl in Hfree. congruence.
Qed.

(** What one resumption does to the program: the locks stay in order, a turn
    under way on a thread the generator does not hold stays as it is, and a
    lock the generator holds afterwards it held before or took from a thread
    on which no turn was under way. *)
Lemma resume_effect (e : env) (g : gen) w :
  bound_ok w →
  (∀ t l, owner g = Some (t, l) → ∃ h, held t l h w) →
  bound_ok (resume e g w).2
  ∧ (∀ t' l' h, held t' l' h w → (∀ l, owner g ≠ Some (t', l)) →
                held t' l' h (resume e g w).2)
  ∧ (∀ t' l', owner (resume e g w).1.1 = Some (t', l') →
              (∃ h, held t' l' h (resume e g w).2)
              ∧ (owner g = Some (t', l')
                 ∨ (owner g = None ∧ ∀ l h, ¬ held t' l h w))).
Proof.
  intros Hok Hmine.
  pose proof (resume_frame e g w) as Hframe.
  destruct (owner g) as [[t l]|] eqn:Howner.
  - destruct (Hmine t l eq_refl) as [h Hheld].
    assert (lock_in_use g w = Some (t, l)) as Huse by (by destruct g).
    rewrite Huse in Hframe.
    split; [by eapply frame_bound_ok|]. split.
    + intros t' l' h' Hheld' Hnot.
      assert (t' ≠ t) as Ht by (intros ->; by eapply Hnot).
      eapply frame_keeps_held; [done..| |done].
      intros ->. apply Ht. destruct Hok as [Hinj _].
      destruct Hheld as (_ & Hb & _), Hheld' as (_ & Hb' & _). by eapply Hinj.
    + intros t' l' Howner'.
      destruct (resume_owner_owner e g t l h w Howner Hheld)
        as [Hnone|[Hsame Hheld']]; [congruence|].
      rewrite Hsame in Howner'. simplify_eq. split; [done|by left].
  - destruct g as [t message| | | |]; simplify_eq/=;
      try (split; [done|]; split; [done|]; intros ?? [=]).
    destruct (resume_created_owner e t message w Hok)
      as [[Hnone Hsame]|(Hfree & l & h & Hnew & Hheld)]; simpl in *.
    + rewrite Hsame. split; [done|]. split; [done|].
      intros t' l' Howner'. congruence.
    + split; [by eapply frame_bound_ok|]. split.
      * intros t' l' h' Hheld' _.
        assert (t' ≠ t) as Ht.
        { intros ->. by eapply acquirable_not_held. }
        eapply frame_keeps_held; [done..| |done].
        destruct Hok as [Hinj Hvalid]. destruct Hheld' as (_ & Hb' & _).
        destruct (chat_locks w !! t) as [l0|] eqn:Hb; simpl.
        -- intros ->. by eapply Ht, Hinj.
        -- specialize (Hvalid _ _ Hb'). lia.
      * intros t' l' Howner'. rewrite Hnew in Howner'. simplify_eq.
        split; [by exists h|]. right. split; [done|].
        intros l0 h0. by apply acquirable_not_held.
Qed.

Lemma lookup_call gs (i : nat) (g : gen) tid message :
  (gs ++ [Created tid message]) !! i = Some g →
  is_Some (owner g) → gs !! i = Some g.
Proof.
  intros Hi [x Hx]. apply lookup_app_Some in Hi as [Hi|[_ Hi]]; [done|].
  apply list_lookup_singleton_Some in Hi as [_ <-]. done.
Qed.

(** The steps of the program keep it consistent. *)
Theorem consistent_step (s s' : system) : consistent s → step s s' → consistent s'.
Proof.
  intros (Hok & Hheld & Hexcl) Hstep.
  destruct Hstep as [w gs tid message|w gs i g e Hi|w gs ce uuid4 asset Hnew];
    simpl in *.
  - split; [done|]. split; simpl.
    + intros j g t l Hj Ho. eapply Hheld; [|done]. by eapply lookup_call.
    + intros j1 j2 g1 g2 t l1 l2 H1 H2 Ho1 Ho2.
      eapply Hexcl; [by eapply lookup_call|by eapply lookup_call|done..].
  - destruct (resume_effect e g w Hok (λ t l, Hheld i g t l Hi))
      as (Hok' & Hkeep & Hmine).
    assert (∀ j gj t l, gs !! j = Some gj → j ≠ i → owner gj = Some (t, l) →
                        ∀ l0, owner g ≠ Some (t, l0)) as Hother.
    { intros j gj t l Hj Hne Ho l0 Ho'. apply Hne. by eapply Hexcl. }
    split; [done|]. split; simpl.
    + intros j gj t l Hj Ho.
      destruct (decide (j = i)) as [->|Hne].
      * rewrite list_lookup_insert_eq in Hj by (by eapply lookup_lt_Some).
        simplify_eq. by apply Hmine.
      * rewrite list_lookup_insert_ne in Hj by done.
        destruct (Hheld j gj t l Hj Ho) as [h Hh]. exists h.
        eapply Hkeep; [done|]. by eapply Hother.
    + intros j1 j2 g1 g2 t l1 l2 H1 H2 Ho1 Ho2.
      destruct (decide (j1 = j2)) as [|Hne]; [done|]. exfalso.
      assert (∀ j gj l lj, j ≠ i → gs !! j = Some gj →
                owner gj = Some (t, lj) →
                owner (resume e g w).1.1 = Some (t, l) → False) as Hclash.
      { intros j gj l lj Hji Hj Ho Ho'.
        destruct (Hmine _ _ Ho') as [_ [Hold|[_ Hfree]]].
        - apply Hji. by eapply Hexcl.
        - destruct (Hheld j gj t lj Hj Ho) as [h Hh]. by eapply Hfree. }
      destruct (decide (j1 = i)) as [->|Hne1], (decide (j2 = i)) as [->|Hne2];
        [done| | |].
      * rewrite list_lookup_insert_eq in H1 by (by eapply lookup_lt_Some).
        rewrite list_lookup_insert_ne in H2 by done. simplify_eq.
        by eapply Hclash.
      * rewrite list_lookup_insert_eq in H2 by (by eapply lookup_lt_Some).
        rewrite list_lookup_insert_ne in H1 by done. simplify_eq.
        by eapply Hclash.
      * rewrite list_lookup_insert_ne in H1, H2 by done.
        apply Hne. by eapply Hexcl.
  - pose proof (create_chat_frame ce uuid4 asset w Hnew) as Hframe.
    split; [by eapply frame_bound_ok|]. split; simpl; [|done].
    intros j gj t l Hj Ho. destruct (Hheld j gj t l Hj Ho) as [h Hh].
    exists h. destruct Hh as (Hc & Hb & Hl).
    eapply frame_keeps_held; [done| | |done].
    + intros ->. congruence.
    + destruct Hok as [_ Hvalid]. specialize (Hvalid _ _ Hb). lia.
Qed.

(** So every state the program reaches from a consistent one is
    consistent. *)
Corollary consistent_reachable (s s' : system) :
  consistent s → rtc step s s' → consistent s'.
Proof. intros Hs Hsteps. induction Hsteps; eauto using consistent_step. Qed.

(** The program started with nothing registered is consistent. *)
Lemma consistent_start (w : World) : consistent (mkSystem (restart w) []).
Proof.
  split; [|split]; simpl; [|done..].
  split; simpl; [intros t1 t2 l H|intros t l H]; by rewrite lookup_empty in H.
Qed.

(** In a consistent program, resuming one generator keeps to what every other
    suspended generator relies on, and so does [create_chat]: the
    interference that [run] allows for is all the program produces. *)
Theorem resume_within_rely (w : World) (gs : list gen) (i j : nat)
    (g gj : gen) (e : env) :
  consistent (mkSystem w gs) →
  gs !! i = Some g → gs !! j = Some gj → i ≠ j →
  rely gj w (resume e g w).2.
Proof.
  intros (Hok & Hheld & Hexcl) Hi Hj Hne. simpl in *. unfold rely.
  destruct (owner gj) as [[tid lk]|] eqn:Ho; [|done].
  destruct (Hheld j gj tid lk Hj Ho) as (h & Hc & Hb & Hl).
  apply resume_guarantee; [done..| |].
  - intros t Ht. destruct Hok as [Hinj _]. by eapply Hinj.
  - intros t l Ho'. split.
    + intros ->. apply Hne. by eapply Hexcl.
    + by destruct (Hheld i g t l Hi Ho') as (_ & _ & ? & _).
Qed.

Theorem create_chat_within_rely (w : World) (gs : list gen) (j : nat)
    (gj : gen) (ce : create_env) (uuid4 asset : string) :
  consistent (mkSystem w gs) →
  gs !! j = Some gj →
  chat_locks w !! uuid4 = None →
  rely gj w (create_chat ce uuid4 asset w).2.
Proof.
  intros (Hok & Hheld & Hexcl) Hj Hnew. simpl in *. unfold rely.
  destruct (owner gj) as [[tid lk]|] eqn:Ho; [|done].
  destruct (Hheld j gj tid lk Hj Ho) as (h & Hc & Hb & Hl).
  apply create_chat_guarantee; [|done]. intros ->. congruence.
Qed.

End System.

(** * The claims *)

(** C1. Whenever [send_message] has taken the lock of an existing thread, the
    generator ends, by return or by any exception, whatever was thrown into it
    and whatever failed (the executor, the answer, the write of the history,
    the stream), with the [processing] flag of the thread cleared and its lock
    free. *)
Theorem send_message_releases
    (tid message : string) (w : World) (c : chat)
    (e : env) (o : output) (tr : list (env * output)) (wf : World) :
  active_chats w !! tid = Some c →
  acquirable w tid →
  thrown e = None →
  run (Created tid message) w ((e, o) :: tr) wf →
  released tid wf.
Proof.
  intros Hc Hfree Hx Hrun.
  destruct (run_created _ _ _ _ _ _ _ _ Hc Hfree Hx Hrun)
    as (_ & lk & w1 & Hheld & _ & Hrun1).
  destruct (run_nonempty _ _ _ _ Hrun1) as (e2 & o2 & tr2 & ->).
  by destruct (run_executor_cases _ _ _ _ _ _ _ _ _ Hheld Hrun1) as [Hrel _].
Qed.

Lemma send_message_releases_witness :
  released "t1"
    (Scenario.final
       [Scenario.calm "2024-05-01T10:00:00" "";
        Scenario.disk_full "2024-05-01T10:00:02" "Yes."] "Is it?").
Proof.
  eapply (send_message_releases "t1" "Is it?" Scenario.idle _
            (Scenario.calm "2024-05-01T10:00:00" "") Suspend
            (tail (Scenario.trace
                     [Scenario.calm "2024-05-01T10:00:00" "";
                      Scenario.disk_full "2024-05-01T10:00:02" "Yes."] "Is it?"))).
  - vm_compute. reflexivity.
  - vm_compute. reflexivity.
  - reflexivity.
  - apply (exec_run [Scenario.calm "2024-05-01T10:00:00" "";
                     Scenario.disk_full "2024-05-01T10:00:02" "Yes."]).
    vm_compute. reflexivity.
Defined.

(** C2. When the lock of an existing thread is held, [send_message] hands out
    the busy notice as its one chunk and leaves the world as it found it
    (history, conversation chain and [processing] flag of the thread
    included); resumed again it ends, again without touching the world: no
    turn is run for this caller. *)
Theorem send_message_busy
    (tid message : string) (w : World) (c : chat) (lk : nat) (e : env) :
  active_chats w !! tid = Some c →
  chat_locks w !! tid = Some lk →
  locks w !! lk = Some true →
  thrown e = None →
  resume e (Created tid message) w = (YieldBusy, Yield busy_notice, w)
  ∧ (∀ e' w',
      resume e' YieldBusy w'
      = (Closed, match thrown e' with Some x => Raised x | None => Return end, w'))
  ∧ (∀ o tr wf,
      run (Created tid message) w ((e, o) :: tr) wf →
      chunks_of ((e, o) :: tr) = [busy_notice]
      ∧ ∃ e', tr = [(e', match thrown e' with
                         | Some x => Raised x
                         | None => Return
                         end)]).
Proof.
  intros Hc Hlk Hl Hx.
  assert (resume e (Created tid message) w = (YieldBusy, Yield busy_notice, w))
    as Hfirst.
  { simpl. rewrite Hx. unfold begin, get_lock, try_acquire, locked.
    by rewrite Hc, Hlk, Hl. }
  split; [done|]. split; [done|].
  intros o tr wf Hrun.
  inversion Hrun as [? ? ? ? ? ? Hres Hterm|? ? ? ? ? ? w2 ? ? Hres Hterm _ Hrun2];
    simplify_eq; rewrite Hfirst in Hres; simplify_eq.
  inversion Hrun2 as [e' ? ? ? ? ? Hres' Hterm'|e' ? ? ? ? ? ? ? ? Hres' Hterm' _ _];
    simplify_eq; simpl in Hres'; simplify_eq.
  - split; [|by exists e']. rewrite chunks_of_cons.
    unfold chunks_of. simpl. by destruct (thrown e').
  - by destruct (thrown e').
Qed.

Lemma send_message_busy_witness :
  resume (Scenario.calm "2024-05-01T10:00:01" "") (Created "t1" "second")
         Scenario.running
  = (YieldBusy, Yield busy_notice, Scenario.running)
  ∧ (∀ e' w',
      resume e' YieldBusy w'
      = (Closed, match thrown e' with Some x => Raised x | None => Return end, w'))
  ∧ (∀ o tr wf,
      run (Created "t1" "second") Scenario.running
          ((Scenario.calm "2024-05-01T10:00:01" "", o) :: tr) wf →
      chunks_of ((Scenario.calm "2024-05-01T10:00:01" "", o) :: tr) = [busy_notice]
      ∧ ∃ e', tr = [(e', match thrown e' with
                         | Some x => Raised x
                         | None => Return
                         end)]).
Proof.
  eapply (send_message_busy "t1" "second" Scenario.running _ 0).
  - vm_compute. reflexivity.
  - vm_compute. reflexivity.
  - vm_compute. reflexivity.
  - reflexivity.
Defined.

(** ** Order of the timestamps *)
Section Chronology.

Lemma not_after_trans (m1 m2 m3 : ChatMessage) :
  not_after m1 m2 → not_after m2 m3 → not_after m1 m3.
Proof.
  unfold not_after.
  destruct (timestamp m1), (timestamp m2), (timestamp m3); try done.
  intros ??. by etrans.
Qed.

(** A pair stamped by two readings in order extends a chronological history
    whose stamps are not after the first reading. *)
Lemma chronological_pair (h : list ChatMessage) (u a : ChatMessage) :
  chronological h → Forall (λ m, not_after m u) h → not_after u a →
  chronological (h ++ [u; a]).
Proof.
  intros Hh Hprior Hua. apply StronglySorted_app. split; [|split; [done|]].
  - intros m1 m2 Hm1 Hm2.
    rewrite Forall_forall in Hprior.
    apply elem_of_cons in Hm2 as [->|Hm2]; [by apply Hprior|].
    apply list_elem_of_singleton in Hm2 as ->.
    eapply not_after_trans; [by apply Hprior|done].
  - repeat constructor. done.
Qed.

End Chronology.

(** C3 (amended). A turn on an existing thread whose generation and write
    succeed appends exactly two messages at the end of the history and changes
    no earlier entry: the user message with the caller's text, then the
    assistant message with the generated answer, each stamped with the clock
    reading taken when it was made. The history stays in timestamp order when
    the clock did not run backwards: the earlier entries are not after the
    first reading and the first reading is not after the second. *)
Theorem send_message_appends_pair
    (tid message : string) (w : World) (c : chat)
    (e1 e2 : env) (o1 o2 : output) (tr : list (env * output)) (wf : World)
    (response : gmap string string) (answer : string) :
  active_chats w !! tid = Some c →
  acquirable w tid →
  thrown e1 = None →
  thrown e2 = None →
  executor e2 = Ok response →
  response !! "answer" = Some answer →
  fault e2 = None →
  run (Created tid message) w ((e1, o1) :: (e2, o2) :: tr) wf →
  history_of wf tid
  = Some (history c ++ [user_message message (now e1);
                        assistant_message answer (now e2)])
  ∧ (chronological (history c) →
     Forall (λ m, not_after m (user_message message (now e1))) (history c) →
     (now e1 ≤ now e2)%string →
     chronological (history c ++ [user_message message (now e1);
                                  assistant_message answer (now e2)])).
Proof.
  intros Hc Hfree Hx1 Hx2 Hexec Hanswer Hfault Hrun.
  destruct (run_created _ _ _ _ _ _ _ _ Hc Hfree Hx1 Hrun)
    as (_ & lk & w1 & Hheld & _ & Hrun1).
  destruct (run_executor_cases _ _ _ _ _ _ _ _ _ Hheld Hrun1) as [_ Hcases].
  rewrite Hx2, Hexec, Hanswer, Hfault in Hcases.
  destruct Hcases as (Hh & _). split.
  - by rewrite Hh, <- app_assoc.
  - intros Hsorted Hprior Hclock. by apply chronological_pair.
Qed.

Lemma send_message_appends_pair_witness :
  let script := [Scenario.calm "2024-05-01T10:00:00" "";
                 Scenario.calm "2024-05-01T10:00:02" "Yes.";
                 Scenario.calm "2024-05-01T10:00:02" "";
                 Scenario.calm "2024-05-01T10:00:02" ""] in
  history_of (Scenario.final script "Is it?") "t1"
  = Some ([] ++ [user_message "Is it?" "2024-05-01T10:00:00";
                 assistant_message "Yes." "2024-05-01T10:00:02"])
  ∧ (chronological [] →
     Forall (λ m, not_after m (user_message "Is it?" "2024-05-01T10:00:00")) [] →
     ("2024-05-01T10:00:00" ≤ "2024-05-01T10:00:02")%string →
     chronological ([] ++ [user_message "Is it?" "2024-05-01T10:00:00";
                           assistant_message "Yes." "2024-05-01T10:00:02"])).
Proof.
  intros script.
  eapply (send_message_appends_pair "t1" "Is it?" Scenario.idle
            (mkChat "a1" (mkChain "./chroma_db/a1" []) [] false)
            (Scenario.calm "2024-05-01T10:00:00" "")
            (Scenario.calm "2024-05-01T10:00:02" "Yes.")
            Suspend (Yield "Yes. ")
            (tail (tail (Scenario.trace script "Is it?")))).
  - vm_compute. reflexivity.
  - vm_compute. reflexivity.
  - reflexivity.
  - reflexivity.
  - reflexivity.
  - vm_compute. reflexivity.
  - reflexivity.
  - apply (exec_run script). vm_compute. reflexivity.
Defined.

(** C3 as stated fails: the stamps are readings of the wall clock
    ([datetime.now()]), which nothing forces to increase. Here the clock is
    set back an hour between the two readings of a turn that succeeds, and the
    assistant message is stamped before the user message it answers. *)
Lemma send_message_pair_not_chronological :
  let script := [Scenario.calm "2024-11-03T01:59:59" "";
                 Scenario.calm "2024-11-03T01:00:01" "Yes.";
                 Scenario.calm "2024-11-03T01:00:01" "";
                 Scenario.calm "2024-11-03T01:00:01" ""] in
  history_of Scenario.idle "t1" = Some []
  ∧ chunks_of (Scenario.trace script "Is it?") = ["Yes. "]
  ∧ outcome (Scenario.trace script "Is it?") = Some Return
  ∧ history_of (Scenario.final script "Is it?") "t1"
    = Some [user_message "Is it?" "2024-11-03T01:59:59";
            assistant_message "Yes." "2024-11-03T01:00:01"]
  ∧ ¬ chronological [user_message "Is it?" "2024-11-03T01:59:59";
                     assistant_message "Yes." "2024-11-03T01:00:01"].
Proof.
  intros script. split_and!; try (vm_compute; reflexivity).
  intros [H _]%StronglySorted_cons.
  apply Forall_cons in H as [H _]. vm_compute in H. done.
Qed.

(** C4. For every answer, whatever its tokens are (the answer is these
    tokens in order, with whitespace between and around them), the loop,
    resumed until it ends, hands out in order one chunk for each token, the
    token followed by one space, and a line-break chunk after every token but
    the last that ends in ['.'], ['!'] or ['?']; three resumptions for each
    token are enough to reach the end. The chunks, concatenated, have the
    same tokens as the answer, so both have the same whitespace-normalised
    text. An undisturbed turn of [send_message] delivers exactly these
    chunks. *)
Theorem presenter_chunks (answer : string) (tokens : list string) :
  Presenter.tokens_of answer tokens →
  Presenter.drain (3 * length tokens) (Presenter.present answer)
  = Some (Presenter.spec_chunks tokens)
  ∧ Presenter.tokens_of (PyStr.concat (Presenter.spec_chunks tokens)) tokens
  ∧ ∀ tid message w c e1 o1 e2 o2 tr wf response,
      active_chats w !! tid = Some c →
      acquirable w tid →
      executor e2 = Ok response →
      response !! "answer" = Some answer →
      fault e2 = None →
      run (Created tid message) w ((e1, o1) :: (e2, o2) :: tr) wf →
      undisturbed ((e1, o1) :: (e2, o2) :: tr) →
      chunks_of ((e1, o1) :: (e2, o2) :: tr) = Presenter.spec_chunks tokens
      ∧ outcome ((e1, o1) :: (e2, o2) :: tr) = Some Return.
Proof.
  intros Htokens.
  pose proof (tokens_of_split _ _ Htokens) as Hsplit.
  split; [|split].
  - unfold Presenter.present. rewrite Hsplit.
    rewrite drain_enter by done. f_equal. by apply stream_from_spec.
  - eapply tokens_of_spec_chunks, tokens_of_tokens, Htokens.
  - intros tid message w c e1 o1 e2 o2 tr wf response
      Hc Hfree Hexec Hanswer Hfault Hrun
      (Hx1 & (Hx2 & Hq)%undisturbed_cons)%undisturbed_cons.
    destruct (run_created _ _ _ _ _ _ _ _ Hc Hfree Hx1 Hrun)
      as (-> & lk & w1 & Hheld & _ & Hrun1).
    destruct (run_executor_cases _ _ _ _ _ _ _ _ _ Hheld Hrun1) as [_ Hcases].
    rewrite Hx2, Hexec, Hanswer, Hfault in Hcases.
    destruct Hcases as (_ & _ & Hchunks & _).
    destruct (Hchunks Hq) as [Hch Hout]. rewrite Hsplit in Hch.
    split; [by rewrite chunks_of_cons|by apply outcome_cons].
Qed.

Lemma presenter_chunks_witness :
  let answer := " Yes.  It" +:+ String "010" "is." in
  let tokens := ["Yes."; "It"; "is."] in
  Presenter.drain 9 (Presenter.present answer)
  = Some ["Yes. "; Presenter.newline; "It "; "is. "]
  ∧ Presenter.tokens_of
      (PyStr.concat ["Yes. "; Presenter.newline; "It "; "is. "]) tokens
  ∧ ∀ tid message w c e1 o1 e2 o2 tr wf response,
      active_chats w !! tid = Some c →
      acquirable w tid →
      executor e2 = Ok response →
      response !! "answer" = Some answer →
      fault e2 = None →
      run (Created tid message) w ((e1, o1) :: (e2, o2) :: tr) wf →
      undisturbed ((e1, o1) :: (e2, o2) :: tr) →
      chunks_of ((e1, o1) :: (e2, o2) :: tr)
      = ["Yes. "; Presenter.newline; "It "; "is. "]
      ∧ outcome ((e1, o1) :: (e2, o2) :: tr) = Some Return.
Proof.
  intros answer tokens.
  apply (presenter_chunks answer tokens).
  apply Presenter.tokens_space; [reflexivity|].
  apply (Presenter.tokens_more "Yes." " " (" It" +:+ String "010" "is."));
    [by split|reflexivity|].
  apply Presenter.tokens_space; [reflexivity|].
  apply (Presenter.tokens_more "It" "010" "is."); [by split|reflexivity|].
  apply Presenter.tokens_last. by split.
Defined.

(** C5 (amended). When the generation of a turn succeeds and the write of the
    history then fails, the exception of the write ends the generator before
    the streaming loop is reached: the caller receives no answer chunk and the
    exception. Both messages of the turn stay in the in-memory history, the
    [processing] flag is cleared and the lock is free. *)
Theorem send_message_write_failure
    (tid message : string) (w : World) (c : chat)
    (e1 e2 : env) (o1 o2 : output) (tr : list (env * output)) (wf : World)
    (response : gmap string string) (answer : string) (f : write_fault) :
  active_chats w !! tid = Some c →
  acquirable w tid →
  thrown e1 = None →
  thrown e2 = None →
  executor e2 = Ok response →
  response !! "answer" = Some answer →
  fault e2 = Some f →
  run (Created tid message) w ((e1, o1) :: (e2, o2) :: tr) wf →
  o2 = Raised (match f with OpenFails x | DumpFails x => x end)
  ∧ tr = []
  ∧ chunks_of ((e1, o1) :: (e2, o2) :: tr) = []
  ∧ history_of wf tid
    = Some (history c ++ [user_message message (now e1);
                          assistant_message answer (now e2)])
  ∧ released tid wf.
Proof.
  intros Hc Hfree Hx1 Hx2 Hexec Hanswer Hfault Hrun.
  destruct (run_created _ _ _ _ _ _ _ _ Hc Hfree Hx1 Hrun)
    as (-> & lk & w1 & Hheld & _ & Hrun1).
  destruct (run_executor_cases _ _ _ _ _ _ _ _ _ Hheld Hrun1) as [Hrel Hcases].
  rewrite Hx2, Hexec, Hanswer, Hfault in Hcases.
  rewrite <- app_assoc in Hcases.
  destruct f as [x|x]; destruct Hcases as (-> & -> & Hh & _); done.
Qed.

Lemma send_message_write_failure_witness :
  let script := [Scenario.calm "2024-05-01T10:00:00" "";
                 Scenario.disk_full "2024-05-01T10:00:02" "Yes."] in
  Raised (External "OSError") = Raised (External "OSError")
  ∧ @nil (env * output) = []
  ∧ chunks_of [(Scenario.calm "2024-05-01T10:00:00" "", Suspend);
               (Scenario.disk_full "2024-05-01T10:00:02" "Yes.",
                Raised (External "OSError"))] = []
  ∧ history_of (Scenario.final script "Is it?") "t1"
    = Some ([] ++ [user_message "Is it?" "2024-05-01T10:00:00";
                   assistant_message "Yes." "2024-05-01T10:00:02"])
  ∧ released "t1" (Scenario.final script "Is it?").
Proof.
  intros script.
  eapply (send_message_write_failure "t1" "Is it?" Scenario.idle
            (mkChat "a1" (mkChain "./chroma_db/a1" []) [] false)
            (Scenario.calm "2024-05-01T10:00:00" "")
            (Scenario.disk_full "2024-05-01T10:00:02" "Yes.")
            Suspend (Raised (External "OSError")) []
            (Scenario.final script "Is it?") _ "Yes."
            (OpenFails (External "OSError"))).
  - vm_compute. reflexivity.
  - vm_compute. reflexivity.
  - reflexivity.
  - reflexivity.
  - reflexivity.
  - vm_compute. reflexivity.
  - reflexivity.
  - apply (exec_run script). vm_compute. reflexivity.
Defined.

(** C5 as stated fails: the history is written before the loop that streams
    the answer, and nothing catches what the write raises. Here the executor
    answers "Yes." and the file cannot be opened: the caller gets the
    exception and none of the chunks of the answer. *)
Lemma send_message_write_failure_streams_nothing :
  let script := [Scenario.calm "2024-05-01T10:00:00" "";
                 Scenario.disk_full "2024-05-01T10:00:02" "Yes."] in
  Presenter.spec_chunks (PyStr.split "Yes.") = ["Yes. "]
  ∧ chunks_of (Scenario.trace script "Is it?") = []
  ∧ outcome (Scenario.trace script "Is it?") = Some (Raised (External "OSError")).
Proof. intros script. split_and!; vm_compute; reflexivity. Qed.

(** C6 (amended). [create_chat] does not look whether the asset has an index.
    When the directory of the index cannot be read, the call raises, whatever
    else happens: no thread id is returned and no thread is registered. That
    the asset has no index is no cause of failure: the vector store then
    creates an empty one, and when the result of the worker arrives at the
    [await] and the chain is built, [create_chat] returns the new thread id
    and has registered the thread. *)
Theorem create_chat_index (ce : create_env) (uuid4 asset : string) (w : World) :
  (chroma_db w !! ("./chroma_db/" +:+ asset) = Some Unreadable →
   ∃ x w', create_chat ce uuid4 asset w = (Raise x, w')
           ∧ active_chats w' = active_chats w)
  ∧ (chroma_db w !! ("./chroma_db/" +:+ asset) = None →
     arrives ce = Delivered →
     chain_error ce = None →
     ∃ w', create_chat ce uuid4 asset w = (Ok uuid4, w')
           ∧ active_chats w' !! uuid4
             = Some (mkChat asset (mkChain ("./chroma_db/" +:+ asset) []) [] false)
           ∧ chroma_db w' !! ("./chroma_db/" +:+ asset) = Some (Collection [])).
Proof.
  split.
  - intros Hindex.
    destruct (create_chat_cases ce uuid4 asset w)
      as [(_ & _ & _ & Hreadable)|(x & db & -> & _)]; [done|].
    by eexists _, _.
  - intros Hindex Harrives Hchain.
    destruct (create_chat_cases ce uuid4 asset w)
      as [(-> & _)|(x & db & _ & _ & Hcause)].
    + eexists. split; [done|]. simpl. rewrite Hindex.
      by rewrite !lookup_insert_eq.
    + destruct Hcause as [[b Hb]|(_ & [Hb|Hb])]; congruence.
Qed.

Lemma create_chat_index_witness :
  ∃ w', create_chat Scenario.quiet "t2" "nope" Scenario.fresh = (Ok "t2", w')
        ∧ active_chats w' !! "t2"
          = Some (mkChat "nope" (mkChain ("./chroma_db/" +:+ "nope") []) [] false)
        ∧ chroma_db w' !! ("./chroma_db/" +:+ "nope") = Some (Collection []).
Proof.
  apply (proj2 (create_chat_index Scenario.quiet "t2" "nope" Scenario.fresh)).
  - vm_compute. reflexivity.
  - reflexivity.
  - reflexivity.
Defined.

(** C6 as stated fails: an asset that was never indexed gets a thread. *)
Lemma create_chat_unknown_asset_succeeds :
  chroma_db Scenario.fresh !! "./chroma_db/nope" = None
  ∧ (create_chat Scenario.quiet "t2" "nope" Scenario.fresh).1 = Ok "t2"
  ∧ asset_id
      <$> active_chats (create_chat Scenario.quiet "t2" "nope" Scenario.fresh).2
          !! "t2"
    = Some "nope".
Proof. split_and!; vm_compute; reflexivity. Qed.

(** C7. When the call of the generation adapter fails in a turn that holds the
    lock, the user message appended before the call stays in the in-memory
    history as its last entry, the exception of the adapter leaves the
    generator, the [processing] flag is cleared and the lock is free. *)
Theorem send_message_adapter_failure
    (tid message : string) (w : World) (c : chat)
    (e1 e2 : env) (o1 o2 : output) (tr : list (env * output)) (wf : World)
    (x : exn) :
  active_chats w !! tid = Some c →
  acquirable w tid →
  thrown e1 = None →
  thrown e2 = None →
  executor e2 = Raise x →
  run (Created tid message) w ((e1, o1) :: (e2, o2) :: tr) wf →
  history_of wf tid = Some (history c ++ [user_message message (now e1)])
  ∧ o2 = Raised x
  ∧ tr = []
  ∧ released tid wf.
Proof.
  intros Hc Hfree Hx1 Hx2 Hexec Hrun.
  destruct (run_created _ _ _ _ _ _ _ _ Hc Hfree Hx1 Hrun)
    as (-> & lk & w1 & Hheld & _ & Hrun1).
  destruct (run_executor_cases _ _ _ _ _ _ _ _ _ Hheld Hrun1) as [Hrel Hcases].
  rewrite Hx2, Hexec in Hcases.
  by destruct Hcases as (-> & -> & Hh & _).
Qed.

Lemma send_message_adapter_failure_witness :
  let script := [Scenario.calm "2024-05-01T10:00:00" "";
                 Scenario.adapter_down "2024-05-01T10:00:02"] in
  history_of (Scenario.final script "Is it?") "t1"
  = Some ([] ++ [user_message "Is it?" "2024-05-01T10:00:00"])
  ∧ Raised (External "openai") = Raised (External "openai")
  ∧ @nil (env * output) = []
  ∧ released "t1" (Scenario.final script "Is it?").
Proof.
  intros script.
  eapply (send_message_adapter_failure "t1" "Is it?" Scenario.idle
            (mkChat "a1" (mkChain "./chroma_db/a1" []) [] false)
            (Scenario.calm "2024-05-01T10:00:00" "")
            (Scenario.adapter_down "2024-05-01T10:00:02")
            Suspend).
  - vm_compute. reflexivity.
  - vm_compute. reflexivity.
  - reflexivity.
  - reflexivity.
  - reflexivity.
  - apply (exec_run script). vm_compute. reflexivity.
Defined.

(** ** The history file *)
Section HistoryFile.

Lemma of_dict_to_dict (msg : ChatMessage) : of_dict (to_dict msg) = Ok msg.
Proof. destruct msg as [r c [t|]]; reflexivity. Qed.

Lemma comprehension_to_dict (h : list ChatMessage) :
  comprehension of_dict (to_dict <$> h) = Ok h.
Proof.
  induction h as [|msg h IH]; [done|].
  rewrite fmap_cons. cbn [comprehension]. by rewrite of_dict_to_dict, IH.
Qed.

(** Reading back what [_save_chat_history] wrote. *)
Lemma load_history_saved (h : list ChatMessage) : load_history (saved h) = Ok h.
Proof. apply comprehension_to_dict. Qed.

Lemma get_chat_history_from_file (tid : string) (h : list ChatMessage) (w : World) :
  active_chats w !! tid = None →
  history_file w tid = Some (saved h) →
  get_chat_history tid w = (Ok h, w).
Proof.
  unfold get_chat_history, history_file. intros -> ->.
  by rewrite load_history_saved.
Qed.

Lemma split_all_space (s : string) : PyStr.all_space s = true → PyStr.split s = [].
Proof.
  unfold PyStr.split. induction s as [|ch s IH]; [done|].
  simpl. intros [Hch Hs]%andb_true_iff. rewrite Hch. by apply IH.
Qed.

End HistoryFile.

(** C8. After a turn whose generation and write succeeded, the history file of
    the thread holds the in-memory history of the thread, and
    [get_chat_history] for this thread in a world where the thread is not
    registered and the file is the same (so after a restart of the process)
    reads and decodes the file to that very sequence: the same messages in the
    same order, each with its role, content and timestamp. *)
Theorem get_chat_history_roundtrip
    (tid message : string) (w : World) (c : chat)
    (e1 e2 : env) (o1 o2 : output) (tr : list (env * output)) (wf : World)
    (response : gmap string string) (answer : string) :
  active_chats w !! tid = Some c →
  acquirable w tid →
  thrown e1 = None →
  thrown e2 = None →
  executor e2 = Ok response →
  response !! "answer" = Some answer →
  fault e2 = None →
  run (Created tid message) w ((e1, o1) :: (e2, o2) :: tr) wf →
  ∃ h, history_of wf tid = Some h
       ∧ get_chat_history tid (restart wf) = (Ok h, restart wf)
       ∧ ∀ w', active_chats w' !! tid = None →
               history_file w' tid = history_file wf tid →
               get_chat_history tid w' = (Ok h, w').
Proof.
  intros Hc Hfree Hx1 Hx2 Hexec Hanswer Hfault Hrun.
  destruct (run_created _ _ _ _ _ _ _ _ Hc Hfree Hx1 Hrun)
    as (_ & lk & w1 & Hheld & _ & Hrun1).
  destruct (run_executor_cases _ _ _ _ _ _ _ _ _ Hheld Hrun1) as [_ Hcases].
  rewrite Hx2, Hexec, Hanswer, Hfault in Hcases.
  destruct Hcases as (Hh & Hfile & _).
  eexists. split; [exact Hh|]. split.
  - by apply get_chat_history_from_file.
  - intros w' Hgone Hsame. apply get_chat_history_from_file; [done|].
    by rewrite Hsame.
Qed.

Lemma get_chat_history_roundtrip_witness :
  let script := [Scenario.calm "2024-05-01T10:00:00" "";
                 Scenario.calm "2024-05-01T10:00:02" "Yes.";
                 Scenario.calm "2024-05-01T10:00:02" "";
                 Scenario.calm "2024-05-01T10:00:02" ""] in
  ∃ h, history_of (Scenario.final script "Is it?") "t1" = Some h
       ∧ get_chat_history "t1" (restart (Scenario.final script "Is it?"))
         = (Ok h, restart (Scenario.final script "Is it?"))
       ∧ ∀ w', active_chats w' !! "t1" = None →
               history_file w' "t1"
               = history_file (Scenario.final script "Is it?") "t1" →
               get_chat_history "t1" w' = (Ok h, w').
Proof.
  intros script.
  eapply (get_chat_history_roundtrip "t1" "Is it?" Scenario.idle
            (mkChat "a1" (mkChain "./chroma_db/a1" []) [] false)
            (Scenario.calm "2024-05-01T10:00:00" "")
            (Scenario.calm "2024-05-01T10:00:02" "Yes.")
            Suspend (Yield "Yes. ")
            (tail (tail (Scenario.trace script "Is it?")))).
  - vm_compute. reflexivity.
  - vm_compute. reflexivity.
  - reflexivity.
  - reflexivity.
  - reflexivity.
  - vm_compute. reflexivity.
  - reflexivity.
  - apply (exec_run script). vm_compute. reflexivity.
Defined.

(** C9. [send_message] looks a thread up in [active_chats] only: for a thread
    id that is not registered there it raises the not-found error and leaves
    the world as it is, also when a history file of the thread exists, from
    which [get_chat_history] returns the history. *)
Theorem send_message_not_rehydrated
    (tid message : string) (w : World) (h : list ChatMessage) (e : env) :
  active_chats w !! tid = None →
  history_file w tid = Some (saved h) →
  thrown e = None →
  resume e (Created tid message) w = (Closed, Raised (not_found tid), w)
  ∧ get_chat_history tid w = (Ok h, w).
Proof.
  intros Hgone Hfile Hx. split.
  - simpl. rewrite Hx. unfold begin. by rewrite Hgone.
  - by apply get_chat_history_from_file.
Qed.

Lemma send_message_not_rehydrated_witness :
  let script := [Scenario.calm "2024-05-01T10:00:00" "";
                 Scenario.calm "2024-05-01T10:00:02" "Yes.";
                 Scenario.calm "2024-05-01T10:00:02" "";
                 Scenario.calm "2024-05-01T10:00:02" ""] in
  let w := restart (Scenario.final script "Is it?") in
  let h := [user_message "Is it?" "2024-05-01T10:00:00";
            assistant_message "Yes." "2024-05-01T10:00:02"] in
  resume (Scenario.calm "2024-05-01T11:00:00" "") (Created "t1" "And now?") w
  = (Closed, Raised (not_found "t1"), w)
  ∧ get_chat_history "t1" w = (Ok h, w).
Proof.
  intros script w h.
  apply (send_message_not_rehydrated "t1" "And now?" w h).
  - vm_compute. reflexivity.
  - vm_compute. reflexivity.
  - reflexivity.
Defined.

(** C10. When the generation of a turn succeeds with an answer that is empty
    or all whitespace, the stream ends at once without a chunk; the assistant
    message with that answer as content is appended to the history all the
    same, and the history with it is written to the history file: after a
    restart of the process [get_chat_history] reads it back from there, the
    assistant message with its blank content included. *)
Theorem send_message_blank_answer
    (tid message : string) (w : World) (c : chat)
    (e1 e2 : env) (o1 o2 : output) (tr : list (env * output)) (wf : World)
    (response : gmap string string) (answer : string) :
  active_chats w !! tid = Some c →
  acquirable w tid →
  thrown e1 = None →
  thrown e2 = None →
  executor e2 = Ok response →
  response !! "answer" = Some answer →
  PyStr.all_space answer = true →
  fault e2 = None →
  run (Created tid message) w ((e1, o1) :: (e2, o2) :: tr) wf →
  o2 = Return
  ∧ tr = []
  ∧ chunks_of ((e1, o1) :: (e2, o2) :: tr) = []
  ∧ history_of wf tid
    = Some (history c ++ [user_message message (now e1);
                          assistant_message answer (now e2)])
  ∧ get_chat_history tid (restart wf)
    = (Ok (history c ++ [user_message message (now e1);
                         assistant_message answer (now e2)]), restart wf).
Proof.
  intros Hc Hfree Hx1 Hx2 Hexec Hanswer Hblank Hfault Hrun.
  destruct (run_created _ _ _ _ _ _ _ _ Hc Hfree Hx1 Hrun)
    as (-> & lk & w1 & Hheld & _ & Hrun1).
  destruct (run_executor_cases _ _ _ _ _ _ _ _ _ Hheld Hrun1) as [_ Hcases].
  rewrite Hx2, Hexec, Hanswer, Hfault in Hcases.
  rewrite <- app_assoc in Hcases.
  destruct Hcases as (Hh & Hfile & _ & Hdone).
  destruct (Hdone (split_all_space _ Hblank)) as [-> ->].
  split_and!; try done. by apply get_chat_history_from_file.
Qed.

Lemma send_message_blank_answer_witness :
  let script := [Scenario.calm "2024-05-01T10:00:00" "";
                 Scenario.calm "2024-05-01T10:00:02" "  "] in
  let h := [] ++ [user_message "Is it?" "2024-05-01T10:00:00";
                  assistant_message "  " "2024-05-01T10:00:02"] in
  Return = Return
  ∧ @nil (env * output) = []
  ∧ chunks_of [(Scenario.calm "2024-05-01T10:00:00" "", Suspend);
               (Scenario.calm "2024-05-01T10:00:02" "  ", Return)] = []
  ∧ history_of (Scenario.final script "Is it?") "t1" = Some h
  ∧ get_chat_history "t1" (restart (Scenario.final script "Is it?"))
    = (Ok h, restart (Scenario.final script "Is it?")).
Proof.
  intros script h.
  eapply (send_message_blank_answer "t1" "Is it?" Scenario.idle
            (mkChat "a1" (mkChain "./chroma_db/a1" []) [] false)
            (Scenario.calm "2024-05-01T10:00:00" "")
            (Scenario.calm "2024-05-01T10:00:02" "  ")
            Suspend Return [] (Scenario.final script "Is it?") _ "  ").
  - vm_compute. reflexivity.
  - vm_compute. reflexivity.
  - reflexivity.
  - reflexivity.
  - reflexivity.
  - vm_compute. reflexivity.
  - reflexivity.
  - reflexivity.
  - apply (exec_run script). vm_compute. reflexivity.
Defined.

(** * Further properties of the service *)

(** ** Calls that meet on one thread, and calls that follow each other *)
Section Turns.

Implicit Types (w : World) (tid message : string) (lk : nat)
  (h : list ChatMessage) (e : env).

(** While a turn is under way on a thread, a call for the thread is turned
    away. *)
Lemma held_busy e tid message lk h w :
  held tid lk h w → thrown e = None →
  resume e (Created tid message) w = (YieldBusy, Yield busy_notice, w).
Proof.
  intros [(c & Hc & _) [Hlk Hl]] Hx. simpl. rewrite Hx.
  unfold begin, get_lock, try_acquire, locked. by rewrite Hc, Hlk, Hl.
Qed.

Lemma released_acquirable tid w :
  released tid w → is_Some (active_chats w !! tid) ∧ acquirable w tid.
Proof.
  unfold released, processing_of, lock_state, acquirable.
  intros [Hp Hl]. split.
  - destruct (active_chats w !! tid); [by eexists|done].
  - destruct (chat_locks w !! tid) as [lk|]; [|done]. done.
Qed.

(** Every run that took the lock ends with the thread idle. *)
Lemma run_released tid message w c e o tr wf :
  active_chats w !! tid = Some c → acquirable w tid → thrown e = None →
  run (Created tid message) w ((e, o) :: tr) wf →
  released tid wf.
Proof.
  intros Hc Hfree Hx Hrun.
  destruct (run_created _ _ _ _ _ _ _ _ Hc Hfree Hx Hrun)
    as (_ & lk & w1 & Hheld & _ & Hrun1).
  destruct (run_nonempty _ _ _ _ Hrun1) as (e2 & o2 & tr2 & ->).
  by destruct (run_executor_cases _ _ _ _ _ _ _ _ _ Hheld Hrun1) as [Hrel _].
Qed.

End Turns.

(** X1. Of two calls of [send_message] that meet on an idle thread, the first
    to be resumed takes the lock (making it if the thread has none) and waits
    for the executor; the second, resumed before the first has ended, gets the
    busy notice and leaves the world as the first call left it. *)
Theorem send_message_second_call_busy
    (tid m1 m2 : string) (w : World) (c : chat) (e1 e2 : env) :
  active_chats w !! tid = Some c →
  acquirable w tid →
  thrown e1 = None →
  thrown e2 = None →
  ∃ lk w1,
    resume e1 (Created tid m1) w = (AwaitExecutor tid m1 lk, Suspend, w1)
    ∧ history_of w1 tid = Some (history c ++ [user_message m1 (now e1)])
    ∧ resume e2 (Created tid m2) w1 = (YieldBusy, Yield busy_notice, w1).
Proof.
  intros Hc Hfree Hx1 Hx2.
  destruct (begin_acquires e1 tid m1 w c Hc Hfree) as (lk & w1 & Hbegin & Hheld & _).
  exists lk, w1. split; [by simpl; rewrite Hx1|]. split.
  - destruct Hheld as [(c1 & Hc1 & Hh & _) _]. unfold history_of.
    by rewrite Hc1; simpl; rewrite Hh.
  - by eapply held_busy.
Qed.

Lemma send_message_second_call_busy_witness :
  ∃ lk w1,
    resume (Scenario.calm "2024-05-01T10:00:00" "") (Created "t1" "one")
           Scenario.idle
    = (AwaitExecutor "t1" "one" lk, Suspend, w1)
    ∧ history_of w1 "t1"
      = Some ([] ++ [user_message "one" "2024-05-01T10:00:00"])
    ∧ resume (Scenario.calm "2024-05-01T10:00:01" "") (Created "t1" "two") w1
      = (YieldBusy, Yield busy_notice, w1).
Proof.
  apply (send_message_second_call_busy "t1" "one" "two" Scenario.idle
           (mkChat "a1" (mkChain "./chroma_db/a1" []) [] false)).
  - vm_compute. reflexivity.
  - vm_compute. reflexivity.
  - reflexivity.
  - reflexivity.
Defined.

(** X2. After a call of [send_message] that took the lock has ended, however
    it ended, the next call for the thread is not turned away: it takes the
    lock again and appends its user message to the history the first call
    left. *)
Theorem send_message_next_call_acquires
    (tid m1 m2 : string) (w : World) (c : chat)
    (e1 : env) (o1 : output) (tr : list (env * output)) (wf : World) (e : env) :
  active_chats w !! tid = Some c →
  acquirable w tid →
  thrown e1 = None →
  run (Created tid m1) w ((e1, o1) :: tr) wf →
  thrown e = None →
  ∃ h lk w1,
    history_of wf tid = Some h
    ∧ resume e (Created tid m2) wf = (AwaitExecutor tid m2 lk, Suspend, w1)
    ∧ held tid lk (h ++ [user_message m2 (now e)]) w1.
Proof.
  intros Hc Hfree Hx1 Hrun Hx.
  pose proof (run_released _ _ _ _ _ _ _ _ Hc Hfree Hx1 Hrun) as Hrel.
  destruct (released_acquirable _ _ Hrel) as [[cf Hcf] Hfree'].
  destruct (begin_acquires e tid m2 wf cf Hcf Hfree') as (lk & w1 & Hbegin & Hheld & _).
  exists (history cf), lk, w1. split; [|split; [|done]].
  - unfold history_of. by rewrite Hcf.
  - simpl. by rewrite Hx.
Qed.

Lemma send_message_next_call_acquires_witness :
  let script := [Scenario.calm "2024-05-01T10:00:00" "";
                 Scenario.adapter_down "2024-05-01T10:00:02"] in
  ∃ h lk w1,
    history_of (Scenario.final script "one") "t1" = Some h
    ∧ resume (Scenario.calm "2024-05-01T10:00:05" "") (Created "t1" "two")
             (Scenario.final script "one")
      = (AwaitExecutor "t1" "two" lk, Suspend, w1)
    ∧ held "t1" lk (h ++ [user_message "two" "2024-05-01T10:00:05"]) w1.
Proof.
  intros script.
  eapply (send_message_next_call_acquires "t1" "one" "two" Scenario.idle
            (mkChat "a1" (mkChain "./chroma_db/a1" []) [] false)
            (Scenario.calm "2024-05-01T10:00:00" "") Suspend
            (tail (Scenario.trace script "one"))).
  - vm_compute. reflexivity.
  - vm_compute. reflexivity.
  - reflexivity.
  - apply (exec_run script). vm_compute. reflexivity.
  - reflexivity.
Defined.

(** ** A thread from its creation on *)
Section Creation.

Implicit Types (w : World) (tid message : string) (h : list ChatMessage).

Lemma create_chat_Ok (ce : create_env) (uuid4 asset tid : string) w w0 :
  create_chat ce uuid4 asset w = (Ok tid, w0) →
  tid = uuid4
  ∧ active_chats w0 !! tid
    = Some (mkChat asset (mkChain ("./chroma_db/" +:+ asset) []) [] false)
  ∧ chat_locks w0 !! tid = Some (length (locks w))
  ∧ locks w0 = locks w ++ [false].
Proof.
  destruct (create_chat_cases ce uuid4 asset w)
    as [(-> & _)|(x & db & -> & _)]; [|done].
  intros [= <- <-]. simpl. by rewrite !lookup_insert_eq.
Qed.

Lemma create_chat_Raise (ce : create_env) (uuid4 asset : string) (x : exn) w w' :
  create_chat ce uuid4 asset w = (Raise x, w') →
  let directory := "./chroma_db/" +:+ asset in
  ((∃ worker_runs, arrives ce = Interrupted x worker_runs)
   ∨ (arrives ce = Delivered
      ∧ (chroma_db w !! directory = Some Unreadable ∨ chain_error ce = Some x)))
  ∧ ∃ db,
      w' = mkWorld (active_chats w) (<[uuid4 := length (locks w)]> (chat_locks w))
                   (locks w ++ [false]) (chat_history w) db
      ∧ (db = chroma_db w
         ∨ (chroma_db w !! directory = None
            ∧ db = <[directory := Collection []]> (chroma_db w))).
Proof.
  destruct (create_chat_cases ce uuid4 asset w)
    as [(-> & _)|(x' & db & -> & Hdb & Hcause)]; [done|].
  intros [= <- <-] directory. split; [done|]. exists db. split; [done|].
  destruct Hdb as [->| ->]; [by left|]. subst directory.
  destruct (chroma_db w !! ("./chroma_db/" +:+ asset)); [by left|by right].
Qed.

Lemma get_chat_history_active tid h w :
  history_of w tid = Some h → get_chat_history tid w = (Ok h, w).
Proof.
  unfold history_of, get_chat_history.
  destruct (active_chats w !! tid); intros; by simplify_eq/=.
Qed.

Lemma is_processing_released tid w :
  released tid w → is_processing tid w = (Ok false, w).
Proof.
  unfold released, processing_of, is_processing. intros [Hp _].
  destruct (active_chats w !! tid) as [c|]; simpl in *; [|done].
  by injection Hp as ->.
Qed.

End Creation.

(** X3. A thread that [create_chat] has just made has an empty history and is
    not processing; after its first turn, when generation and write succeed,
    [get_chat_history] returns exactly the user message and the assistant
    message, in this order, and [is_processing] is false again; and after a
    restart of the process [get_chat_history] reads the same two messages,
    with their roles, contents and timestamps, from the history file. *)
Theorem create_chat_then_first_turn
    (ce : create_env) (uuid4 asset tid message : string) (w w0 : World)
    (e1 e2 : env) (o1 o2 : output) (tr : list (env * output)) (wf : World)
    (response : gmap string string) (answer : string) :
  create_chat ce uuid4 asset w = (Ok tid, w0) →
  thrown e1 = None →
  thrown e2 = None →
  executor e2 = Ok response →
  response !! "answer" = Some answer →
  fault e2 = None →
  run (Created tid message) w0 ((e1, o1) :: (e2, o2) :: tr) wf →
  get_chat_history tid w0 = (Ok [], w0)
  ∧ is_processing tid w0 = (Ok false, w0)
  ∧ get_chat_history tid wf
    = (Ok [user_message message (now e1); assistant_message answer (now e2)], wf)
  ∧ is_processing tid wf = (Ok false, wf)
  ∧ get_chat_history tid (restart wf)
    = (Ok [user_message message (now e1); assistant_message answer (now e2)],
       restart wf).
Proof.
  intros Hcreate Hx1 Hx2 Hexec Hanswer Hfault Hrun.
  destruct (create_chat_Ok _ _ _ _ _ _ Hcreate) as (-> & Hc & Hlk & Hlocks).
  assert (acquirable w0 uuid4) as Hfree.
  { unfold acquirable. rewrite Hlk, Hlocks.
    by rewrite lookup_app_r, Nat.sub_diag. }
  destruct (run_created _ _ _ _ _ _ _ _ Hc Hfree Hx1 Hrun)
    as (_ & lk & w1 & Hheld & _ & Hrun1).
  destruct (run_executor_cases _ _ _ _ _ _ _ _ _ Hheld Hrun1) as [Hrel Hcases].
  rewrite Hx2, Hexec, Hanswer, Hfault in Hcases.
  destruct Hcases as (Hh & Hfile & _).
  split_and!.
  - apply get_chat_history_active. unfold history_of. by rewrite Hc.
  - unfold is_processing. by rewrite Hc.
  - by apply get_chat_history_active.
  - by apply is_processing_released.
  - by apply get_chat_history_from_file.
Qed.

Lemma create_chat_then_first_turn_witness :
  let w0 := (create_chat Scenario.quiet "t7" "a1" Scenario.fresh).2 in
  let e1 := Scenario.calm "2024-05-01T10:00:00" "" in
  let e2 := Scenario.calm "2024-05-01T10:00:02" "Yes." in
  let script := [e1; e2; e2; e2] in
  let wf := match exec script (Created "t7" "Is it?") w0 with
            | Some (_, wf) => wf
            | None => w0
            end in
  get_chat_history "t7" w0 = (Ok [], w0)
  ∧ is_processing "t7" w0 = (Ok false, w0)
  ∧ get_chat_history "t7" wf
    = (Ok [user_message "Is it?" "2024-05-01T10:00:00";
           assistant_message "Yes." "2024-05-01T10:00:02"], wf)
  ∧ is_processing "t7" wf = (Ok false, wf)
  ∧ get_chat_history "t7" (restart wf)
    = (Ok [user_message "Is it?" "2024-05-01T10:00:00";
           assistant_message "Yes." "2024-05-01T10:00:02"], restart wf).
Proof.
  intros w0 e1 e2 script wf.
  eapply (create_chat_then_first_turn Scenario.quiet "t7" "a1" "t7" "Is it?"
            Scenario.fresh w0 e1 e2 Suspend (Yield "Yes. ")
            [(e2, Suspend); (e2, Return)] wf).
  - vm_compute. reflexivity.
  - reflexivity.
  - reflexivity.
  - reflexivity.
  - vm_compute. reflexivity.
  - reflexivity.
  - apply (exec_run script). vm_compute. reflexivity.
Defined.

(** X4. When [create_chat] raises, because an exception arrived at the
    [await] of the executor, because the directory of the index cannot be
    read, or because the chain could not be built, it has by then made a lock
    and bound it to the new thread id, and that entry stays. The threads and
    the history files are as they were, and so are the indexes, except that
    the worker may have made the empty index of an asset that had none. The
    id names no thread: a call of [send_message] for it raises the not-found
    error and [is_processing] is false. *)
Theorem create_chat_failure_leaves_lock
    (ce : create_env) (uuid4 asset : string) (x : exn) (w w' : World) :
  create_chat ce uuid4 asset w = (Raise x, w') →
  active_chats w !! uuid4 = None →
  ((∃ worker_runs, arrives ce = Interrupted x worker_runs)
   ∨ (arrives ce = Delivered
      ∧ (chroma_db w !! ("./chroma_db/" +:+ asset) = Some Unreadable
         ∨ chain_error ce = Some x)))
  ∧ chat_locks w' = <[uuid4 := length (locks w)]> (chat_locks w)
  ∧ locks w' = locks w ++ [false]
  ∧ active_chats w' = active_chats w
  ∧ chat_history w' = chat_history w
  ∧ (chroma_db w' = chroma_db w
     ∨ (chroma_db w !! ("./chroma_db/" +:+ asset) = None
        ∧ chroma_db w'
          = <["./chroma_db/" +:+ asset := Collection []]> (chroma_db w)))
  ∧ is_processing uuid4 w' = (Ok false, w')
  ∧ ∀ e message,
      thrown e = None →
      resume e (Created uuid4 message) w' = (Closed, Raised (not_found uuid4), w').
Proof.
  intros Hcreate Hnew.
  destruct (create_chat_Raise _ _ _ _ _ _ Hcreate) as (Hcause & db & -> & Hdb).
  split_and!; try done.
  - unfold is_processing. simpl. by rewrite Hnew.
  - intros e message Hx. simpl. rewrite Hx. unfold begin. simpl. by rewrite Hnew.
Qed.

Lemma create_chat_failure_leaves_lock_witness :
  let ce := mkCreateEnv (Interrupted CancelledError true) None in
  let w := Scenario.fresh in
  let w' := (create_chat ce "t9" "a9" w).2 in
  ((∃ worker_runs, arrives ce = Interrupted CancelledError worker_runs)
   ∨ (arrives ce = Delivered
      ∧ (chroma_db w !! ("./chroma_db/" +:+ "a9") = Some Unreadable
         ∨ chain_error ce = Some CancelledError)))
  ∧ chat_locks w' = <["t9" := length (locks w)]> (chat_locks w)
  ∧ locks w' = locks w ++ [false]
  ∧ active_chats w' = active_chats w
  ∧ chat_history w' = chat_history w
  ∧ (chroma_db w' = chroma_db w
     ∨ (chroma_db w !! ("./chroma_db/" +:+ "a9") = None
        ∧ chroma_db w'
          = <["./chroma_db/" +:+ "a9" := Collection []]> (chroma_db w)))
  ∧ is_processing "t9" w' = (Ok false, w')
  ∧ ∀ e message,
      thrown e = None →
      resume e (Created "t9" message) w' = (Closed, Raised (not_found "t9"), w').
Proof.
  intros ce w w'.
  apply (create_chat_failure_leaves_lock ce "t9" "a9" CancelledError w w').
  - vm_compute. reflexivity.
  - vm_compute. reflexivity.
Defined.

(** X5. When the generation of a turn succeeds and the write of the history
    fails, the history in memory and the history file part ways:
    [get_chat_history] keeps returning both messages of the turn while the
    process lives; when the file could not be opened, the file is the one
    from before the turn, so after a restart the turn is missing; when the
    write failed after the file was opened, the file does not parse, and
    after a restart [get_chat_history] raises the decoding error. *)
Theorem write_failure_durable_record
    (tid message : string) (w : World) (c : chat)
    (e1 e2 : env) (o1 o2 : output) (tr : list (env * output)) (wf : World)
    (response : gmap string string) (answer : string) (f : write_fault) :
  active_chats w !! tid = Some c →
  acquirable w tid →
  thrown e1 = None →
  thrown e2 = None →
  executor e2 = Ok response →
  response !! "answer" = Some answer →
  fault e2 = Some f →
  run (Created tid message) w ((e1, o1) :: (e2, o2) :: tr) wf →
  get_chat_history tid wf
  = (Ok (history c ++ [user_message message (now e1);
                       assistant_message answer (now e2)]), wf)
  ∧ match f with
    | OpenFails _ =>
        history_file wf tid = history_file w tid
        ∧ (get_chat_history tid (restart wf)).1
          = (get_chat_history tid (restart w)).1
    | DumpFails _ =>
        history_file wf tid = Some Corrupt
        ∧ get_chat_history tid (restart wf) = (Raise JSONDecodeError, restart wf)
    end.
Proof.
  intros Hc Hfree Hx1 Hx2 Hexec Hanswer Hfault Hrun.
  destruct (run_created _ _ _ _ _ _ _ _ Hc Hfree Hx1 Hrun)
    as (_ & lk & w1 & Hheld & Hfile1 & Hrun1).
  destruct (run_executor_cases _ _ _ _ _ _ _ _ _ Hheld Hrun1) as [_ Hcases].
  rewrite Hx2, Hexec, Hanswer, Hfault in Hcases.
  rewrite <- app_assoc in Hcases.
  destruct f as [x|x]; destruct Hcases as (_ & _ & Hh & Hfile).
  - split; [by apply get_chat_history_active|].
    assert (history_file wf tid = history_file w tid) as Hsame by congruence.
    split; [done|].
    unfold get_chat_history, history_file in *. simpl.
    rewrite !lookup_empty, Hsame.
    by destruct (chat_history w !! history_path tid).
  - split; [by apply get_chat_history_active|]. split; [done|].
    unfold get_chat_history, history_file in *. simpl.
    by rewrite lookup_empty, Hfile.
Qed.

Lemma write_failure_durable_record_witness :
  let e1 := Scenario.calm "2024-05-01T10:00:00" "" in
  let e2 := mkEnv None "2024-05-01T10:00:02" (Ok {[ "answer" := "Yes." ]}) id
                  (Some (DumpFails (External "OSError"))) in
  let wf := match exec [e1; e2] (Created "t1" "Is it?") Scenario.idle with
            | Some (_, wf) => wf
            | None => Scenario.idle
            end in
  get_chat_history "t1" wf
  = (Ok ([] ++ [user_message "Is it?" "2024-05-01T10:00:00";
                assistant_message "Yes." "2024-05-01T10:00:02"]), wf)
  ∧ (history_file wf "t1" = Some Corrupt
     ∧ get_chat_history "t1" (restart wf) = (Raise JSONDecodeError, restart wf)).
Proof.
  intros e1 e2 wf.
  eapply (write_failure_durable_record "t1" "Is it?" Scenario.idle
            (mkChat "a1" (mkChain "./chroma_db/a1" []) [] false)
            e1 e2 Suspend (Raised (External "OSError")) [] wf _ "Yes."
            (DumpFails (External "OSError"))).
  - vm_compute. reflexivity.
  - vm_compute. reflexivity.
  - reflexivity.
  - reflexivity.
  - reflexivity.
  - vm_compute. reflexivity.
  - reflexivity.
  - apply (exec_run [e1; e2]). vm_compute. reflexivity.
Defined.

(** A witness of [exec_total]: an answer of three words, driven to its end by
    a script of eleven resumptions. *)
Lemma exec_total_witness :
  is_Some (exec (Scenario.calm "2024-05-01T10:00:00" ""
                   :: Scenario.calm "2024-05-01T10:00:02" "Yes. It is."
                   :: replicate 9 (Scenario.calm "2024-05-01T10:00:02" ""))
                (Created "t1" "Is it?") Scenario.idle).
Proof.
  apply (exec_total (Scenario.calm "2024-05-01T10:00:00" "")
           (Scenario.calm "2024-05-01T10:00:02" "Yes. It is.")
           (replicate 9 (Scenario.calm "2024-05-01T10:00:02" ""))
           "t1" "Is it?" Scenario.idle).
  vm_compute. lia.
Defined.

(** ** What [send_message] leaves alone *)
Section Isolation.

Implicit Types (w : World) (t tid : string) (e : env) (g : gen).

Lemma grows_refl w : grows w w.
Proof. intros t h Hh. exists []. by rewrite app_nil_r. Qed.

Lemma grows_trans w1 w2 w3 : grows w1 w2 → grows w2 w3 → grows w1 w3.
Proof.
  intros H12 H23 t h Hh.
  destruct (H12 t h Hh) as [h1 Hh1]. destruct (H23 t _ Hh1) as [h2 Hh2].
  exists (h1 ++ h2). by rewrite app_assoc.
Qed.

Lemma grows_same_chats w w' : active_chats w' = active_chats w → grows w w'.
Proof.
  intros Hsame t h Hh. exists []. unfold history_of in *.
  by rewrite Hsame, app_nil_r.
Qed.

(** An entry is replaced by one whose history continues the old one. *)
Lemma grows_update t (c c' : chat) (more : list ChatMessage) w :
  active_chats w !! t = Some c →
  history c' = history c ++ more →
  grows w (set_active_chats <[t := c']> w).
Proof.
  intros Hc Hmore t' h Hh. unfold history_of in *. simpl.
  destruct (decide (t = t')) as [<-|Ht].
  - rewrite lookup_insert_eq. rewrite Hc in Hh. simpl in *.
    exists more. congruence.
  - rewrite lookup_insert_ne by done. exists []. by rewrite app_nil_r.
Qed.

Lemma growing_ret {A} (a : A) : growing (ret a).
Proof. intros w. apply grows_refl. Qed.

Lemma growing_raise {A} (x : exn) : growing (raise (A:=A) x).
Proof. intros w. apply grows_refl. Qed.

Lemma growing_lift {A} (r : result A) : growing (lift r).
Proof. intros w. apply grows_refl. Qed.

Lemma growing_bind {A B} (m : M A) (k : A → M B) :
  growing m → (∀ a, growing (k a)) → growing (bind m k).
Proof.
  intros Hm Hk w. unfold bind. specialize (Hm w).
  destruct (m w) as [[a|x] w']; [|done].
  eapply grows_trans; [done|apply Hk].
Qed.

Lemma growing_set_processing t (b : bool) : growing (set_processing t b).
Proof.
  intros w. unfold set_processing, bind, the_chat, modify.
  destruct (active_chats w !! t) as [c|] eqn:Hc; [|apply grows_refl].
  eapply (grows_update t c _ []); [done|]. simpl. by rewrite app_nil_r.
Qed.

Lemma growing_history_append t (msg : ChatMessage) : growing (history_append t msg).
Proof.
  intros w. unfold history_append, bind, the_chat, modify.
  destruct (active_chats w !! t) as [c|] eqn:Hc; [|apply grows_refl].
  by eapply (grows_update t c _ [msg]).
Qed.

Lemma growing_save t (flt : option write_fault) : growing (_save_chat_history flt t).
Proof.
  apply growing_bind.
  { intros w. unfold the_chat. destruct (active_chats w !! t); apply grows_refl. }
  intros c. destruct flt as [[x|x]|].
  - apply growing_raise.
  - apply growing_bind; [|intros _; apply growing_raise].
    intros w. by apply grows_same_chats.
  - intros w. by apply grows_same_chats.
Qed.

Lemma growing_finally t (l : nat) : growing (finally_block t l).
Proof.
  apply growing_bind; [apply growing_set_processing|]. intros _ w.
  unfold release. destruct (locked w l); [by apply grows_same_chats|apply grows_refl].
Qed.

Lemma growing_after_invoke t (l : nat) e (message : string) :
  growing (after_invoke e t message l).
Proof.
  intros w. unfold after_invoke.
  unfold bind at 1. unfold the_chat at 1.
  destruct (active_chats w !! t) as [c|] eqn:Hc; [|apply grows_refl].
  unfold bind at 1. unfold modify at 1.
  match goal with
  | |- grows _ (?m ?w1).2 =>
      assert (growing m) as Hrest; [|apply (grows_trans w w1); [|apply Hrest]]
  end.
  - apply growing_bind; [apply growing_lift|]. intros response.
    apply growing_bind.
    { destruct (response !! "answer"); [apply growing_ret|apply growing_raise]. }
    intros a.
    apply growing_bind; [apply growing_history_append|]. intros _.
    apply growing_bind; [apply growing_save|]. intros _. apply growing_ret.
  - eapply (grows_update t c _ []); [done|]. simpl. by rewrite app_nil_r.
Qed.

Lemma in_try_grows t (l : nat) (body : M pause) w :
  growing body → grows w (in_try t l body w).2.
Proof.
  intros Hbody. unfold in_try. specialize (Hbody w).
  pose proof (growing_finally t l (body w).2) as Hfin.
  destruct (body w) as [[[chunk g|g|]|x] w1]; simpl in *; try done.
  - destruct (finally_block t l w1) as [[[]|x] w2]; simpl in *;
      by eapply grows_trans.
  - destruct (finally_block t l w1) as [[[]|x'] w2]; simpl in *;
      by eapply grows_trans.
Qed.

Lemma growing_deliver {A} e (m : M A) : growing m → growing (deliver e m).
Proof. intros Hm. unfold deliver. destruct (thrown e); [apply growing_raise|done]. Qed.

End Isolation.

(** X6. One resumption of a [send_message] generator, in whatever state and
    world and whatever the surroundings supply, removes or alters no entry of
    any history: the history a thread had is an initial part of the history
    it has afterwards. *)
Theorem resume_history_grows
    (e : env) (g : gen) (w : World) (t : string) (h : list ChatMessage) :
  history_of w t = Some h →
  ∃ more, history_of (resume e g w).2 t = Some (h ++ more).
Proof.
  revert t h. change (grows w (resume e g w).2).
  destruct g as [tid message| |tid message l|tid l k|]; simpl;
    try apply grows_refl.
  - destruct (thrown e); [apply grows_refl|].
    unfold begin. destruct (active_chats w !! tid); [|apply grows_refl].
    assert (grows w (get_lock tid w).2) as Hlock.
    { unfold get_lock. destruct (chat_locks w !! tid); [apply grows_refl|].
      by apply grows_same_chats. }
    destruct (get_lock tid w) as [[lk|x] w1]; [|done]. simpl in Hlock.
    assert (grows w1 (try_acquire lk w1).2) as Hacq.
    { unfold try_acquire. destruct (locked w1 lk); [apply grows_refl|].
      by apply grows_same_chats. }
    destruct (try_acquire lk w1) as [[[]|x] w2]; simpl in Hacq;
      try (by eapply grows_trans).
    eapply grows_trans; [done|]. eapply grows_trans; [done|].
    apply in_try_grows.
    apply growing_bind; [apply growing_set_processing|]. intros _.
    apply growing_bind; [apply growing_history_append|]. intros _.
    apply growing_ret.
  - apply in_try_grows, growing_deliver, growing_after_invoke.
  - apply in_try_grows, growing_deliver, growing_ret.
Qed.

Lemma resume_history_grows_witness :
  ∃ more,
    history_of (resume (Scenario.calm "2024-05-01T10:00:02" "Yes.")
                       (AwaitExecutor "t1" "first" 0) Scenario.running).2 "t1"
    = Some ([user_message "first" "2024-05-01T10:00:00"] ++ more).
Proof.
  apply (resume_history_grows (Scenario.calm "2024-05-01T10:00:02" "Yes.")
           (AwaitExecutor "t1" "first" 0) Scenario.running "t1").
  vm_compute. reflexivity.
Defined.

(** X7. One resumption of a [send_message] generator leaves every thread
    other than the one it was called for as it is: the entry in
    [active_chats] (history, flag, chain), the lock bound to it and its
    history file. *)
Theorem resume_other_threads (e : env) (g : gen) (w : World) (t : string) :
  called_for g ≠ Some t →
  active_chats (resume e g w).2 !! t = active_chats w !! t
  ∧ chat_locks (resume e g w).2 !! t = chat_locks w !! t
  ∧ history_file (resume e g w).2 t = history_file w t.
Proof.
  intros Hother. pose proof (resume_frame e g w) as Hframe.
  destruct g as [tid message| |tid message l|tid l k|]; simpl in Hframe, Hother;
    try (by simpl);
    (assert (t ≠ tid) as Hne by congruence);
    destruct Hframe as [Hchats Hbind _ Hfiles _ _ _ _ _];
    unfold history_file; auto.
Qed.

Lemma resume_other_threads_witness :
  let w := (create_chat Scenario.quiet "t2" "a1" Scenario.running).2 in
  let w' := (resume (Scenario.calm "2024-05-01T10:00:02" "Yes.")
                    (AwaitExecutor "t1" "first" 0) w).2 in
  active_chats w' !! "t2" = active_chats w !! "t2"
  ∧ chat_locks w' !! "t2" = chat_locks w !! "t2"
  ∧ history_file w' "t2" = history_file w "t2".
Proof.
  intros w w'.
  apply (resume_other_threads (Scenario.calm "2024-05-01T10:00:02" "Yes.")
           (AwaitExecutor "t1" "first" 0) w "t2").
  simpl. congruence.
Defined.

(** ** The stream never shows anything but the answer *)
Section Prefix.

Implicit Types (w : World) (tid : string) (lk : nat) (tr : list (env * output)).

Lemma chunks_of_end (e : env) (o : output) :
  terminal o = true → chunks_of [(e, o)] = [].
Proof. by destruct o. Qed.

(** A run that starts inside the loop hands out an initial part of the chunks
    pending there. *)
Lemma run_streaming_prefix tid lk (g : gen) w tr wf :
  run g w tr wf →
  ∀ k, g = Streaming tid lk k → chunks_of tr `prefix_of` pending k.
Proof.
  induction 1 as [e g w g' o w' Hres Hterm
                 |e g w g' o w' w'' tr wf Hres Hterm Hrely Hrun IH];
    intros k ->.
  - rewrite chunks_of_end by done. apply prefix_nil.
  - simpl in Hres. unfold in_try, deliver, raise, ret in Hres.
    destruct (thrown e).
    { destruct (finally_block tid lk w) as [[[]|x'] w1]; by simplify_eq. }
    rewrite pending_advance, chunks_of_cons.
    destruct (Presenter.advance k) as [chunk k'|k'|]; simpl in Hres.
    + simplify_eq. simpl. apply prefix_cons. by apply IH.
    + simplify_eq. simpl. by apply IH.
    + destruct (finally_block tid lk w) as [[[]|x'] w1]; by simplify_eq.
Qed.

(** The same for a run that starts at the wait for the executor. *)
Lemma run_executor_prefix tid (message : string) lk w e o tr wf :
  run (AwaitExecutor tid message lk) w ((e, o) :: tr) wf →
  chunks_of ((e, o) :: tr)
    `prefix_of` Presenter.spec_chunks (PyStr.split (default "" (answer_of e))).
Proof.
  intros Hrun.
  inversion Hrun as [? ? ? g' ? ? Hres Hterm|? ? ? g' ? w' w'' ? ? Hres Hterm Hrely Hrun'];
    simplify_eq.
  { rewrite chunks_of_end by done. apply prefix_nil. }
  simpl in Hres. unfold in_try in Hres.
  destruct (deliver e _ w) as [[p|x] w3] eqn:Hbody.
  2:{ destruct (finally_block tid lk w3) as [[[]|x'] w4]; by simplify_eq. }
  unfold deliver in Hbody. destruct (thrown e); [done|].
  apply after_invoke_Ok in Hbody as (a & Ha & ->). rewrite Ha.
  change (default "" (Some a)) with a.
  rewrite <- (stream_from_spec _ (length (PyStr.split a)) 0) by done.
  rewrite <- emitted_enter. fold (Presenter.present a).
  rewrite chunks_of_cons.
  destruct (Presenter.present a) as [chunk k|k|]; simpl in Hres.
  - simplify_eq. simpl. apply prefix_cons.
    by eapply run_streaming_prefix.
  - simplify_eq. simpl. by eapply run_streaming_prefix.
  - destruct (finally_block tid lk w3) as [[[]|x'] w4]; by simplify_eq.
Qed.

End Prefix.

(** X8. Whatever happens in a call of [send_message] (any world, any failure,
    the stream read to its end or abandoned), the chunks it hands out are
    either the busy notice alone or an initial part, in order, of the chunks
    of the answer the executor gave: nothing else is ever streamed. *)
Theorem send_message_streams_only_the_answer
    (tid message : string) (w : World) (tr : list (env * output)) (wf : World) :
  run (Created tid message) w tr wf →
  chunks_of tr = [busy_notice]
  ∨ chunks_of tr
      `prefix_of` Presenter.spec_chunks (PyStr.split (answer_in tr)).
Proof.
  intros Hrun.
  inversion Hrun as [e ? ? g' o ? Hres Hterm
                    |e ? ? g' o w' w'' tr' ? Hres Hterm Hrely Hrun'];
    simplify_eq.
  { right. rewrite chunks_of_end by done. apply prefix_nil. }
  assert (g' = YieldBusy ∧ o = Yield busy_notice
          ∨ ∃ lk, g' = AwaitExecutor tid message lk ∧ o = Suspend) as Hg.
  { simpl in Hres. destruct (thrown e); [by simplify_eq|].
    unfold begin in Hres.
    destruct (active_chats w !! tid); [|by simplify_eq].
    destruct (get_lock tid w) as [[lk|x] w0]; [|by simplify_eq].
    destruct (try_acquire lk w0) as [[[]|x] w2] eqn:Hacq; [| |by simplify_eq].
    - right. exists lk. unfold in_try in Hres.
      destruct (bind _ _ w2) as [[p|x] w3] eqn:Hbody.
      + apply bind_Ok_inv in Hbody as (? & ? & _ & Hbody).
        apply bind_Ok_inv in Hbody as (? & ? & _ & Hbody).
        unfold ret in Hbody. by simplify_eq.
      + destruct (finally_block tid lk w3) as [[[]|x'] w4]; by simplify_eq.
    - left. by simplify_eq. }
  destruct Hg as [[-> ->]|(lk & -> & ->)].
  - left. rewrite chunks_of_cons.
    inversion Hrun' as [e' ? ? ? o' ? Hres' Hterm'
                       |e' ? ? ? o' ? ? ? ? Hres' Hterm' _ _];
      simplify_eq; simpl in Hres'; simplify_eq.
    + by rewrite chunks_of_end.
    + by destruct (thrown e').
  - right. rewrite chunks_of_cons.
    destruct (run_nonempty _ _ _ _ Hrun') as (e2 & o2 & tr2 & ->).
    apply (run_executor_prefix tid message lk) in Hrun'. exact Hrun'.
Qed.

Lemma send_message_streams_only_the_answer_witness :
  let script := [Scenario.calm "2024-05-01T10:00:00" "";
                 Scenario.calm "2024-05-01T10:00:02" "Yes. It is.";
                 mkEnv (Some GeneratorExit) "2024-05-01T10:00:03" (Raise TypeError)
                       id None] in
  chunks_of (Scenario.trace script "Is it?") = [busy_notice]
  ∨ chunks_of (Scenario.trace script "Is it?")
      `prefix_of` Presenter.spec_chunks
                    (PyStr.split (answer_in (Scenario.trace script "Is it?"))).
Proof.
  intros script.
  apply (send_message_streams_only_the_answer "t1" "Is it?" Scenario.idle
           (Scenario.trace script "Is it?") (Scenario.final script "Is it?")).
  apply (exec_run script). vm_compute. reflexivity.
Defined.

(** ** The flag and the lock in every state the program reaches *)
Section Reachable.

Implicit Types (w : World) (t tid : string) (l lk : nat) (gs : list gen)
  (s : system).

(** A later resumption keeps the lock, or ends the generator with the flag
    cleared and the lock free. *)
Lemma resume_owner_cases (e : env) (g : gen) t l h w :
  owner g = Some (t, l) → held t l h w →
  (owner (resume e g w).1.1 = None ∧ released t (resume e g w).2)
  ∨ (owner (resume e g w).1.1 = Some (t, l) ∧ ∃ h', held t l h' (resume e g w).2).
Proof.
  intros Howner Hheld.
  assert (∀ (body : M pause) (p : Presenter.emit) w1 h1,
            body w = (Ok (streaming t l p), w1) → held t l h1 w1 →
            (owner (in_try t l body w).1.1 = None
             ∧ released t (in_try t l body w).2)
            ∨ (owner (in_try t l body w).1.1 = Some (t, l)
               ∧ ∃ h', held t l h' (in_try t l body w).2)) as Hok.
  { intros body p w1 h1 Hbody Hheld1.
    pose proof (in_try_ok _ _ _ _ _ _ _ Hbody Hheld1) as Hstep.
    destruct p as [chunk k|k|]; simpl in Hstep.
    - rewrite Hstep. right. split; [done|]. by exists h1.
    - rewrite Hstep. right. split; [done|]. by exists h1.
    - destruct Hstep as (w' & -> & _ & Hrel & _). by left. }
  assert (∀ (body : M pause) x w1 h1,
            body w = (Raise x, w1) → held t l h1 w1 →
            owner (in_try t l body w).1.1 = None
            ∧ released t (in_try t l body w).2) as Hraise.
  { intros body x w1 h1 Hbody Hheld1.
    by destruct (in_try_raise _ _ _ _ _ _ _ Hbody Hheld1)
      as (w' & -> & _ & Hrel & _). }
  destruct g as [| |t' message l'|t' l' k|]; simplify_eq/=.
  - unfold deliver. destruct (thrown e) as [x|]; [left; by eapply Hraise|].
    destruct (after_invoke_cases e t message l h w Hheld)
      as (w0 & Hheld0 & _ & Hcases).
    destruct (executor e) as [response|x]; [|left; by eapply Hraise].
    destruct (response !! "answer") as [a|]; [|left; by eapply Hraise].
    destruct Hcases as (w1 & Hheld1 & Hcases).
    destruct (fault e) as [[x|x]|]; destruct Hcases as [Hbody _];
      [left; by eapply Hraise..|by eapply Hok].
  - unfold deliver. destruct (thrown e) as [x|]; [left; by eapply Hraise|].
    by eapply Hok.
Qed.

(** What a frame leaves alone of another thread: its flag and the state of
    its lock. *)
Lemma frame_other t l w w' t' :
  frame t l w w' → bound_ok w →
  l = default (length (locks w)) (chat_locks w !! t) →
  t' ≠ t →
  processing_of w' t' = processing_of w t' ∧ lock_state w' t' = lock_state w t'.
Proof.
  intros [Hchats Hbind Hlocks _ _ _ _ _ _] [Hinj Hvalid] Hl Ht.
  unfold processing_of, lock_state. rewrite Hchats, Hbind by done.
  split; [done|].
  destruct (chat_locks w !! t') as [l'|] eqn:Hb'; [simpl|done].
  apply Hlocks; [|by eapply Hvalid].
  intros ->. destruct (chat_locks w !! t) as [l0|] eqn:Hb; simpl in *.
  - subst l0. by eapply Ht, Hinj.
  - specialize (Hvalid _ _ Hb'). lia.
Qed.

Lemma at_work_call w gs tid message t :
  at_work (mkSystem w gs) t ↔ at_work (mkSystem w (gs ++ [Created tid message])) t.
Proof.
  split; intros (i & g & l & Hi & Ho); simpl in *.
  - exists i, g, l. split; [|done]. simpl. by apply lookup_app_l_Some.
  - exists i, g, l. split; [|done]. simpl. eapply lookup_call; [done|by eexists].
Qed.

Lemma at_work_elsewhere w w' gs (i : nat) (g g' : gen) t :
  gs !! i = Some g → (∀ l, owner g ≠ Some (t, l)) →
  at_work (mkSystem w gs) t → at_work (mkSystem w' (<[i := g']> gs)) t.
Proof.
  intros Hi Hnot (j & gj & l & Hj & Ho). simpl in *.
  exists j, gj, l. split; [simpl|done].
  rewrite list_lookup_insert_ne; [done|].
  intros ->. simplify_eq. by eapply Hnot.
Qed.

Lemma at_work_here w gs (i : nat) (g g' : gen) t l :
  gs !! i = Some g → owner g' = Some (t, l) →
  at_work (mkSystem w (<[i := g']> gs)) t.
Proof.
  intros Hi Ho. exists i, g', l. split; [simpl|done].
  apply list_lookup_insert_eq. by eapply lookup_lt_Some.
Qed.

Lemma released_not_busy t w :
  released t w →
  ¬ (processing_of w t = Some true ∨ lock_state w t = Some true).
Proof. intros [Hp Hl] [H|H]; congruence. Qed.

(** The steps of a consistent program keep it orderly. *)
Lemma orderly_step s s' : consistent s → orderly s → step s s' → orderly s'.
Proof.
  intros (Hok & Hheld & Hexcl) Hord Hstep.
  destruct Hstep as [w gs tid message|w gs i g e Hi|w gs ce uuid4 asset Hnew];
    simpl in *; intros t Hbusy; simpl in Hbusy.
  - apply at_work_call. by apply Hord.
  - pose proof (resume_frame e g w) as Hframe.
    destruct (owner g) as [[t0 l0]|] eqn:Howner.
    + destruct (Hheld i g t0 l0 Hi Howner) as [h Hh].
      assert (lock_in_use g w = Some (t0, l0)) as Huse by (by destruct g).
      rewrite Huse in Hframe.
      destruct (decide (t = t0)) as [->|Ht].
      * destruct (resume_owner_cases e g t0 l0 h w Howner Hh)
          as [[_ Hrel]|[Hsame _]].
        -- by destruct (released_not_busy _ _ Hrel).
        -- by eapply at_work_here.
      * destruct (frame_other t0 l0 w _ t Hframe Hok) as [Hp Hl]; [|done|].
        { destruct Hh as (_ & -> & _). done. }
        rewrite Hp, Hl in Hbusy.
        eapply at_work_elsewhere; [done| |by apply Hord].
        intros l. rewrite Howner. congruence.
    + assert (∀ l, owner g ≠ Some (t, l)) as Hnot by (intros l; congruence).
      destruct g as [t0 message| | | |]; simplify_eq/=.
      * destruct (resume_created_owner e t0 message w Hok)
          as [[_ Hsame]|(_ & l & h & Hnew & _)]; simpl in *.
        -- rewrite Hsame in Hbusy.
           eapply at_work_elsewhere; [done..|by apply Hord].
        -- destruct (decide (t = t0)) as [->|Ht]; [by eapply at_work_here|].
           destruct (frame_other t0 _ w _ t Hframe Hok) as [Hp Hl]; [done..|].
           rewrite Hp, Hl in Hbusy.
           eapply at_work_elsewhere; [done..|by apply Hord].
      * eapply at_work_elsewhere; [done..|by apply Hord].
      * eapply at_work_elsewhere; [done..|by apply Hord].
  - pose proof (create_chat_frame ce uuid4 asset w Hnew) as Hframe.
    assert (at_work (mkSystem w gs) t →
            at_work (mkSystem (create_chat ce uuid4 asset w).2 gs) t) as Hsame.
    { intros (i & g & l & Hi & Ho). by exists i, g, l. }
    apply Hsame.
    destruct (decide (t = uuid4)) as [->|Ht].
    + destruct (create_chat ce uuid4 asset w) as [[tid|x] w'] eqn:Hcreate;
        simpl in *.
      * apply create_chat_Ok in Hcreate as (-> & Hc & Hb & Hl).
        unfold processing_of, lock_state in Hbusy.
        rewrite Hc, Hb, Hl in Hbusy. simpl in Hbusy.
        rewrite lookup_app_r, Nat.sub_diag in Hbusy by done.
        simpl in Hbusy. destruct Hbusy; congruence.
      * apply create_chat_Raise in Hcreate as (_ & db & -> & _).
        unfold processing_of, lock_state in Hbusy. simpl in Hbusy.
        rewrite lookup_insert_eq in Hbusy. simpl in Hbusy.
        rewrite lookup_app_r, Nat.sub_diag in Hbusy by done.
        simpl in Hbusy. apply Hord. left.
        destruct Hbusy as [Hp|?]; [exact Hp|congruence].
    + destruct (frame_other uuid4 _ w _ t Hframe Hok) as [Hp Hl]; [|done|].
      { by rewrite Hnew. }
      rewrite Hp, Hl in Hbusy. by apply Hord.
Qed.

Lemma orderly_start w : orderly (started w).
Proof.
  intros t [H|H]; unfold processing_of, lock_state in H; simpl in H;
    by rewrite lookup_empty in H.
Qed.

(** Every state the program reaches from its start is consistent and
    orderly. *)
Lemma reachable_invariants w s :
  rtc step (started w) s → consistent s ∧ orderly s.
Proof.
  intros Hsteps. pattern s. revert s Hsteps. apply rtc_ind_r.
  - split; [apply consistent_start|apply orderly_start].
  - intros s1 s2 _ Hstep [Hcons Hord].
    split; [by eapply consistent_step|by eapply orderly_step].
Qed.

(** A generator at work has the flag set and the lock taken. *)
Lemma at_work_busy s t :
  consistent s → at_work s t →
  processing_of (world s) t = Some true ∧ lock_state (world s) t = Some true.
Proof.
  intros (_ & Hheld & _) (i & g & l & Hi & Ho).
  destruct (Hheld i g t l Hi Ho) as (h & (c & Hc & _ & Hp) & Hb & Hl).
  unfold processing_of, lock_state. rewrite Hc, Hb. simpl. by rewrite Hp.
Qed.

End Reachable.

(** The steps that lead from the start to [Scenario.first_await]. *)
Ltac first_await_steps :=
  eapply rtc_l;
    [apply (step_create_chat _ _ Scenario.quiet "t1" "a1"); vm_compute;
     reflexivity|];
  eapply rtc_l; [apply (step_call _ _ "t1" "first")|];
  eapply rtc_l;
    [apply (step_resume _ _ 0 (Created "t1" "first")
              (Scenario.calm "2024-05-01T10:00:00" "")); reflexivity|];
  vm_compute; apply rtc_refl.

(** X9. In every state the program reaches from its start, by calls of
    [send_message], resumptions of its generators in any order and with any
    outcome, and calls of [create_chat], a generator that is between taking
    the lock and its [finally] block holds the lock bound to its thread, and
    it is the only generator at work on that thread. *)
Theorem send_message_one_turn_per_thread
    (w0 : World) (s : system) (i : nat) (g : gen) (t : string) (l : nat) :
  rtc step (started w0) s →
  pool s !! i = Some g → owner g = Some (t, l) →
  (chat_locks (world s) !! t = Some l ∧ locks (world s) !! l = Some true)
  ∧ ∀ j gj lj, pool s !! j = Some gj → owner gj = Some (t, lj) → j = i.
Proof.
  intros Hsteps Hi Ho.
  destruct (reachable_invariants _ _ Hsteps) as [(_ & Hheld & Hexcl) _].
  split.
  - by destruct (Hheld i g t l Hi Ho) as (h & _ & Hb & Hl).
  - intros j gj lj Hj Hoj. by eapply Hexcl.
Qed.

Lemma send_message_one_turn_per_thread_witness :
  (chat_locks (world Scenario.first_await) !! "t1" = Some 0
   ∧ locks (world Scenario.first_await) !! 0 = Some true)
  ∧ ∀ j gj lj, pool Scenario.first_await !! j = Some gj →
               owner gj = Some ("t1", lj) → j = 0.
Proof.
  apply (send_message_one_turn_per_thread Scenario.fresh Scenario.first_await
           0 (AwaitExecutor "t1" "first" 0) "t1" 0).
  - first_await_steps.
  - vm_compute. reflexivity.
  - reflexivity.
Defined.

(** X10. In every state the program reaches from its start, [is_processing]
    answers true for a thread exactly when a generator of [send_message] is
    at work on it, and exactly then the lock of the thread is taken: the flag
    and the lock are never left set by a generator that has ended, however it
    ended. *)
Theorem is_processing_iff_at_work (w0 : World) (s : system) (t : string) :
  rtc step (started w0) s →
  ((is_processing t (world s)).1 = Ok true ↔ at_work s t)
  ∧ (lock_state (world s) t = Some true ↔ at_work s t).
Proof.
  intros Hsteps.
  destruct (reachable_invariants _ _ Hsteps) as [Hcons Hord].
  assert ((is_processing t (world s)).1 = Ok true
          ↔ processing_of (world s) t = Some true) as ->.
  { unfold is_processing, processing_of.
    destruct (active_chats (world s) !! t) as [c|]; simpl; [|done].
    split; congruence. }
  split; (split; [intros H; apply Hord; by auto|]);
    intros Hwork; by destruct (at_work_busy _ _ Hcons Hwork).
Qed.

Lemma is_processing_iff_at_work_witness :
  ((is_processing "t1" (world Scenario.first_await)).1 = Ok true
   ↔ at_work Scenario.first_await "t1")
  ∧ (lock_state (world Scenario.first_await) "t1" = Some true
     ↔ at_work Scenario.first_await "t1").
Proof.
  apply (is_processing_iff_at_work Scenario.fresh Scenario.first_await "t1").
  first_await_steps.
Defined.

(** X11. In every state the program reaches from its start, a call of
    [send_message] for a registered thread is answered with the busy notice
    exactly when a generator is at work on that thread; when none is, the
    call takes the lock and goes on to the executor. *)
Theorem send_message_busy_iff_at_work
    (w0 : World) (s : system) (e : env) (t message : string) :
  rtc step (started w0) s →
  is_Some (active_chats (world s) !! t) →
  thrown e = None →
  (at_work s t
   ∧ resume e (Created t message) (world s)
     = (YieldBusy, Yield busy_notice, world s))
  ∨ (¬ at_work s t
     ∧ ∃ l w1, resume e (Created t message) (world s)
               = (AwaitExecutor t message l, Suspend, w1)).
Proof.
  intros Hsteps [c Hc] Hx.
  destruct (reachable_invariants _ _ Hsteps) as [Hcons Hord].
  assert (acquirable (world s) t →
          ¬ at_work s t
          ∧ ∃ l w1, resume e (Created t message) (world s)
                    = (AwaitExecutor t message l, Suspend, w1)) as Hfree.
  { intros Hfree. split.
    - intros Hwork. destruct (at_work_busy _ _ Hcons Hwork) as [_ Hl].
      unfold acquirable, lock_state in *.
      destruct (chat_locks (world s) !! t); simpl in *; congruence.
    - destruct (begin_acquires e t message _ c Hc Hfree) as (l & w1 & Hb & _).
      exists l, w1. simpl. by rewrite Hx. }
  destruct (chat_locks (world s) !! t) as [l|] eqn:Hb.
  2:{ right. apply Hfree. unfold acquirable. by rewrite Hb. }
  destruct Hcons as ([_ Hvalid] & _ & _).
  destruct (lookup_lt_is_Some_2 _ _ (Hvalid _ _ Hb)) as [[] Hl].
  - left. split.
    + apply Hord. right. unfold lock_state. rewrite Hb. done.
    + simpl. rewrite Hx.
      unfold begin, get_lock, try_acquire, locked. by rewrite Hc, Hb, Hl.
  - right. apply Hfree. unfold acquirable. by rewrite Hb.
Qed.

Lemma send_message_busy_iff_at_work_witness :
  let e := Scenario.calm "2024-05-01T10:00:01" "" in
  (at_work Scenario.first_await "t1"
   ∧ resume e (Created "t1" "second") (world Scenario.first_await)
     = (YieldBusy, Yield busy_notice, world Scenario.first_await))
  ∨ (¬ at_work Scenario.first_await "t1"
     ∧ ∃ l w1, resume e (Created "t1" "second") (world Scenario.first_await)
               = (AwaitExecutor "t1" "second" l, Suspend, w1)).
Proof.
  intros e.
  apply (send_message_busy_iff_at_work Scenario.fresh Scenario.first_await e
           "t1" "second").
  - first_await_steps.
  - vm_compute. by eexists.
  - reflexivity.
Defined.

(** X13. In every state the program reaches from its start, what a generator
    at work on a thread relies on is kept by the rest of the program: the
    resumption of any other generator, and any [create_chat], leave the
    thread registered with the same history and flag, its lock bound and
    taken, and its history file as it is. *)
Theorem turn_undisturbed_by_others
    (w0 : World) (s : system) (j : nat) (gj : gen) (t : string) (l : nat) :
  rtc step (started w0) s →
  pool s !! j = Some gj → owner gj = Some (t, l) →
  (∀ i g e, pool s !! i = Some g → i ≠ j →
            stable t l (world s) (resume e g (world s)).2)
  ∧ (∀ ce uuid4 asset, chat_locks (world s) !! uuid4 = None →
                       stable t l (world s)
                              (create_chat ce uuid4 asset (world s)).2).
Proof.
  intros Hsteps Hj Ho.
  destruct (reachable_invariants _ _ Hsteps) as [(Hok & Hheld & Hexcl) _].
  destruct (Hheld j gj t l Hj Ho) as (h & Hc & Hb & Hl).
  split.
  - intros i g e Hi Hne. apply resume_guarantee; [done..| |].
    + intros t' Ht'. destruct Hok as [Hinj _]. by eapply Hinj.
    + intros t' l' Ho'. split.
      * intros ->. apply Hne. by eapply Hexcl.
      * by destruct (Hheld i g t' l' Hi Ho') as (_ & _ & ? & _).
  - intros ce uuid4 asset Hnew. apply create_chat_guarantee; [|done].
    intros ->. congruence.
Qed.

Lemma turn_undisturbed_by_others_witness :
  (∀ i g e, pool Scenario.first_await !! i = Some g → i ≠ 0 →
            stable "t1" 0 (world Scenario.first_await)
                   (resume e g (world Scenario.first_await)).2)
  ∧ (∀ ce uuid4 asset,
       chat_locks (world Scenario.first_await) !! uuid4 = None →
       stable "t1" 0 (world Scenario.first_await)
              (create_chat ce uuid4 asset (world Scenario.first_await)).2).
Proof.
  apply (turn_undisturbed_by_others Scenario.fresh Scenario.first_await
           0 (AwaitExecutor "t1" "first" 0) "t1" 0).
  - first_await_steps.
  - vm_compute. reflexivity.
  - reflexivity.
Defined.

(** * The document processor *)
Section PathFacts.
Import Path.

Lemma rfind_from_range (c : ascii) (p : string) (i found : Z) :
  rfind_from c p i found = found
  ∨ (i ≤ rfind_from c p i found < i + Z.of_nat (String.length p))%Z.
Proof.
  revert i found. induction p as [|c' p IH]; intros i found; [by left|].
  cbn [rfind_from String.length].
  destruct (IH (i + 1)%Z (if Ascii.eqb c' c then i else found)) as [->|Hr].
  - destruct (Ascii.eqb c' c); [right; lia|by left].
  - right. lia.
Qed.

Lemma rfind_range (c : ascii) (p : string) :
  (-1 ≤ rfind c p < Z.of_nat (String.length p))%Z.
Proof.
  unfold rfind. destruct (rfind_from_range c p 0 (-1)) as [->|?]; lia.
Qed.

Lemma substring_all (p : string) : String.substring 0 (String.length p) p = p.
Proof. induction p as [|c p IH]; [done|]. simpl. by rewrite IH. Qed.

Lemma substring_split (p : string) (k : nat) :
  k ≤ String.length p →
  String.substring 0 k p +:+ String.substring k (String.length p - k) p = p.
Proof.
  revert k. induction p as [|c p IH]; intros k Hk.
  - simpl in Hk. by replace k with 0 by lia.
  - destruct k as [|k].
    + rewrite Nat.sub_0_r, substring_all. by destruct p.
    + cbn [String.substring String.length Nat.sub].
      rewrite string_app_cons. f_equal. apply IH. simpl in Hk. lia.
Qed.

(** [splitext] cuts the path in two. *)
Lemma splitext_app (p : string) : (splitext p).1 +:+ (splitext p).2 = p.
Proof.
  unfold splitext, slice.
  destruct ((_ <? _)%Z && _) eqn:Hcut; simpl; [|apply string_app_empty_r].
  rewrite Nat.sub_0_r. apply substring_split.
  pose proof (rfind_range "." p). lia.
Qed.

End PathFacts.

Section DocumentProcessorFacts.
Import DocumentProcessor.

Implicit Types (s : surroundings) (w : World).

Lemma first_existing_none s (paths : list string) (file_path : string) :
  Forall (λ path, path_exists s path = false) paths →
  first_existing s paths file_path = file_path.
Proof. induction 1 as [|path paths Hp _ IH]; simpl; [done|by rewrite Hp]. Qed.

Lemma first_existing_cases s (paths : list string) (file_path : string) :
  (first_existing s paths file_path = file_path
   ∧ Forall (λ path, path_exists s path = false) paths)
  ∨ (first_existing s paths file_path ∈ paths
     ∧ path_exists s (first_existing s paths file_path) = true).
Proof.
  induction paths as [|path paths IH]; simpl; [left; by split|].
  destruct (path_exists s path) eqn:Hp.
  - right. split; [apply list_elem_of_here|done].
  - destruct IH as [[-> Hall]|[Hin Hex]].
    + left. split; [done|by constructor].
    + right. split; [by apply list_elem_of_further|done].
Qed.

(** Once the path is found, the call goes on with it. *)
Lemma process_document_resolved s (file_path : string) w :
  path_exists s (resolved s file_path) = true →
  process_document s file_path w
  = let path := resolved s file_path in
    let ext := (Path.splitext path).2 in
    match supported_extensions !! lower ext with
    | None => (Fails (UnsupportedFileType ext), w)
    | Some _ =>
        match _process_document_async s path (lower ext) (uuid4 s) w with
        | (Fails e, w') => (Fails e, w')
        | (Done _, w') => (Done (uuid4 s), w')
        end
    end.
Proof.
  unfold process_document, resolved.
  destruct (Path.isabs file_path); simpl; by intros ->.
Qed.

Lemma process_document_unresolved s (file_path : string) w :
  path_exists s (resolved s file_path) = false →
  process_document s file_path w
  = (Fails (if Path.isabs file_path then UnboundLocalError "possible_paths"
            else FileNotFoundError (resolved s file_path)
                                   (candidates s file_path)), w).
Proof.
  unfold process_document, resolved.
  destruct (Path.isabs file_path); simpl; by intros ->.
Qed.

(** The worker at a glance. *)
Lemma load_and_process_spec s (loader_class : loader) (path asset : string) w :
  let persist_dir := "./chroma_db/" +:+ asset in
  load_and_process s loader_class path asset w
  = match load s loader_class path with
    | Raise x => (Fails (Failed x), w)
    | Ok text_chunks =>
        match chroma_db w !! persist_dir with
        | Some Unreadable => (Fails (Failed (External "chromadb")), w)
        | _ =>
            match store s with
            | Some (x, added) =>
                (Fails (Failed x),
                 set_chroma_db
                   <[persist_dir :=
                       Collection (indexed w persist_dir
                                   ++ take added text_chunks)]> w)
            | None =>
                (Done (length text_chunks),
                 set_chroma_db
                   <[persist_dir :=
                       Collection (indexed w persist_dir ++ text_chunks)]> w)
            end
        end
    end.
Proof.
  intros persist_dir. unfold load_and_process, makedirs, indexed.
  fold persist_dir.
  destruct (load s loader_class path) as [text_chunks|x]; [|done].
  destruct (chroma_db w !! persist_dir) as [[chunks|]|] eqn:Hdir.
  - rewrite Hdir. by destruct (store s) as [[x added]|].
  - by rewrite Hdir.
  - simpl. rewrite lookup_insert_eq. unfold set_chroma_db. simpl.
    destruct (store s) as [[x added]|]; by rewrite insert_insert_eq.
Qed.

Lemma _process_document_async_Done s (path ext asset : string) w (n : nat) w' :
  _process_document_async s path ext asset w = (Done n, w') →
  let persist_dir := "./chroma_db/" +:+ asset in
  ∃ loader_class text_chunks,
    supported_extensions !! ext = Some loader_class
    ∧ load s loader_class path = Ok text_chunks
    ∧ w' = set_chroma_db
             <[persist_dir := Collection (indexed w persist_dir ++ text_chunks)]>
             w.
Proof.
  unfold _process_document_async.
  destruct (supported_extensions !! ext) as [loader_class|]; [|done].
  destruct (awaited s) as [|x [|]]; [|done..].
  rewrite load_and_process_spec. cbv zeta.
  destruct (load s loader_class path) as [text_chunks|x] eqn:Hload; [|done].
  destruct (chroma_db w !! _) as [[chunks|]|] eqn:Hdir;
    destruct (store s) as [[x added]|]; try done;
    intros [= <- <-]; by exists loader_class, text_chunks.
Qed.

Lemma _process_document_async_Fails s (path ext asset : string) w (e : error) w' :
  _process_document_async s path ext asset w = (Fails e, w') →
  let persist_dir := "./chroma_db/" +:+ asset in
  (∃ x, e = Failed x)
  ∧ (w' = w
     ∨ ∃ loader_class text_chunks added,
         supported_extensions !! ext = Some loader_class
         ∧ load s loader_class path = Ok text_chunks
         ∧ w' = set_chroma_db
                  <[persist_dir :=
                      Collection (indexed w persist_dir
                                  ++ take added text_chunks)]> w).
Proof.
  unfold _process_document_async.
  destruct (supported_extensions !! ext) as [loader_class|];
    [|intros [= <- <-]; split; [by eexists|by left]].
  assert (∀ e1 w1,
            load_and_process s loader_class path asset w = (e1, w1) →
            w1 = w
            ∨ ∃ text_chunks added,
                load s loader_class path = Ok text_chunks
                ∧ w1 = set_chroma_db
                         <["./chroma_db/" +:+ asset :=
                             Collection (indexed w ("./chroma_db/" +:+ asset)
                                         ++ take added text_chunks)]> w)
    as Hworker.
  { intros e1 w1. rewrite load_and_process_spec. cbv zeta.
    destruct (load s loader_class path) as [text_chunks|x] eqn:Hload;
      [|intros [= _ <-]; by left].
    destruct (chroma_db w !! _) as [[chunks|]|] eqn:Hdir;
      destruct (store s) as [[x added]|]; intros [= _ <-];
      first [ by left
            | right; by exists text_chunks, added
            | right; exists text_chunks, (length text_chunks);
              by rewrite firstn_all ]. }
  assert (∀ e1 w1,
            load_and_process s loader_class path asset w = (Fails e1, w1) →
            ∃ x, e1 = Failed x) as Hfailed.
  { intros e1 w1. rewrite load_and_process_spec. cbv zeta.
    destruct (load s loader_class path) as [text_chunks|x];
      [|intros [= <- _]; by eexists].
    destruct (chroma_db w !! _) as [[chunks|]|];
      destruct (store s) as [[x added]|]; intros [= <- _]; by eexists. }
  destruct (awaited s) as [|x [|]].
  - intros Hrun. split; [by eapply Hfailed|].
    destruct (Hworker _ _ Hrun) as [->|(text_chunks & added & Hload & ->)];
      [by left|right]. by exists loader_class, text_chunks, added.
  - intros [= <- <-]. split; [by eexists|].
    destruct (Hworker _ _ (surjective_pairing _))
      as [->|(text_chunks & added & Hload & ->)]; [by left|right].
    by exists loader_class, text_chunks, added.
  - intros [= <- <-]. split; [by eexists|by left].
Qed.

End DocumentProcessorFacts.

(** What a call that returns has done. *)
Lemma process_document_Done_inv
    (s : DocumentProcessor.surroundings) (file_path : string) (w w' : World)
    (asset : string) :
  DocumentProcessor.process_document s file_path w
  = (DocumentProcessor.Done asset, w') →
  let path := DocumentProcessor.resolved s file_path in
  let persist_dir := "./chroma_db/" +:+ asset in
  asset = DocumentProcessor.uuid4 s
  ∧ DocumentProcessor.path_exists s path = true
  ∧ (path = file_path ∨ path ∈ DocumentProcessor.candidates s file_path)
  ∧ ∃ root ext loader_class text_chunks,
      path = root +:+ ext
      ∧ DocumentProcessor.supported_extensions !! DocumentProcessor.lower ext
        = Some loader_class
      ∧ DocumentProcessor.load s loader_class path = Ok text_chunks
      ∧ w' = set_chroma_db
               <[persist_dir :=
                   Collection (match chroma_db w !! persist_dir with
                               | Some (Collection chunks) => chunks
                               | _ => []
                               end ++ text_chunks)]> w.
Proof.
  intros Hdone path persist_dir.
  destruct (DocumentProcessor.path_exists s path) eqn:Hex.
  2:{ rewrite process_document_unresolved in Hdone by done. done. }
  rewrite process_document_resolved in Hdone by done. cbv zeta in Hdone.
  fold path in Hdone.
  destruct (DocumentProcessor.supported_extensions
              !! DocumentProcessor.lower (Path.splitext path).2)
    as [loader_class|] eqn:Hsup; [|done].
  destruct (DocumentProcessor._process_document_async s path _ _ w)
    as [[n|e] w1] eqn:Hasync; [|done].
  injection Hdone as <- <-.
  apply _process_document_async_Done in Hasync
    as (loader_class' & text_chunks & Hsup' & Hload & ->).
  rewrite Hsup in Hsup'. injection Hsup' as <-.
  split; [done|]. split; [done|]. split.
  { unfold path, DocumentProcessor.resolved.
    destruct (Path.isabs file_path); [by left|].
    destruct (first_existing_cases s (DocumentProcessor.candidates s file_path)
                file_path) as [[-> _]|[Hin _]]; [by left|by right]. }
  exists (Path.splitext path).1, (Path.splitext path).2, loader_class, text_chunks.
  split; [by rewrite splitext_app|]. by split.
Qed.

(** X14. When the file is at none of the places [process_document] looks
    at, the call fails and writes nothing; for a relative path the exception
    is [FileNotFoundError], naming the four places tried, but for an absolute
    path it is [UnboundLocalError]: the message of line 65 reads
    [possible_paths], which is bound only for relative paths. *)
Theorem process_document_missing_file
    (s : DocumentProcessor.surroundings) (file_path : string) (w : World) :
  Forall (λ path, DocumentProcessor.path_exists s path = false)
         (DocumentProcessor.candidates s file_path) →
  DocumentProcessor.process_document s file_path w
  = (DocumentProcessor.Fails
       (if Path.isabs file_path
        then DocumentProcessor.UnboundLocalError "possible_paths"
        else DocumentProcessor.FileNotFoundError
               file_path (DocumentProcessor.candidates s file_path)), w).
Proof.
  intros Hall.
  assert (DocumentProcessor.resolved s file_path = file_path) as Hres.
  { unfold DocumentProcessor.resolved.
    destruct (Path.isabs file_path); [done|].
    by apply first_existing_none. }
  rewrite process_document_unresolved; rewrite Hres; [done|].
  by inversion Hall.
Qed.

Lemma process_document_missing_file_witness :
  DocumentProcessor.process_document Scenario.disk "/srv/app/uploads/gone.pdf"
    Scenario.fresh
  = (DocumentProcessor.Fails (DocumentProcessor.UnboundLocalError "possible_paths"),
     Scenario.fresh).
Proof.
  apply (process_document_missing_file Scenario.disk "/srv/app/uploads/gone.pdf"
           Scenario.fresh).
  vm_compute. repeat constructor.
Defined.

(** X15. When [process_document] returns, the asset id is the one [uuid4]
    drew, the path it worked on exists and is the given path or, for a
    relative path, one of the four places tried; the path ends in an
    extension that is, in lower case, one of .txt, .pdf, .doc and .docx; and
    the index directory of the asset holds what it held before followed by
    the chunks the loader of that extension gave for that path. Nothing else
    of the world has changed. *)
Theorem process_document_done
    (s : DocumentProcessor.surroundings) (file_path : string) (w w' : World)
    (asset : string) :
  DocumentProcessor.process_document s file_path w
  = (DocumentProcessor.Done asset, w') →
  let path := DocumentProcessor.resolved s file_path in
  let persist_dir := "./chroma_db/" +:+ asset in
  asset = DocumentProcessor.uuid4 s
  ∧ DocumentProcessor.path_exists s path = true
  ∧ (path = file_path ∨ path ∈ DocumentProcessor.candidates s file_path)
  ∧ ∃ root ext loader_class text_chunks,
      path = root +:+ ext
      ∧ DocumentProcessor.supported_extensions !! DocumentProcessor.lower ext
        = Some loader_class
      ∧ DocumentProcessor.load s loader_class path = Ok text_chunks
      ∧ w' = set_chroma_db
               <[persist_dir :=
                   Collection (match chroma_db w !! persist_dir with
                               | Some (Collection chunks) => chunks
                               | _ => []
                               end ++ text_chunks)]> w.
Proof. apply process_document_Done_inv. Qed.

Lemma process_document_done_witness :
  let s := Scenario.disk in
  let w' := (DocumentProcessor.process_document s "uploads/Report.PDF"
               Scenario.fresh).2 in
  let path := DocumentProcessor.resolved s "uploads/Report.PDF" in
  let persist_dir := "./chroma_db/" +:+ "a2" in
  "a2" = DocumentProcessor.uuid4 s
  ∧ DocumentProcessor.path_exists s path = true
  ∧ (path = "uploads/Report.PDF"
     ∨ path ∈ DocumentProcessor.candidates s "uploads/Report.PDF")
  ∧ ∃ root ext loader_class text_chunks,
      path = root +:+ ext
      ∧ DocumentProcessor.supported_extensions !! DocumentProcessor.lower ext
        = Some loader_class
      ∧ DocumentProcessor.load s loader_class path = Ok text_chunks
      ∧ w' = set_chroma_db
               <[persist_dir :=
                   Collection (match chroma_db Scenario.fresh !! persist_dir with
                               | Some (Collection chunks) => chunks
                               | _ => []
                               end ++ text_chunks)]> Scenario.fresh.
Proof.
  intros s w'.
  apply (process_document_done s "uploads/Report.PDF" Scenario.fresh w' "a2").
  vm_compute. reflexivity.
Defined.

(** X16. A failed call of [process_document] changes at most the index
    directory of the new asset. When the file is not found or its type is not
    supported, nothing is changed. Otherwise the world is as it was, or the
    directory holds what it held before followed by an initial part of the
    chunks of the document: none, some or all of them, as the worker got
    before the index or [persist()] failed, or all of them when the worker
    went on after an exception had arrived at the [await]. *)
Theorem process_document_failure
    (s : DocumentProcessor.surroundings) (file_path : string) (w w' : World)
    (e : DocumentProcessor.error) :
  DocumentProcessor.process_document s file_path w
  = (DocumentProcessor.Fails e, w') →
  let path := DocumentProcessor.resolved s file_path in
  let persist_dir := "./chroma_db/" +:+ DocumentProcessor.uuid4 s in
  match e with
  | DocumentProcessor.Failed _ =>
      w' = w
      ∨ ∃ loader_class text_chunks added,
          DocumentProcessor.load s loader_class path = Ok text_chunks
          ∧ w' = set_chroma_db
                   <[persist_dir :=
                       Collection (match chroma_db w !! persist_dir with
                                   | Some (Collection chunks) => chunks
                                   | _ => []
                                   end ++ take added text_chunks)]> w
  | _ => w' = w
  end.
Proof.
  intros Hfail path persist_dir.
  destruct (DocumentProcessor.path_exists s path) eqn:Hex.
  2:{ rewrite process_document_unresolved in Hfail by done.
      injection Hfail as <- <-. by destruct (Path.isabs file_path). }
  rewrite process_document_resolved in Hfail by done. cbv zeta in Hfail.
  fold path in Hfail.
  destruct (DocumentProcessor.supported_extensions !! _) as [loader_class|];
    [|by injection Hfail as <- <-].
  destruct (DocumentProcessor._process_document_async s _ _ _ w)
    as [[n|e1] w1] eqn:Hasync; [done|].
  injection Hfail as <- <-.
  apply _process_document_async_Fails in Hasync as [[x ->] Hworld].
  destruct Hworld as [->|(loader & text_chunks & added & _ & Hload & ->)];
    [by left|right]. by exists loader, text_chunks, added.
Qed.

Lemma process_document_failure_witness :
  let s := Scenario.index_down in
  let w' := (DocumentProcessor.process_document s "uploads/Report.PDF"
               Scenario.fresh).2 in
  let path := DocumentProcessor.resolved s "uploads/Report.PDF" in
  let persist_dir := "./chroma_db/" +:+ DocumentProcessor.uuid4 s in
  w' = Scenario.fresh
  ∨ ∃ loader_class text_chunks added,
      DocumentProcessor.load s loader_class path = Ok text_chunks
      ∧ w' = set_chroma_db
               <[persist_dir :=
                   Collection (match chroma_db Scenario.fresh !! persist_dir with
                               | Some (Collection chunks) => chunks
                               | _ => []
                               end ++ take added text_chunks)]> Scenario.fresh.
Proof.
  intros s w'.
  apply (process_document_failure s "uploads/Report.PDF" Scenario.fresh w'
           (DocumentProcessor.Failed (External "chromadb"))).
  vm_compute. reflexivity.
Defined.

(** X17. What [process_document] has indexed, [create_chat] finds: when the
    directory of the new asset did not exist before, it holds exactly the
    chunks of the document afterwards, and a call of [create_chat] for the
    asset id that was returned, when it returns, has registered a thread
    whose chain works on that directory, and has left the index as it
    was. *)
Theorem process_document_then_create_chat
    (s : DocumentProcessor.surroundings) (ce : create_env)
    (file_path asset uuid4 tid : string) (w w' w'' : World) :
  DocumentProcessor.process_document s file_path w
  = (DocumentProcessor.Done asset, w') →
  chroma_db w !! ("./chroma_db/" +:+ asset) = None →
  create_chat ce uuid4 asset w' = (Ok tid, w'') →
  ∃ loader_class text_chunks,
    DocumentProcessor.load s loader_class (DocumentProcessor.resolved s file_path)
    = Ok text_chunks
    ∧ chroma_db w' !! ("./chroma_db/" +:+ asset) = Some (Collection text_chunks)
    ∧ chroma_db w'' = chroma_db w'
    ∧ persist_directory ∘ conversation_chain <$> active_chats w'' !! tid
      = Some ("./chroma_db/" +:+ asset).
Proof.
  intros Hdone Hnew Hcreate.
  destruct (process_document_Done_inv s file_path w w' asset Hdone)
    as (_ & _ & _ & root & ext & loader_class & text_chunks & _ & _ & Hload & ->).
  rewrite Hnew in Hcreate |- *. simpl in Hcreate |- *.
  exists loader_class, text_chunks.
  split; [done|]. split; [by rewrite lookup_insert_eq|].
  destruct (create_chat_cases ce uuid4 asset
              (set_chroma_db
                 <["./chroma_db/" +:+ asset := Collection text_chunks]> w))
    as [(Hok & _)|(x & db & Hraise & _)];
    [rewrite Hok in Hcreate|by rewrite Hraise in Hcreate].
  injection Hcreate as <- <-. simpl. rewrite !lookup_insert_eq. done.
Qed.

Lemma process_document_then_create_chat_witness :
  let s := Scenario.disk in
  let w' := (DocumentProcessor.process_document s "uploads/Report.PDF"
               Scenario.fresh).2 in
  let w'' := (create_chat Scenario.quiet "t2" "a2" w').2 in
  ∃ loader_class text_chunks,
    DocumentProcessor.load s loader_class
      (DocumentProcessor.resolved s "uploads/Report.PDF") = Ok text_chunks
    ∧ chroma_db w' !! ("./chroma_db/" +:+ "a2") = Some (Collection text_chunks)
    ∧ chroma_db w'' = chroma_db w'
    ∧ persist_directory ∘ conversation_chain <$> active_chats w'' !! "t2"
      = Some ("./chroma_db/" +:+ "a2").
Proof.
  intros s w' w''.
  apply (process_document_then_create_chat s Scenario.quiet
           "uploads/Report.PDF" "a2" "t2" "t2" Scenario.fresh w' w'').
  - vm_compute. reflexivity.
  - vm_compute. reflexivity.
  - vm_compute. reflexivity.
Defined.

(** * The event stream and its reader *)
Section StreamFacts.
Import PyStr Presenter Stream.

Lemma has_break_app (s1 s2 : string) :
  has_break (s1 +:+ s2) = has_break s1 || has_break s2.
Proof.
  induction s1 as [|c s1 IH]; [done|].
  rewrite string_app_cons. simpl. by rewrite IH, orb_assoc.
Qed.

Lemma has_break_space (s : string) : has_space s = false → has_break s = false.
Proof.
  induction s as [|c s IH]; [done|]. simpl.
  intros [Hc Hs]%orb_false_elim. rewrite (IH Hs), orb_false_r.
  destruct (Ascii.eqb_spec c LF) as [->|_]; [done|].
  by destruct (Ascii.eqb_spec c CR) as [->|_].
Qed.

Lemma splitlines_go_plain (line t s : string) :
  has_break t = false →
  splitlines_go line (t +:+ s) = splitlines_go (line +:+ t) s.
Proof.
  revert line. induction t as [|c t IH]; intros line Ht.
  - by rewrite string_app_nil, string_app_empty_r.
  - simpl in Ht. apply orb_false_elim in Ht as [Hc Ht].
    apply orb_false_elim in Hc as [Hlf Hcr].
    rewrite string_app_cons. cbn [splitlines_go]. rewrite Hlf, Hcr.
    by rewrite IH, string_app_snoc.
Qed.

Lemma splitlines_go_LF (line s : string) :
  splitlines_go line (String LF s) = line :: splitlines_go "" s.
Proof. reflexivity. Qed.

(** The lines of an event: the data line and an empty line; for the
    line-break token one empty line more. *)
Lemma splitlines_event_plain (token rest : string) :
  has_break token = false →
  splitlines_go "" (event token +:+ rest)
  = ("data: " +:+ token) :: "" :: splitlines_go "" rest.
Proof.
  intros Ht. unfold event.
  rewrite <- (string_app_assoc "data: " token), string_app_assoc.
  rewrite splitlines_go_plain by (by rewrite has_break_app, Ht).
  rewrite string_app_nil, !string_app_cons, string_app_nil.
  by rewrite !splitlines_go_LF.
Qed.

Lemma splitlines_event_newline (rest : string) :
  splitlines_go "" (event newline +:+ rest)
  = "data: " :: "" :: "" :: splitlines_go "" rest.
Proof.
  unfold event, newline.
  change ("data: " +:+ String "010" "" +:+ String LF (String LF ""))
    with ("data: " +:+ String LF (String LF (String LF ""))).
  rewrite string_app_assoc, splitlines_go_plain by done.
  rewrite string_app_nil, !string_app_cons, string_app_nil.
  by rewrite !splitlines_go_LF.
Qed.

Lemma read_line_data (response_text token : string) :
  read_line response_text ("data: " +:+ token) = response_text +:+ token +:+ " ".
Proof.
  unfold read_line, Path.startswith, Path.slice.
  change ("data: " +:+ token)
    with (String "d" (String "a" (String "t" (String "a"
            (String ":" (String " " token)))))).
  rewrite bool_decide_eq_false_2 by done.
  cbn [String.prefix String.length Nat.sub String.substring].
  simpl. rewrite Nat.sub_0_r, substring_all. by destruct token.
Qed.

Lemma read_line_empty (response_text : string) :
  read_line response_text "" = response_text.
Proof. reflexivity. Qed.

(** What the reader collects from the events of a stream of tokens each of
    which is free of line breaks or is the line-break token. *)
Lemma read_events (tokens : list string) (response_text : string) :
  Forall (λ token, has_break token = false ∨ token = newline) tokens →
  foldl read_line response_text
        (splitlines_go "" (body (generate_response tokens)))
  = response_text +:+ concat (gap <$> tokens).
Proof.
  intros Htokens. revert response_text.
  induction Htokens as [|token tokens Htoken _ IH]; intros response_text.
  - by rewrite string_app_empty_r.
  - unfold body, generate_response in *. rewrite !fmap_cons, !concat_cons.
    destruct Htoken as [Hplain| ->].
    + rewrite splitlines_event_plain by done. cbn [foldl].
      rewrite read_line_data, read_line_empty, IH.
      unfold gap. rewrite Hplain. by rewrite !string_app_assoc.
    + rewrite splitlines_event_newline. cbn [foldl].
      change (read_line ?r "data: ") with (read_line r ("data: " +:+ "")).
      rewrite read_line_data, !read_line_empty, IH.
      unfold gap. by rewrite !string_app_assoc.
Qed.

Lemma stream_from_tokens (n i : nat) (words : list string) :
  Forall token words →
  Forall (λ token, has_break token = false ∨ token = newline)
         (stream_from n i words).
Proof.
  intros Hwords. revert i.
  induction Hwords as [|word rest [_ Hword] _ IH]; intros i; [constructor|].
  cbn [stream_from]. unfold chunks_at. apply Forall_app. split; [|apply IH].
  constructor.
  - left. by rewrite has_break_app, (has_break_space word).
  - destruct (_ && _); [|constructor].
    apply Forall_cons. split; [by right|constructor].
Qed.

(** The text collected for the chunks of the loop has the words of the
    answer and no line break. *)
Lemma gap_stream_from (n i : nat) (words : list string) :
  Forall token words →
  split (concat (gap <$> stream_from n i words)) = words
  ∧ has_break (concat (gap <$> stream_from n i words)) = false.
Proof.
  intros Hwords. revert i.
  induction Hwords as [|word rest Hword _ IH]; intros i; [done|].
  destruct (IH (S i)) as [IHsplit IHbreak].
  assert (has_break word = false) as Hplain
    by (destruct Hword; by apply has_break_space).
  assert (gap (word +:+ " ") = word +:+ " " +:+ " ") as Hgap.
  { unfold gap. rewrite has_break_app, Hplain. simpl.
    by rewrite string_app_assoc. }
  cbn [stream_from]. unfold chunks_at.
  change ((?c :: ?l) ++ ?r) with (c :: l ++ r).
  rewrite fmap_cons, concat_cons, Hgap, !string_app_assoc.
  rewrite split_token_space by done.
  rewrite has_break_app, Hplain. cbn [orb].
  destruct (_ && _); cbn [app].
  - rewrite fmap_cons, concat_cons.
    change (gap newline) with (" " +:+ "").
    rewrite !string_app_cons, !string_app_nil.
    rewrite !split_space by done. simpl. by rewrite IHsplit, IHbreak.
  - rewrite !string_app_cons, !string_app_nil.
    rewrite !split_space by done. simpl. by rewrite IHsplit, IHbreak.
Qed.

Lemma split_go_all_space (word s : string) :
  all_space s = true → split_go word s = flush word.
Proof.
  revert word. induction s as [|c s IH]; intros word; [done|].
  simpl. intros [Hc Hs]%andb_true_iff. rewrite Hc, (IH "" Hs).
  apply app_nil_r.
Qed.

Lemma split_lstrip (s : string) : split (lstrip s) = split s.
Proof.
  induction s as [|c s IH]; [done|]. simpl.
  destruct (isspace c) eqn:Hc; [|done]. by rewrite split_space.
Qed.

Lemma rstrip_empty (s : string) : rstrip s = "" → all_space s = true.
Proof.
  induction s as [|c s IH]; [done|]. simpl.
  destruct (bool_decide (rstrip s = "")) eqn:Hr; simpl; [|done].
  apply bool_decide_eq_true_1 in Hr.
  destruct (isspace c); [by auto|done].
Qed.

Lemma split_go_rstrip (word s : string) :
  split_go word (rstrip s) = split_go word s.
Proof.
  revert word. induction s as [|c s IH]; intros word; [done|]. simpl.
  destruct (bool_decide (rstrip s = "")) eqn:Hr; simpl.
  - apply bool_decide_eq_true_1 in Hr.
    destruct (isspace c) eqn:Hc; simpl.
    + rewrite (split_go_all_space "" s) by (by apply rstrip_empty).
      by rewrite app_nil_r.
    + rewrite Hc. apply IH.
  - cbn [split_go]. destruct (isspace c); by rewrite IH.
Qed.

Lemma split_strip (s : string) : split (strip s) = split s.
Proof.
  unfold strip. rewrite <- (split_lstrip s). unfold split.
  apply split_go_rstrip.
Qed.

Lemma has_break_lstrip (s : string) :
  has_break s = false → has_break (lstrip s) = false.
Proof.
  induction s as [|c s IH]; [done|]. intros Hs. simpl.
  destruct (isspace c); [|done].
  simpl in Hs. apply orb_false_elim in Hs as [_ Hs]. by apply IH.
Qed.

Lemma has_break_rstrip (s : string) :
  has_break s = false → has_break (rstrip s) = false.
Proof.
  induction s as [|c s IH]; [done|]. simpl.
  intros [Hc Hs]%orb_false_elim.
  destruct (_ && _); [done|]. simpl. by rewrite Hc, IH.
Qed.

(** The chunks the loop hands out before it ends are all there is. *)
Lemma drain_emitted (fuel : nat) (s : emit) (chunks : list string) :
  drain fuel s = Some chunks → chunks = emitted s.
Proof.
  revert s chunks. induction fuel as [|fuel IH]; intros s chunks.
  - destruct s; simpl; congruence.
  - destruct s as [chunk k|k|]; simpl.
    + destruct (drain fuel (advance k)) as [rest|] eqn:Hrest; [|done].
      intros [= <-]. rewrite pending_advance. f_equal. by apply IH.
    + intros Hrest. rewrite pending_advance. by apply IH.
    + congruence.
Qed.

End StreamFacts.

(** X18. What the frontend keeps of an answer. When the loop of
    [send_message] has streamed a whole answer, [generate_response] has put
    every chunk into an event and the frontend has read the lines of the
    response, the content it keeps for the assistant message has exactly the
    words of the answer, in order, and holds no line break: the line-break
    chunks after sentences arrive as one more space. *)
Theorem frontend_content_words
    (answer : string) (fuel : nat) (chunks : list string) :
  Presenter.drain fuel (Presenter.present answer) = Some chunks →
  PyStr.split (Stream.content chunks) = PyStr.split answer
  ∧ Stream.has_break (Stream.content chunks) = false.
Proof.
  intros Hdrain. apply drain_emitted in Hdrain as ->.
  unfold Presenter.present. rewrite emitted_enter.
  pose proof (split_tokens answer) as Hwords.
  unfold Stream.content, Stream.iter_lines, Stream.splitlines, Stream.read.
  rewrite read_events by (by apply stream_from_tokens).
  rewrite string_app_nil.
  destruct (gap_stream_from (length (PyStr.split answer)) 0 _ Hwords)
    as [Hsplit Hbreak].
  split.
  - by rewrite split_strip.
  - by apply has_break_rstrip, has_break_lstrip.
Qed.

Lemma frontend_content_words_witness :
  let chunks := ["Yes. "; Presenter.newline; "It "; "is. "] in
  PyStr.split (Stream.content chunks) = PyStr.split "Yes. It is."
  ∧ Stream.has_break (Stream.content chunks) = false.
Proof.
  intros chunks.
  apply (frontend_content_words "Yes. It is." 9 chunks).
  vm_compute. reflexivity.
Defined.
